(** * RTC-Tools: the collocated/integrated transcription, embedded in Rocq

    A shallow embedding of the parts of
    [rtctools.optimization.collocated_integrated_optimization_problem]
    that fix the decision-vector layout, split the DAE, build the
    theta-method collocation constraints, aggregate the ensemble, resolve
    delayed feedback, pin initial conditions from the history, decode a
    solved vector, and look a variable up in the decision vector
    ([control_at], [state_at], [der], [der_at], [extra_variable]).

    Conventions.
    - Python dictionaries are [gmap string _]; numpy arrays are lists.
    - Floating-point numbers are idealised: a [pyfloat] is an exact rational
      or one of the IEEE specials (+inf, -inf, NaN).  Rounding is not
      modelled.
    - Code that raises returns in [result]; code that also logs runs in the
      small log-and-error monad [M].
    - Collaborators that live outside this file of the repository (the data
      provider, [interpolate], the CasADi functions) are fields of [Problem]
      or section variables. *)

From Stdlib Require Import QArith Qcanon Lia.
From stdpp Require Import base numbers list gmap strings pretty.

(** ** Numbers *)

Inductive pyfloat : Type :=
  | Fin (q : Qc)
  | PInf
  | NInf
  | NaN.

#[global] Instance pyfloat_eq_dec : EqDecision pyfloat.
Proof. solve_decision. Defined.

(** [np.isnan], [np.isfinite]. *)
Definition isnan (x : pyfloat) : bool :=
  match x with NaN => true | _ => false end.

Definition isfinite (x : pyfloat) : bool :=
  match x with Fin _ => true | _ => false end.

(** [x < y] on floats: every comparison with NaN is false. *)
Definition flt (x y : pyfloat) : bool :=
  match x, y with
  | NaN, _ | _, NaN => false
  | Fin a, Fin b => bool_decide (a < b)%Qc
  | NInf, NInf => false
  | NInf, _ => true
  | _, NInf => false
  | PInf, _ => false
  | Fin _, PInf => true
  end.

Definition fgt (x y : pyfloat) : bool := flt y x.

(** [x / nominal] for a float [x] and a rational nominal. *)
Definition fdiv (x : pyfloat) (n : Qc) : pyfloat :=
  match x with
  | Fin a =>
      if decide (n = 0%Qc)
      then (if decide (a = 0%Qc) then NaN
            else if decide (0 < a)%Qc then PInf else NInf)
      else Fin (a / n)%Qc
  | PInf => if decide (n < 0)%Qc then NInf else PInf
  | NInf => if decide (n < 0)%Qc then PInf else NInf
  | NaN => NaN
  end.

(** [x * nominal]. *)
Definition fmul (x : pyfloat) (n : Qc) : pyfloat :=
  match x with
  | Fin a => Fin (a * n)%Qc
  | PInf =>
      if decide (n = 0%Qc) then NaN
      else if decide (n < 0)%Qc then NInf else PInf
  | NInf =>
      if decide (n = 0%Qc) then NaN
      else if decide (n < 0)%Qc then PInf else NInf
  | NaN => NaN
  end.

Definition qz (z : Z) : Qc := Q2Qc (inject_Z z).

(** ** Exceptions and the two monads *)

Inductive exn : Type :=
  | KeyError (key : string)
  | IndexError
  | ValueError
  | ZeroDivisionError
  | AssertionError (msg : string)
  | NotImplementedError (msg : string)
  | UnboundLocalError (name : string)
  | PyException (msg : string).

#[global] Instance exn_eq_dec : EqDecision exn.
Proof. solve_decision. Defined.

Definition result (A : Type) : Type := (exn + A)%type.

Definition Ok {A} (a : A) : result A := inr a.
Definition Raise {A} (e : exn) : result A := inl e.

#[global] Instance result_ret : MRet result := λ A a, inr a.
#[global] Instance result_bind : MBind result := λ A B f m,
  match m with
  | inl e => inl e
  | inr a => f a
  end.

Definition is_ok {A} (r : result A) : Prop :=
  match r with inr _ => True | inl _ => False end.

(** A loop whose body may raise. *)
Fixpoint foldM {A B} (f : A → B → result A) (a : A) (l : list B) : result A :=
  match l with
  | [] => Ok a
  | x :: l' => a' ← f a x; foldM f a' l'
  end.

(** What the code leaves behind besides its return value: calls into the
    layout builder and log records. *)
Inductive event : Type :=
  | DiscretizeControlsCalled
  | DiscretizeStatesCalled
  | LogWarning (msg : string)
  | LogError (msg : string).

#[global] Instance event_eq_dec : EqDecision event.
Proof. solve_decision. Defined.

Definition M (A : Type) : Type := list event → list event * result A.

#[global] Instance M_ret : MRet M := λ A a log, (log, inr a).
#[global] Instance M_bind : MBind M := λ A B f m log,
  match m log with
  | (log', inl e) => (log', inl e)
  | (log', inr a) => f a log'
  end.

Definition emit (ev : event) : M unit := λ log, (log ++ [ev], inr tt).
Definition lift {A} (r : result A) : M A := λ log, (log, r).
Definition run {A} (m : M A) : list event * result A := m [].

Fixpoint foldMM {A B} (f : A → B → M A) (a : A) (l : list B) : M A :=
  match l with
  | [] => mret a
  | x :: l' => a' ← f a x; foldMM f a' l'
  end.

(** ** Python sequences *)

(** [a[i]] for [i >= 0]. *)
Definition index {A} (a : list A) (i : nat) : result A :=
  match a !! i with
  | Some x => Ok x
  | None => Raise IndexError
  end.

(** [a[-k]] for [k >= 1]. *)
Definition index_back {A} (a : list A) (k : nat) : result A :=
  if decide (1 ≤ k ≤ length a) then index a (length a - k)
  else Raise IndexError.

(** [a[start:stop]]: out-of-range ends are clamped. *)
Definition slice_of {A} (a : list A) (start stop : nat) : list A :=
  take (stop - start) (drop start a).

Definition slice_len {A} (a : list A) (start stop : nat) : nat :=
  length (slice_of a start stop).

(** The right-hand side of a numpy slice assignment. *)
Inductive rhs (A : Type) : Type :=
  | Scalar (v : A)
  | Array (vs : list A).
Arguments Scalar {A} v.
Arguments Array {A} vs.

(** [a[start:stop] = r]: a scalar or a one-element array is broadcast, an
    array of the slice's length is copied, anything else is a shape error. *)
Definition set_slice {A} (a : list A) (start stop : nat) (r : rhs A)
  : result (list A) :=
  let k := slice_len a start stop in
  match r with
  | Scalar v => Ok (take start a ++ replicate k v ++ drop (start + k) a)
  | Array vs =>
      if decide (length vs = k)
      then Ok (take start a ++ vs ++ drop (start + k) a)
      else match vs with
           | [v] => Ok (take start a ++ replicate k v ++ drop (start + k) a)
           | _ => Raise ValueError
           end
  end.

(** [a[i] = v] for an index the code computed itself. *)
Definition set_item {A} (a : list A) (i : nat) (v : A) : result (list A) :=
  if decide (i < length a) then Ok (<[i := v]> a) else Raise IndexError.

Definition rhs_map {A B} (f : A → B) (r : rhs A) : rhs B :=
  match r with
  | Scalar v => Scalar (f v)
  | Array vs => Array (f <$> vs)
  end.

(** ** The problem: what the collaborators supply *)

Record Timeseries : Type := mkTimeseries {
  ts_times : list Qc;
  ts_values : list pyfloat;
}.

(** One side of a bound: a number, an array or a time series. *)
Inductive bound_value : Type :=
  | BScalar (v : pyfloat)
  | BArray (vs : list pyfloat)
  | BSeries (ts : Timeseries).

(** A slot of the index map: [slice(start, stop)] or a plain offset. *)
Inductive slot : Type :=
  | Slice (start stop : nat)
  | Offset (i : nat).

#[global] Instance slot_eq_dec : EqDecision slot.
Proof. solve_decision. Defined.

Record Problem : Type := mkProblem {
  ensemble_size : nat;
  differentiated_states : list string;
  algebraic_states : list string;
  controls : list string;
  (** names of [dae_variables['derivatives']] *)
  derivative_names : list string;
  (** path and extra variables: name and [size1()] *)
  path_variables : list (string * nat);
  extra_variables : list (string * nat);
  integrated_states : list string;
  (** [times(variable)]; [None] is the shared collocation grid *)
  times : option string → list Qc;
  initial_time : Qc;
  variable_nominal : string → Qc;
  variable_is_discrete : string → bool;
  interpolation_method : string → nat;
  (** Modelled from the spec: [OptimizationProblem.interpolate] is defined
      outside this module; a time series "supports interpolation with
      configurable out-of-range fill values and a selectable method".  It is
      taken pointwise: the value at one requested time, from the series'
      times and values, the left and right fill values and the method. *)
  interpolate : Qc → list Qc → list pyfloat → pyfloat → pyfloat → nat → pyfloat;
  bounds : gmap string (option bound_value * option bound_value);
  seed : nat → gmap string Timeseries;
  history : nat → gmap string Timeseries;
}.

(** [self.interpolate(ts, ...)] for an array of requested times. *)
Definition interpolate_at (p : Problem) (ts : list Qc) (s : Timeseries)
    (f_left f_right : pyfloat) (method : nat) : list pyfloat :=
  (λ t, interpolate p t (ts_times s) (ts_values s) f_left f_right method) <$> ts.

Definition path_variable_names (p : Problem) : list string :=
  fst <$> path_variables p.

Definition extra_variable_names (p : Problem) : list string :=
  fst <$> extra_variables p.

(** The variables [discretize_states] walks over, in its order. *)
Definition state_chain (p : Problem) : list string :=
  differentiated_states p ++ algebraic_states p ++ path_variable_names p.

(** ** transcribe: the cache of variable sizes (lines 190-201) *)

Definition set_sizes (m : gmap string nat) (l : list (string * nat))
  : gmap string nat :=
  foldl (λ acc vs, <[vs.1 := vs.2]> acc) m l.

Definition variable_sizes (p : Problem) : gmap string nat :=
  let states := differentiated_states p ++ algebraic_states p in
  let m1 := set_sizes ∅ ((λ v, (v, 1)) <$> states) in
  let m2 := set_sizes m1 (path_variables p) in
  set_sizes m2 (extra_variables p).

(** [self.__variable_sizes.get(variable, 1)] *)
Definition size_get (sizes : gmap string nat) (variable : string) : nat :=
  default 1 (sizes !! variable).

(** [self.__variable_sizes[variable]] *)
Definition size_lookup (sizes : gmap string nat) (variable : string)
  : result nat :=
  match sizes !! variable with
  | Some s => Ok s
  | None => Raise (KeyError variable)
  end.

(** ** transcribe: the initial step sizes (lines 203-218) *)

Definition initial_dt_of (p : Problem) (history_0 : gmap string Timeseries)
    (variable : string) : result Qc :=
  let ts := times p (Some variable) in
  match history_0 !! variable with
  | Some h =>
      h0 ← index (ts_times h) 0;
      t0 ← index ts 0;
      if bool_decide (h0 = t0) || bool_decide (length (ts_values h) = 1)
      then
        t1 ← index ts 1;
        t0' ← index ts 0;
        Ok (t1 - t0')%Qc
      else
        hl ← index_back (ts_times h) 1;
        t0' ← index ts 0;
        if bool_decide (hl = t0')
        then
          hl' ← index_back (ts_times h) 1;
          hl2 ← index_back (ts_times h) 2;
          Ok (hl' - hl2)%Qc
        else Raise (AssertionError "")
  | None =>
      t1 ← index ts 1;
      t0 ← index ts 0;
      Ok (t1 - t0)%Qc
  end.

Definition initial_dt (p : Problem) : result (gmap string Qc) :=
  let history_0 := history p 0 in
  foldM (λ acc variable,
           dt ← initial_dt_of p history_0 variable;
           Ok (<[variable := dt]> acc))
        ∅ (differentiated_states p).

(** ** transcribe: vector symbols are refused (lines 220-228) *)

Definition vector_symbol_message (kind variable : string) : string :=
  "Vector symbol not supported for " +:+ kind +:+ " '" +:+ variable +:+ "'".

Fixpoint check_vector_symbols (sizes : gmap string nat) (kind : string)
    (variables : list string) : result unit :=
  match variables with
  | [] => Ok tt
  | variable :: rest =>
      if decide (1 < size_get sizes variable)
      then Raise (NotImplementedError (vector_symbol_message kind variable))
      else check_vector_symbols sizes kind rest
  end.

(** ** discretize_controls (lines 1601-1680) *)

Record arrays : Type := mkArrays {
  a_discrete : list bool;
  a_lbx : list pyfloat;
  a_ubx : list pyfloat;
  a_x0 : list pyfloat;
}.

Abbreviation index_maps := (list (gmap string slot)).

(** The first loop: one slot per point of each control's own grid. *)
Definition control_count (p : Problem) : nat :=
  foldl (λ count variable, count + length (times p (Some variable)))
        0 (controls p).

(** What is assigned for one side of a control's bound. *)
Definition control_bound_rhs (p : Problem) (variable : string)
    (b : bound_value) (fill : pyfloat) : rhs pyfloat :=
  let nominal := variable_nominal p variable in
  match b with
  | BSeries s =>
      Array ((λ x, fdiv x nominal) <$>
             interpolate_at p (times p (Some variable)) s fill fill
                            (interpolation_method p variable))
  | BScalar v => Scalar (fdiv v nominal)
  | BArray vs => Array ((λ x, fdiv x nominal) <$> vs)
  end.

Definition seed_rhs (p : Problem) (variable : string) (ts : list Qc)
    (s : Timeseries) : rhs pyfloat :=
  Array ((λ x, fdiv x (variable_nominal p variable)) <$>
         interpolate_at p ts s (Fin 0) (Fin 0) (interpolation_method p variable)).

(** The loop state: the running offset, the index maps and the arrays. *)
Record layout_state : Type := mkLayoutState {
  ls_offset : nat;
  ls_indices : index_maps;
  ls_arrays : arrays;
}.

(** One pass of the second loop.  The seed is looked up inside the [else]
    branch of the bounds lookup, as in the source. *)
Definition discretize_control (p : Problem)
    (given_bounds : gmap string (option bound_value * option bound_value))
    (seed_0 : gmap string Timeseries)
    (st : layout_state) (variable : string) : result layout_state :=
  let ts := times p (Some variable) in
  let n_times := length ts in
  let offset := ls_offset st in
  let a := ls_arrays st in
  let indices :=
    (λ d : gmap string slot, <[variable := Slice offset (offset + n_times)]> d)
      <$> ls_indices st in
  discrete ← set_slice (a_discrete a) offset (offset + n_times)
                (Scalar (variable_is_discrete p variable));
  '(lbx, ubx, x0) ←
    match given_bounds !! variable with
    | None => Ok (a_lbx a, a_ubx a, a_x0 a)
    | Some (b0, b1) =>
        lbx ← match b0 with
              | Some b => set_slice (a_lbx a) offset (offset + n_times)
                            (control_bound_rhs p variable b NInf)
              | None => Ok (a_lbx a)
              end;
        ubx ← match b1 with
              | Some b => set_slice (a_ubx a) offset (offset + n_times)
                            (control_bound_rhs p variable b PInf)
              | None => Ok (a_ubx a)
              end;
        x0 ← match seed_0 !! variable with
             | Some seed_k => set_slice (a_x0 a) offset (offset + n_times)
                                (seed_rhs p variable ts seed_k)
             | None => Ok (a_x0 a)
             end;
        Ok (lbx, ubx, x0)
    end;
  Ok (mkLayoutState (offset + n_times) indices (mkArrays discrete lbx ubx x0)).

Definition discretize_controls (p : Problem)
    (given_bounds : gmap string (option bound_value * option bound_value))
  : result (nat * arrays * index_maps) :=
  let count := control_count p in
  let seed_0 := seed p 0 in
  let init :=
    mkLayoutState 0 (replicate (ensemble_size p) ∅)
      (mkArrays (replicate count false) (replicate count NInf)
                (replicate count PInf) (replicate count (Fin 0))) in
  st ← foldM (discretize_control p given_bounds seed_0) init (controls p);
  Ok (count, ls_arrays st, ls_indices st).

(** ** discretize_states: sizes and index maps (lines 1761-1820)

    The bound, type and seed arrays that the function fills afterwards
    (lines 1822-2034) are written through the offsets computed here and are
    not read by any statement below; they are left out. *)

(** The first two loops and the derivative slots: the per-member size. *)
Definition state_slots (p : Problem) (sizes : gmap string nat)
    (variable : string) : result nat :=
  if decide (variable ∈ integrated_states p) then Ok 1
  else
    s ← size_lookup sizes variable;
    Ok (s * length (times p (Some variable))).

Definition ensemble_member_size (p : Problem) (sizes : gmap string nat)
  : result nat :=
  n1 ← foldM (λ acc variable, k ← state_slots p sizes variable; Ok (acc + k))
         0 (state_chain p);
  n2 ← foldM (λ acc variable, s ← size_lookup sizes variable; Ok (acc + s))
         n1 (extra_variable_names p);
  Ok (n2 + length (derivative_names p)).

(** The index loop for one member: a pair of running offset and map. *)
Definition index_state_variable (p : Problem) (sizes : gmap string nat)
    (st : nat * gmap string slot) (variable : string)
  : result (nat * gmap string slot) :=
  let '(offset, d) := st in
  variable_size ← size_lookup sizes variable;
  if decide (variable ∈ integrated_states p)
  then
    if decide (variable_size = 1)
    then Ok (offset + 1, <[variable := Offset offset]> d)
    else Raise (AssertionError "")
  else
    let n_times := length (times p (Some variable)) in
    Ok (offset + n_times * variable_size,
        <[variable := Slice offset (offset + n_times * variable_size)]> d).

Definition index_extra_variable (sizes : gmap string nat)
    (st : nat * gmap string slot) (extra_variable : string)
  : result (nat * gmap string slot) :=
  let '(offset, d) := st in
  variable_size ← size_lookup sizes extra_variable;
  Ok (offset + variable_size,
      <[extra_variable := Slice offset (offset + variable_size)]> d).

Definition index_member (p : Problem) (sizes : gmap string nat)
    (member_size ensemble_member : nat) : result (gmap string slot) :=
  st ← foldM (index_state_variable p sizes)
         (ensemble_member * member_size, ∅) (state_chain p);
  st' ← foldM (index_extra_variable sizes) st (extra_variable_names p);
  Ok st'.2.

Fixpoint mapM {A B} (f : A → result B) (l : list A) : result (list B) :=
  match l with
  | [] => Ok []
  | x :: l' => y ← f x; ys ← mapM f l'; Ok (y :: ys)
  end.

Definition discretize_states (p : Problem) (sizes : gmap string nat)
  : result (nat * index_maps) :=
  member_size ← ensemble_member_size p sizes;
  let count := ensemble_size p * member_size in
  indices ← mapM (index_member p sizes member_size) (seq 0 (ensemble_size p));
  Ok (count, indices).

(** ** transcribe: from the checks to the decision vector (lines 190-345) *)

Definition shift_slot (control_size : nat) (value : slot) : slot :=
  match value with
  | Slice start stop => Slice (start + control_size) (stop + control_size)
  | Offset i => Offset (i + control_size)
  end.

(** [self.__indices[ensemble_member][key] = value] for every item of the
    member's state map. *)
Definition merge_member (control_size : nat)
    (indices_control indices_state : gmap string slot) : gmap string slot :=
  map_fold (λ key value acc, <[key := shift_slot control_size value]> acc)
           indices_control indices_state.

(** The loop runs over [range(ensemble_size)] and indexes both lists. *)
Definition merge_indices (p : Problem) (control_size : nat)
    (indices_control indices_state : index_maps) : result index_maps :=
  mapM (λ ensemble_member,
          ic ← index indices_control ensemble_member;
          ist ← index indices_state ensemble_member;
          Ok (merge_member control_size ic ist))
       (seq 0 (ensemble_size p)).

(** [x_inds[v]], [[v]]: the slots a variable occupies, as a list. *)
Definition slot_as_list (n_x : nat) (v : slot) : list nat :=
  match v with
  | Slice start stop => slice_of (seq 0 n_x) start stop
  | Offset i => [i]
  end.

Record Transcription : Type := mkTranscription {
  t_sizes : gmap string nat;
  t_initial_dt : gmap string Qc;
  t_control_size : nat;
  t_state_size : nat;
  t_indices : index_maps;
  t_indices_as_lists : list (gmap string (list nat));
  (** [X.size1()] *)
  t_n_x : nat;
  t_controls : arrays;
}.

Definition transcribe_layout (p : Problem) : M Transcription :=
  let sizes := variable_sizes p in
  dts ← lift (initial_dt p);
  lift (check_vector_symbols sizes "integrated state" (integrated_states p));;
  lift (check_vector_symbols sizes "control state" (controls p));;
  emit DiscretizeControlsCalled;;
  '(control_size, control_arrays, indices_control) ←
      lift (discretize_controls p (bounds p));
  emit DiscretizeStatesCalled;;
  '(state_size, indices_state) ← lift (discretize_states p sizes);
  indices ← lift (merge_indices p control_size indices_control indices_state);
  let n_x := control_size + state_size in
  mret (mkTranscription sizes dts control_size state_size indices
          ((λ d : gmap string slot, slot_as_list n_x <$> d) <$> indices)
          n_x control_arrays).

(** ** extract_controls, extract_states (lines 1682-1696, 2038-2129) *)

(** A decoded series: a flat vector, or a matrix for vector variables. *)
Inductive result_value : Type :=
  | RVector (v : list Qc)
  | RMatrix (rows : list (list Qc)).

#[global] Instance result_value_eq_dec : EqDecision result_value.
Proof. solve_decision. Defined.

Definition scale (nominal : Qc) (v : list Qc) : list Qc :=
  (λ x, nominal * x)%Qc <$> v.

Definition extract_control (p : Problem) (X : list Qc)
    (st : nat * gmap string result_value) (variable : string)
  : nat * gmap string result_value :=
  let '(offset, results) := st in
  let n_times := length (times p (Some variable)) in
  (offset + n_times,
   <[variable := RVector (scale (variable_nominal p variable)
                                (slice_of X offset (offset + n_times)))]> results).

Definition extract_controls (p : Problem) (X : list Qc)
  : gmap string result_value :=
  (foldl (extract_control p X) (0, ∅) (controls p)).2.

(** [a.reshape((rows, cols))] in row-major order, and [.transpose()]. *)
Fixpoint chunks {A} (rows cols : nat) (l : list A) : list (list A) :=
  match rows with
  | O => []
  | S r => take cols l :: chunks r cols (drop cols l)
  end.

Definition reshape {A} (rows cols : nat) (l : list A) : result (list (list A)) :=
  if decide (length l = rows * cols) then Ok (chunks rows cols l)
  else Raise ValueError.

Definition transpose {A} (cols : nat) (m : list (list A)) : list (list A) :=
  (λ i, omap (λ row : list A, row !! i) m) <$> seq 0 cols.

(** What [extract_states] reads besides the problem and the solver output:
    the sizes cached by [transcribe], the values of the cached integrator
    outputs at [X] (a CasADi function, evaluated outside), and the
    constant-input series resampled with [np.interp]. *)
Record ExtractInputs : Type := mkExtractInputs {
  ei_transcription : Transcription;
  ei_integrators_output : list Qc;
  ei_constant_inputs : list (string * list Qc);
}.

(** Lines 2052-2063.  Every entry of [self.integrators] is one row of the
    integrator output matrix ([integrators[i, :]]), so its [size1()] is 1. *)
Definition extract_integrated (p : Problem) (output : list Qc)
    (st : nat * gmap string result_value) (variable : string)
  : result (nat * gmap string result_value) :=
  let '(j, results) := st in
  if decide (variable ∈ differentiated_states p ++ algebraic_states p)
  then
    let n := 1 in
    Ok (j + n,
        <[variable := RVector (scale (variable_nominal p variable)
                                     (slice_of output j (j + n)))]> results)
  else Raise (KeyError variable).

(** Lines 2067-2073. *)
Definition extract_collocated (p : Problem) (X : list Qc)
    (st : nat * gmap string result_value) (variable : string)
  : nat * gmap string result_value :=
  let '(offset, results) := st in
  if decide (variable ∈ integrated_states p)
  then (offset + 1, results)
  else
    let n_times := length (times p (Some variable)) in
    (offset + n_times,
     <[variable := RVector (scale (variable_nominal p variable)
                                  (slice_of X offset (offset + n_times)))]> results).

(** Lines 2091-2101: path variables are cut with the length of the shared
    grid. *)
Definition extract_path_variable (p : Problem) (sizes : gmap string nat)
    (X : list Qc) (st : nat * gmap string result_value) (variable : string)
  : result (nat * gmap string result_value) :=
  let '(offset, results) := st in
  let n_collocation_times := length (times p None) in
  let nominal := variable_nominal p variable in
  variable_size ← size_lookup sizes variable;
  value ←
    (if decide (1 < variable_size)
     then
       m ← reshape variable_size n_collocation_times
             (slice_of X offset (offset + n_collocation_times * variable_size));
       Ok (RMatrix (scale nominal <$> transpose n_collocation_times m))
     else
       Ok (RVector (scale nominal
                      (slice_of X offset (offset + n_collocation_times)))));
  Ok (offset + n_collocation_times * variable_size,
      <[variable := value]> results).

(** Lines 2104-2116. *)
Definition extract_extra_variable (p : Problem) (sizes : gmap string nat)
    (X : list Qc) (st : nat * gmap string result_value) (variable : string)
  : result (nat * gmap string result_value) :=
  let '(offset, results) := st in
  let nominal := variable_nominal p variable in
  variable_size ← size_lookup sizes variable;
  value ←
    (if decide (1 < variable_size)
     then Ok (RMatrix [scale nominal (slice_of X offset (offset + variable_size))])
     else
       x ← index X offset;
       Ok (RVector (scale nominal [x])));
  Ok (offset + variable_size, <[variable := value]> results).

(** Lines 2119-2126; a state without a cached step size is skipped. *)
Definition extract_initial_derivative (p : Problem) (dts : gmap string Qc)
    (X : list Qc) (offset : nat) (results : gmap string result_value)
    (k_names : nat * (string * string)) : result (gmap string result_value) :=
  let '(k, (state_name, der_name)) := k_names in
  match dts !! state_name with
  | None => Ok results
  | Some dt =>
      x ← index X (offset + k);
      Ok (<["initial_" +:+ der_name :=
              RVector [(variable_nominal p state_name / dt * x)%Qc]]> results)
  end.

Definition enumerate {A} (l : list A) : list (nat * A) :=
  zip (seq 0 (length l)) l.

Definition extract_states (p : Problem) (inp : ExtractInputs) (X : list Qc)
    (ensemble_member : nat) : result (gmap string result_value) :=
  let tr := ei_transcription inp in
  let control_size := t_control_size tr in
  member_size ←
    (if decide (ensemble_size p = 0) then Raise ZeroDivisionError
     else Ok (t_state_size tr / ensemble_size p));
  st0 ←
    (if decide (0 < length (integrated_states p))
     then foldM (extract_integrated p (ei_integrators_output inp)) (0, ∅)
                (integrated_states p)
     else Ok (0, ∅));
  let results := st0.2 in
  let offset := control_size + ensemble_member * member_size in
  let st1 := foldl (extract_collocated p X) (offset, results)
               (differentiated_states p ++ algebraic_states p) in
  let st2 :=
    (st1.1, foldl (λ acc kv, <[kv.1 := RVector kv.2]> acc) st1.2
                  (ei_constant_inputs inp)) in
  st3 ← foldM (extract_path_variable p (t_sizes tr) X) st2
          (path_variable_names p);
  st4 ← foldM (extract_extra_variable p (t_sizes tr) X) st3
          (extra_variable_names p);
  foldM (extract_initial_derivative p (t_initial_dt tr) X st4.1) st4.2
        (enumerate (zip (differentiated_states p) (derivative_names p))).

(** [state_vector] and [extra_variable] read through the index map
    (lines 2131-2133, 2261-2263). *)
Definition read_slot (X : list Qc) (v : slot) : result (list Qc) :=
  match v with
  | Slice start stop => Ok (slice_of X start stop)
  | Offset i => x ← index X i; Ok [x]
  end.

Definition lookup_slot (indices : index_maps) (ensemble_member : nat)
    (variable : string) : result slot :=
  d ← index indices ensemble_member;
  match d !! variable with
  | Some v => Ok v
  | None => Raise (KeyError variable)
  end.

Definition state_vector (tr : Transcription) (X : list Qc) (variable : string)
    (ensemble_member : nat) : result (list Qc) :=
  v ← lookup_slot (t_indices tr) ensemble_member variable;
  read_slot X v.

(** Writing values into a variable's slots of a flat vector: the inverse
    direction, used to state the round trip. *)
Definition write_slot (X : list Qc) (v : slot) (values : list Qc)
  : result (list Qc) :=
  match v with
  | Slice start stop => set_slice X start stop (Array values)
  | Offset i =>
      match values with
      | [x] => set_item X i x
      | _ => Raise ValueError
      end
  end.

(** ** Symbolic expressions

    CasADi expressions are an external engine.  What the transcription uses
    of them is structural: which symbols an expression mentions
    ([ca.depends_on]), replacing symbols ([ca.substitute]), and evaluation
    at numbers.  A small expression tree carries exactly that. *)

Inductive binop : Type := OpAdd | OpSub | OpMul | OpDiv.

Inductive MX : Type :=
  | MXSym (name : string)
  | MXConst (c : Qc)
  | MXUn (f : string) (a : MX)
  | MXBin (op : binop) (a b : MX).

#[global] Instance binop_eq_dec : EqDecision binop.
Proof. solve_decision. Defined.

#[global] Instance MX_eq_dec : EqDecision MX.
Proof. solve_decision. Defined.

(** [ca.depends_on(e, sym)] for a symbol [sym]. *)
Fixpoint depends_on (e : MX) (sym : string) : bool :=
  match e with
  | MXSym name => bool_decide (name = sym)
  | MXConst _ => false
  | MXUn _ a => depends_on a sym
  | MXBin _ a b => depends_on a sym || depends_on b sym
  end.

(** [ca.substitute(e, [syms], [values])]: simultaneous replacement; the
    first binding of a symbol wins. *)
Fixpoint assoc_lookup {A} (name : string) (l : list (string * A)) : option A :=
  match l with
  | [] => None
  | (k, v) :: l' => if decide (k = name) then Some v else assoc_lookup name l'
  end.

Fixpoint substitute (e : MX) (bindings : list (string * MX)) : MX :=
  match e with
  | MXSym name => default (MXSym name) (assoc_lookup name bindings)
  | MXConst c => MXConst c
  | MXUn f a => MXUn f (substitute a bindings)
  | MXBin op a b => MXBin op (substitute a bindings) (substitute b bindings)
  end.

Definition eval_binop (op : binop) (x y : Qc) : Qc :=
  match op with
  | OpAdd => x + y
  | OpSub => x - y
  | OpMul => x * y
  | OpDiv => x / y
  end%Qc.

(** Evaluation at numbers, given the meaning of the unary functions. *)
Fixpoint eval (un : string → Qc → Qc) (env : string → Qc) (e : MX) : Qc :=
  match e with
  | MXSym name => env name
  | MXConst c => c
  | MXUn f a => un f (eval un env a)
  | MXBin op a b => eval_binop op (eval un env a) (eval un env b)
  end.

(** ** transcribe: integrated and collocated derivatives (lines 393-402) *)

Definition split_derivative (p : Problem)
    (st : list string * list string) (k_var : nat * string)
  : result (list string * list string) :=
  let '(integrated_derivatives, collocated_derivatives) := st in
  let '(k, var) := k_var in
  d ← index (derivative_names p) k;
  if decide (var ∈ integrated_states p)
  then Ok (integrated_derivatives ++ [d], collocated_derivatives)
  else Ok (integrated_derivatives, collocated_derivatives ++ [d]).

Definition split_derivatives (p : Problem) : result (list string * list string) :=
  foldM (split_derivative p) ([], []) (enumerate (differentiated_states p)).

(** ** transcribe: the DAE splitter (lines 617-634) *)

(** The inner loop with its [break]. *)
Fixpoint contains_integrated_derivative (output : MX)
    (integrated_derivatives : list string) : bool :=
  match integrated_derivatives with
  | [] => false
  | derivative :: rest =>
      if depends_on output derivative then true
      else contains_integrated_derivative output rest
  end.

Definition split_row (integrated_derivatives : list string)
    (st : list MX * list MX) (output : MX) : list MX * list MX :=
  let '(dae_residual_integrated, dae_residual_collocated) := st in
  if contains_integrated_derivative output integrated_derivatives
  then (dae_residual_integrated ++ [output], dae_residual_collocated)
  else (dae_residual_integrated, dae_residual_collocated ++ [output]).

(** [dae_outputs] are the rows of the residual ([ca.vertsplit]). *)
Definition split_dae (integrated_derivatives : list string)
    (dae_outputs : list MX) : list MX * list MX :=
  foldl (split_row integrated_derivatives) ([], []) dae_outputs.

(** The rows of the residual and the derivative symbols of the problem. *)
Definition dae_splitter (p : Problem) (dae_residual : list MX)
  : result (list MX * list MX) :=
  ders ← split_derivatives p;
  Ok (split_dae ders.1 dae_residual).

(** ** transcribe: constant and ensemble parameters (lines 519-555, 610-615)

    Parameter values are numbers here; a symbolic value (a parameter that
    depends on another symbol) is outside this model. *)

(** [np.all(values)]: every entry is nonzero. *)
Definition np_all (values : list Qc) : bool :=
  forallb (λ v, negb (bool_decide (v = 0%Qc))) values.

(** A Python [bool] compared with a number counts as 1 or 0. *)
Definition bool_as_number (b : bool) : Qc := if b then 1%Qc else 0%Qc.

Record parameter_split : Type := mkParameterSplit {
  constant_parameters : list string;
  constant_parameter_values : list Qc;
  ensemble_parameters : list string;
  ensemble_parameter_values : list (list Qc);
}.

(** The test of line 528, [len(values) == 1 or (np.all(values) == values[0])],
    with Python's short-circuit. *)
Definition same_everywhere (values : list Qc) : result bool :=
  if decide (length values = 1) then Ok true
  else
    v0 ← index values 0;
    Ok (bool_decide (bool_as_number (np_all values) = v0)).

Definition classify_parameter (ensemble_store : list (list Qc))
    (dynamic_parameter_names : list string)
    (st : parameter_split) (i_parameter : nat * string) : result parameter_split :=
  let '(i, parameter) := i_parameter in
  values ← mapM (λ member_parameters : list Qc, index member_parameters i)
            ensemble_store;
  same ← same_everywhere values;
  if same && negb (bool_decide (parameter ∈ dynamic_parameter_names))
  then
    v0 ← index values 0;
    Ok (mkParameterSplit
          (constant_parameters st ++ [parameter])
          (constant_parameter_values st ++ [v0])
          (ensemble_parameters st)
          (ensemble_parameter_values st))
  else
    Ok (mkParameterSplit
          (constant_parameters st)
          (constant_parameter_values st)
          (ensemble_parameters st ++ [parameter])
          (zip_with (λ l v, l ++ [v]) (ensemble_parameter_values st) values)).

(** [ensemble_store] holds, per member, the values of the parameters in the
    order of [parameters]. *)
Definition classify_parameters (ensemble_store : list (list Qc))
    (dynamic_parameter_names : list string) (parameters : list string)
  : result parameter_split :=
  foldM (classify_parameter ensemble_store dynamic_parameter_names)
        (mkParameterSplit [] [] [] (replicate (length ensemble_store) []))
        (enumerate parameters).

(** The expressions that receive the constant parameters. *)
Record expressions : Type := mkExpressions {
  dae_residual : list MX;
  initial_residual : list MX;
  path_objective : list MX;
  path_constraint_expressions : list MX;
  delayed_feedback_expressions : list MX;
  delayed_feedback_durations : list MX;
}.

Definition constant_bindings (s : parameter_split) : list (string * MX) :=
  zip (constant_parameters s) (MXConst <$> constant_parameter_values s).

Definition substitute_all (es : list MX) (bindings : list (string * MX))
  : list MX :=
  (λ e, substitute e bindings) <$> es.

(** Lines 539-555 inline into the path and delay expressions when there is a
    constant parameter; lines 610-615 inline into the residuals when the
    cached DAE functions are absent ([cache_empty]). *)
Definition inline_constant_parameters (cache_empty : bool)
    (s : parameter_split) (e : expressions) : expressions :=
  let b := constant_bindings s in
  let e1 :=
    match constant_parameters s with
    | [] => e
    | _ :: _ =>
        mkExpressions (dae_residual e) (initial_residual e)
          (substitute_all (path_objective e) b)
          (substitute_all (path_constraint_expressions e) b)
          (substitute_all (delayed_feedback_expressions e) b)
          (substitute_all (delayed_feedback_durations e) b)
    end in
  if cache_empty
  then mkExpressions
         (substitute_all (dae_residual e1) b)
         (substitute_all (initial_residual e1) b)
         (path_objective e1) (path_constraint_expressions e1)
         (delayed_feedback_expressions e1) (delayed_feedback_durations e1)
  else e1.

(** ** transcribe: one step of the theta method (lines 801-954)

    The cached CasADi functions are taken as numeric functions of their
    stacked inputs, parameters first. *)

Record StepFunctions : Type := mkStepFunctions {
  sf_theta : Qc;
  sf_t0 : Qc;
  (** [len(integrated_variables)], [len(collocated_variables)],
      [len(dae_variables['constant_inputs'])], [len(path_variables)] *)
  sf_n_integrated : nat;
  sf_n_collocated : nat;
  sf_n_constant_inputs : nat;
  sf_n_path_variables : nat;
  dae_residual_function_collocated : list Qc → list Qc → list Qc;
  (** the root finder: guess, previous state, parameters, stacked inputs *)
  integrator_step_function : list Qc → list Qc → list Qc → list Qc → list Qc;
  (** parameters, stacked inputs, extra variables *)
  path_objective_function : list Qc → list Qc → list Qc → list Qc;
  path_constraints_function : list Qc → list Qc → list Qc → list Qc;
  delayed_feedback_function : list Qc → list Qc → list Qc → list Qc;
  (** Modelled from the spec: [casadi_helpers.interpolate] lives outside
      this module; "a variable may declare its own grid, requiring
      interpolation to/from the shared grid".  Pointwise: the variable's
      times and values, the requested time, the method. *)
  ca_interpolate : list Qc → list Qc → Qc → nat → Qc;
}.

Definition vsub (a b : list Qc) : list Qc := zip_with Qcminus a b.
Definition vdiv (a : list Qc) (d : Qc) : list Qc := (λ x, x / d)%Qc <$> a.

(** [(1 - theta) * r0 + theta * r1], row by row. *)
Definition blend (theta : Qc) (r0 r1 : list Qc) : list Qc :=
  zip_with (λ x0 x1, (1 - theta) * x0 + theta * x1)%Qc r0 r1.

(** The pieces of [accumulated_U] (lines 818-838). *)
Record step_inputs : Type := mkStepInputs {
  collocated_states_0 : list Qc;
  collocated_states_1 : list Qc;
  constant_inputs_0 : list Qc;
  constant_inputs_1 : list Qc;
  collocation_time_0 : Qc;
  collocation_time_1 : Qc;
  path_variables_1 : list Qc;
  extra_constant_inputs_1 : list Qc;
}.

Definition unpack_accumulated_U (sf : StepFunctions) (accumulated_U : list Qc)
  : result step_inputs :=
  let nc := sf_n_collocated sf in
  let nci := sf_n_constant_inputs sf in
  let offset := 2 * (nc + nci) in
  t_0 ← index accumulated_U (offset + 0);
  t_1 ← index accumulated_U (offset + 1);
  Ok (mkStepInputs
        (slice_of accumulated_U 0 nc)
        (slice_of accumulated_U nc (2 * nc))
        (slice_of accumulated_U (2 * nc) (2 * nc + nci))
        (slice_of accumulated_U (2 * nc + nci) (2 * nc + 2 * nci))
        t_0 t_1
        (slice_of accumulated_U (offset + 2)
                  (offset + 2 + sf_n_path_variables sf))
        (drop (offset + 2 + sf_n_path_variables sf) accumulated_U)).

Definition dt_of (u : step_inputs) : Qc :=
  (collocation_time_1 u - collocation_time_0 u)%Qc.

(** Backward finite differences (lines 835-838). *)
Definition collocated_finite_differences (u : step_inputs) : list Qc :=
  vdiv (vsub (collocated_states_1 u) (collocated_states_0 u)) (dt_of u).

(** Lines 844-872: the integrated states after the step and their finite
    differences.  Without collocated variables the recomputation of line 869
    is skipped and the expression keeps the free symbols of line 673, which a
    CasADi function cannot be built from. *)
Definition integrate_step (sf : StepFunctions) (parameters : list Qc)
    (integrated_states_0 : list Qc) (u : step_inputs)
  : result (list Qc * list Qc) :=
  if decide (0 < sf_n_integrated sf)
  then
    let integrated_states_1 :=
      integrator_step_function sf integrated_states_0 integrated_states_0
        parameters
        (collocated_states_0 u ++ constant_inputs_0 u ++ [dt_of u] ++
         collocated_states_1 u ++ collocated_finite_differences u ++
         constant_inputs_1 u ++ [(collocation_time_1 u - sf_t0 sf)%Qc]) in
    if decide (0 < sf_n_collocated sf)
    then Ok (integrated_states_1,
             vdiv (vsub integrated_states_1 integrated_states_0) (dt_of u))
    else Raise (PyException "free variables")
  else Ok ([], []).

(** The two evaluations of the collocated residual (lines 880-901). *)
Definition dae_residual_0 (sf : StepFunctions) (parameters : list Qc)
    (integrated_states_0 integrated_finite_differences : list Qc)
    (u : step_inputs) : list Qc :=
  dae_residual_function_collocated sf parameters
    (integrated_states_0 ++ collocated_states_0 u ++
     integrated_finite_differences ++ collocated_finite_differences u ++
     constant_inputs_0 u ++ [(collocation_time_0 u - sf_t0 sf)%Qc]).

Definition dae_residual_1 (sf : StepFunctions) (parameters : list Qc)
    (integrated_states_1 integrated_finite_differences : list Qc)
    (u : step_inputs) : list Qc :=
  dae_residual_function_collocated sf parameters
    (integrated_states_1 ++ collocated_states_1 u ++
     integrated_finite_differences ++ collocated_finite_differences u ++
     constant_inputs_1 u ++ [(collocation_time_1 u - sf_t0 sf)%Qc]).

(** Lines 877-908.  [dae_residual_0] is bound when [theta < 1] and
    [dae_residual_1] when [theta > 0]; the last branch reads both. *)
Definition collocation_constraint (sf : StepFunctions) (parameters : list Qc)
    (integrated_states_0 integrated_states_1 integrated_finite_differences
       : list Qc)
    (u : step_inputs) : result (list Qc) :=
  let theta := sf_theta sf in
  let r0 :=
    if decide (theta < 1)%Qc
    then Some (dae_residual_0 sf parameters integrated_states_0
                 integrated_finite_differences u)
    else None in
  let r1 :=
    if decide (0 < theta)%Qc
    then Some (dae_residual_1 sf parameters integrated_states_1
                 integrated_finite_differences u)
    else None in
  if decide (theta = 0%Qc)
  then match r0 with
       | Some r => Ok r
       | None => Raise (UnboundLocalError "dae_residual_0")
       end
  else if decide (theta = 1%Qc)
  then match r1 with
       | Some r => Ok r
       | None => Raise (UnboundLocalError "dae_residual_1")
       end
  else match r0, r1 with
       | Some a, Some b => Ok (blend theta a b)
       | None, _ => Raise (UnboundLocalError "dae_residual_0")
       | _, None => Raise (UnboundLocalError "dae_residual_1")
       end.

(** The outputs of one step, in the order of [accumulated_Y]. *)
Record step_outputs : Type := mkStepOutputs {
  y_integrated : list Qc;
  y_collocation : list Qc;
  y_path_objective : list Qc;
  y_path_constraints : list Qc;
  y_delayed_feedback : list Qc;
}.

(** The function [accumulated] (lines 801-954) at numbers. *)
Definition accumulated (sf : StepFunctions)
    (accumulated_X accumulated_U parameters extra_variables : list Qc)
  : result step_outputs :=
  u ← unpack_accumulated_U sf accumulated_U;
  let integrated_states_0 := slice_of accumulated_X 0 (sf_n_integrated sf) in
  '(integrated_states_1, integrated_finite_differences) ←
      integrate_step sf parameters integrated_states_0 u;
  collocation ←
    (if decide (0 < sf_n_collocated sf)
     then collocation_constraint sf parameters integrated_states_0
            integrated_states_1 integrated_finite_differences u
     else Ok []);
  let func_inputs_implicit :=
    integrated_states_1 ++ collocated_states_1 u ++
    integrated_finite_differences ++ collocated_finite_differences u ++
    constant_inputs_1 u ++ [(collocation_time_1 u - sf_t0 sf)%Qc] ++
    path_variables_1 u ++ extra_constant_inputs_1 u in
  Ok (mkStepOutputs integrated_states_1 collocation
        (path_objective_function sf parameters func_inputs_implicit
           extra_variables)
        (path_constraints_function sf parameters func_inputs_implicit
           extra_variables)
        (delayed_feedback_function sf parameters func_inputs_implicit
           extra_variables)).

(** The rows of [accumulated_Y] after the integrated states, stacked. *)
Definition stacked (y : step_outputs) : list Qc :=
  y_collocation y ++ y_path_objective y ++ y_path_constraints y ++
  y_delayed_feedback y.

(** [accumulated.map] / [accumulated.mapaccum] over the columns of
    [accumulation_U]: with integrated variables each step starts from the
    state the previous one produced. *)
Fixpoint accumulation (sf : StepFunctions)
    (accumulation_X0 : list Qc) (accumulation_U : list (list Qc))
    (parameters extra_variables : list Qc) : result (list step_outputs) :=
  match accumulation_U with
  | [] => Ok []
  | u :: rest =>
      y ← accumulated sf accumulation_X0 u parameters extra_variables;
      ys ← accumulation sf
             (if decide (0 < sf_n_integrated sf) then y_integrated y
              else accumulation_X0)
             rest parameters extra_variables;
      Ok (y :: ys)
  end.

(** ** transcribe: the inputs of the steps, per member (lines 1105-1204) *)

(** Lines 369-379. *)
Definition integrated_variable_names (p : Problem) : list string :=
  filter (λ v, v ∈ integrated_states p)
         (differentiated_states p ++ algebraic_states p).

Definition collocated_variable_names (p : Problem) : list string :=
  filter (λ v, v ∉ integrated_states p)
         (differentiated_states p ++ algebraic_states p)
  ++ controls p.

(** [a[:-1]] *)
Definition drop_last {A} (l : list A) : list A := take (length l - 1) l.

(** [a[z]] with Python's negative indices. *)
Definition py_index {A} (a : list A) (z : Z) : result A :=
  if decide (0 ≤ z)%Z then index a (Z.to_nat z)
  else if decide (Z.to_nat (- z) ≤ length a)
       then index a (length a - Z.to_nat (- z))
       else Raise IndexError.

(** Lines 1121-1125: a variable on another grid gets placeholders. *)
Definition pad_var_inds (n_collocation_times : nat) (var_inds : list nat)
  : list Z :=
  let zs := Z.of_nat <$> var_inds in
  if decide (length var_inds ≠ n_collocation_times)
  then take n_collocation_times (zs ++ replicate n_collocation_times (-1)%Z)
  else zs.

Definition vmul (a b : list Qc) : result (list Qc) :=
  if decide (length a = length b) then Ok (zip_with Qcmult a b)
  else Raise (PyException "dimension mismatch").

Definition lookup_inds (d : gmap string (list nat)) (variable : string)
  : result (list nat) :=
  match d !! variable with
  | Some l => Ok l
  | None => Raise (KeyError variable)
  end.

(** Lines 1114-1133: the block of collocated states, as its columns (one per
    variable at the start of the steps, then one per variable at the end).
    [reshape] cuts the flat vector column by column. *)
Definition interpolated_states (p : Problem) (inds : gmap string (list nat))
    (X : list Qc) : result (list (list Qc)) :=
  let n := length (times p None) in
  let names := collocated_variable_names p in
  padded ← mapM (λ variable,
                   var_inds ← lookup_inds inds variable;
                   Ok (pad_var_inds n var_inds)) names;
  let interpolated_states_explicit := concat (drop_last <$> padded) in
  let interpolated_states_implicit := concat (drop 1 <$> padded) in
  xs_explicit ← mapM (py_index X) interpolated_states_explicit;
  xs_implicit ← mapM (py_index X) interpolated_states_implicit;
  let repeat_nominals :=
    concat ((λ v, replicate (n - 1) (variable_nominal p v)) <$> names) in
  flat ← vmul (xs_explicit ++ xs_implicit) (repeat_nominals ++ repeat_nominals);
  reshape (length names * 2) (n - 1) flat.

(** Lines 1135-1152: a variable with its own grid is interpolated onto the
    shared one and overwrites its two columns. *)
Definition reinterpolate_column (p : Problem) (sf : StepFunctions)
    (tr : Transcription) (X : list Qc) (ensemble_member : nat)
    (columns : list (list Qc)) (j_variable : nat * string)
  : result (list (list Qc)) :=
  let '(j, variable) := j_variable in
  let ts := times p (Some variable) in
  let collocation_times := times p None in
  if decide (length collocation_times = length ts) then Ok columns
  else
    values ← state_vector tr X variable ensemble_member;
    let interpolated :=
      (λ t, ca_interpolate sf ts values t (interpolation_method p variable))
        <$> collocation_times in
    let nominal := variable_nominal p variable in
    let interpolated :=
      if decide (nominal ≠ 1%Qc) then scale nominal interpolated
      else interpolated in
    c1 ← set_item columns j (drop_last interpolated);
    set_item c1 (length (collocated_variable_names p) + j) (drop 1 interpolated).

(** Lines 1174-1191: a path variable's values on the grid, one column per
    component, without the first time. *)
Definition path_variable_columns (p : Problem) (tr : Transcription)
    (X : list Qc) (ensemble_member : nat) (variable : string)
  : result (list (list Qc)) :=
  let n := length (times p None) in
  variable_size ← size_lookup (t_sizes tr) variable;
  values ← state_vector tr X variable ensemble_member;
  let nominal := variable_nominal p variable in
  let values := if decide (nominal ≠ 1%Qc) then scale nominal values else values in
  columns ← reshape variable_size n values;
  Ok (drop 1 <$> columns).

(** The per-member data that is not read from [X]: the constant inputs on
    the grid (in the order of the DAE's constant inputs) and the columns of
    the extra constant inputs. *)
Record member_data : Type := mkMemberData {
  md_constant_inputs : list (list Qc);
  md_extra_constant_inputs : list (list Qc);
}.

(** [accumulation_U]: the columns are stacked side by side and transposed,
    so that each step reads one column. *)
Definition accumulation_U (p : Problem) (sf : StepFunctions)
    (tr : Transcription) (md : member_data) (X : list Qc)
    (ensemble_member : nat) : result (list (list Qc)) :=
  let collocation_times := times p None in
  let n := length collocation_times in
  inds ← index (t_indices_as_lists tr) ensemble_member;
  states ← interpolated_states p inds X;
  states ← foldM (reinterpolate_column p sf tr X ensemble_member) states
             (enumerate (collocated_variable_names p));
  path ← mapM (path_variable_columns p tr X ensemble_member)
           (path_variable_names p);
  let columns :=
    states
    ++ ((λ c, slice_of c 0 (n - 1)) <$> md_constant_inputs md)
    ++ ((λ c, slice_of c 1 n) <$> md_constant_inputs md)
    ++ [slice_of collocation_times 0 (n - 1)]
    ++ [slice_of collocation_times 1 n]
    ++ concat path
    ++ ((λ c, slice_of c 1 n) <$> md_extra_constant_inputs md) in
  Ok (transpose (n - 1) columns).

(** ** transcribe: the objective (lines 1222-1243, 1435-1445, 1542)

    The objective of a member and the path objective are scalar expressions
    or absent ([MX()], of size 0). *)

Record ObjectiveInputs : Type := mkObjectiveInputs {
  (** [self.objective(ensemble_member)] at the decision vector *)
  oi_objective : nat → option Qc;
  oi_ensemble_member_probability : nat → Qc;
  (** [path_objective.size1()] *)
  oi_path_objective_size : nat;
  (** [dae_residual_collocated_size] *)
  oi_residual_size : nat;
  (** the path objective at the initial time, per member *)
  oi_initial_path_objective : nat → Qc;
}.

(** Lines 1229-1231: the rows of the path objective, over all steps. *)
Definition discretized_path_objective (oi : ObjectiveInputs)
    (columns : list (list Qc)) : list Qc :=
  concat ((λ c, slice_of c (oi_residual_size oi)
                         (oi_residual_size oi + oi_path_objective_size oi))
          <$> columns).

Definition sum1 (v : list Qc) : Qc := foldr Qcplus 0%Qc v.

(** Lines 1435-1445 for one member; [columns] is the output of the member's
    accumulation, one stacked column per step. *)
Definition member_objective (oi : ObjectiveInputs) (ensemble_member : nat)
    (columns : list (list Qc)) : Qc :=
  let f_member := default 0%Qc (oi_objective oi ensemble_member) in
  let f_member :=
    if decide (0 < oi_path_objective_size oi)
    then (f_member + (oi_initial_path_objective oi ensemble_member
                      + sum1 (discretized_path_objective oi columns)))%Qc
    else f_member in
  (oi_ensemble_member_probability oi ensemble_member * f_member)%Qc.

(** The list [f] after the loop over the members, and [nlp['f']]. *)
Definition nlp_objective (oi : ObjectiveInputs)
    (columns_of_member : nat → list (list Qc)) (ensemble_size : nat) : Qc :=
  sum1 (foldl (λ f ensemble_member,
                 f ++ [member_objective oi ensemble_member
                         (columns_of_member ensemble_member)])
              [] (seq 0 ensemble_size)).

(** ** transcribe: initial conditions from the history (lines 1021-1040) *)

(** The text of the warning (line 1038):
    ["Initial value {} for variable '{}' outside bounds.".format(val, variable)],
    where [value] is the text that [str.format] puts for the number. *)
Definition outside_bounds_message (value variable : string) : string :=
  "Initial value " +:+ value +:+ " for variable '" +:+ variable
    +:+ "' outside bounds.".

(** One pass of the loop over states and controls: the bounds of the
    variable's first slot are both set to the de-scaled history value.
    [format_value] is Python's rendering of a float by [str.format]. *)
Definition pin_initial_value (format_value : pyfloat → string) (p : Problem)
    (inds : gmap string (list nat)) (history_m : gmap string Timeseries)
    (st : list pyfloat * list pyfloat) (variable : string)
  : M (list pyfloat * list pyfloat) :=
  let '(lbx, ubx) := st in
  match history_m !! variable with
  | None => mret st
  | Some history_timeseries =>
      let val :=
        interpolate p (initial_time p) (ts_times history_timeseries)
          (ts_values history_timeseries) NaN NaN
          (interpolation_method p variable) in
      let val := fdiv val (variable_nominal p variable) in
      if isnan val then mret st
      else
        var_inds ← lift (lookup_inds inds variable);
        idx ← lift (index var_inds 0);
        l ← lift (index lbx idx);
        outside ← (if flt val l then mret true
                   else u ← lift (index ubx idx); mret (fgt val u));
        (if outside : bool
         then emit (LogWarning
                      (outside_bounds_message (format_value val) variable))
         else mret tt);;
        lbx' ← lift (set_item lbx idx val);
        ubx' ← lift (set_item ubx idx val);
        mret (lbx', ubx')
  end.

(** The variables of the loop, in its order. *)
Definition history_chain (p : Problem) : list string :=
  differentiated_states p ++ algebraic_states p ++ controls p.

Definition pin_initial_values (format_value : pyfloat → string)
    (p : Problem) (tr : Transcription) (ensemble_member : nat)
    (st : list pyfloat * list pyfloat) : M (list pyfloat * list pyfloat) :=
  inds ← lift (index (t_indices_as_lists tr) ensemble_member);
  foldMM (pin_initial_value format_value p inds (history p ensemble_member))
         st (history_chain p).

(** ** transcribe: delayed feedback (lines 1372-1433) *)

Definition fsub (x y : pyfloat) : pyfloat :=
  match x, y with
  | NaN, _ | _, NaN => NaN
  | Fin a, Fin b => Fin (a - b)%Qc
  | PInf, PInf | NInf, NInf => NaN
  | PInf, _ | _, NInf => PInf
  | NInf, _ | _, PInf => NInf
  end.

(** What one delayed-feedback expression brings for one member: the state it
    refers to (alias resolved), the evaluated delay per collocation time, the
    values of the expression over the history, at the initial time and over
    the steps, and the nominal magnitude. *)
Record DelayedFeedback : Type := mkDelayedFeedback {
  df_expression : string;
  df_in_canonical : string;
  df_in_sign : Z;
  df_delay : list pyfloat;
  df_history : list pyfloat;
  df_initial : pyfloat;
  df_discretized : list pyfloat;
  df_nominal : Qc;
}.

Record constraints : Type := mkConstraints {
  c_g : list (list pyfloat);
  c_lbg : list pyfloat;
  c_ubg : list pyfloat;
}.

Definition delay_assertion_message : string :=
  "Delay duration must be resolvable to real values at transcribe()".

Definition incomplete_history_message (expression : string) : string :=
  "Incomplete history for delayed expression " +:+ expression +:+
  ". Extrapolating t0 value backwards in time.".

(** The finite values of an array, once [np.all(np.isfinite(.))] holds. *)
Definition finite_value (x : pyfloat) : Qc :=
  match x with Fin q => q | _ => 0%Qc end.

(** [np.min]. *)
Definition np_min (a : list Qc) : result Qc :=
  match a with
  | [] => Raise ValueError
  | x :: a' => Ok (foldl (λ m y, if decide (y < m)%Qc then y else m) x a')
  end.

(** [np.searchsorted(a, v)] on an ascending array: the number of leading
    entries below [v]. *)
Fixpoint searchsorted (a : list Qc) (v : Qc) : nat :=
  match a with
  | [] => 0
  | x :: a' => if decide (x < v)%Qc then S (searchsorted a' v) else 0
  end.

(** [a[z:]] with Python's negative start. *)
Definition py_drop {A} (z : Z) (a : list A) : list A :=
  if decide (0 ≤ z)%Z then drop (Z.to_nat z) a
  else drop (length a - Z.to_nat (- z)) a.

(** Subtraction of two expression vectors: equal lengths, or one scalar. *)
Definition fsub_broadcast (a b : list pyfloat) : result (list pyfloat) :=
  if decide (length a = length b) then Ok (zip_with fsub a b)
  else match a, b with
       | [x], _ => Ok ((λ y, fsub x y) <$> b)
       | _, [y] => Ok ((λ x, fsub x y) <$> a)
       | _, _ => Raise (PyException "dimension mismatch")
       end.

Record DelayCollaborators : Type := mkDelayCollaborators {
  (** Modelled from the spec: [casadi_helpers.interpolate] lives outside
      this module; the resolver "interpolate[s] the referenced state at t
      (input side) and ... the lookup series at t - delay (delayed side)".
      Pointwise: times, values, the requested time, the method. *)
  dc_interpolate : list Qc → list pyfloat → Qc → nat → pyfloat;
  (** [np.unique] of the history times, without the last one *)
  dc_history_times : list Qc;
}.

(** One pass of the loop over the expressions (lines 1372-1433). *)
Definition delay_constraint (p : Problem) (dc : DelayCollaborators)
    (tr : Transcription) (X : list Qc) (ensemble_member : nat)
    (c : constraints) (df : DelayedFeedback) : M constraints :=
  let collocation_times := times p None in
  let n_collocation_times := length collocation_times in
  let in_times := times p (Some (df_in_canonical df)) in
  let in_nominal := variable_nominal p (df_in_canonical df) in
  values ← lift (state_vector tr X (df_in_canonical df) ensemble_member);
  let in_values := scale in_nominal values in
  let in_values :=
    if decide (df_in_sign df < 0)%Z
    then scale (qz (df_in_sign df)) in_values else in_values in
  let in_values := Fin <$> in_values in
  (if forallb isfinite (df_delay df) then mret tt
   else lift (Raise (AssertionError delay_assertion_message)));;
  let delay := finite_value <$> df_delay df in
  let history_times := dc_history_times dc in
  let out_times := history_times ++ collocation_times in
  let out_values := df_history df ++ [df_initial df] ++ df_discretized df in
  delayed_times ←
    lift (if decide (length collocation_times = length delay)
          then Ok (zip_with Qcminus collocation_times delay)
          else Raise ValueError);
  hist_earliest ← lift (np_min delayed_times);
  let hist_start_ind := searchsorted out_times hist_earliest in
  t ← lift (index out_times hist_start_ind);
  let hist_start_ind :=
    if decide (t ≠ hist_earliest) then (Z.of_nat hist_start_ind - 1)%Z
    else Z.of_nat hist_start_ind in
  '(out_times, out_values) ←
    (if existsb isnan (py_drop hist_start_ind (df_history df))
     then
       emit (LogWarning (incomplete_history_message (df_expression df)));;
       mret (drop (length history_times) out_times,
             drop (length history_times) out_values)
     else mret (out_times, out_values));
  let method := interpolation_method p (df_in_canonical df) in
  let x_in :=
    if decide (length collocation_times ≠ length in_times)
    then (λ t, dc_interpolate dc in_times in_values t method)
           <$> collocation_times
    else in_values in
  let x_out_delayed :=
    (λ t, dc_interpolate dc out_times out_values t method) <$> delayed_times in
  difference ← lift (fsub_broadcast x_in x_out_delayed);
  let zeros := replicate n_collocation_times (Fin 0) in
  mret (mkConstraints
          (c_g c ++ [(λ x, fdiv x (df_nominal df)) <$> difference])
          (c_lbg c ++ zeros)
          (c_ubg c ++ zeros)).

(** The loop over the members and, within each, over the expressions. *)
Definition delay_constraints (p : Problem) (dc : DelayCollaborators)
    (tr : Transcription) (X : list Qc)
    (feedback : nat → list DelayedFeedback) (c : constraints) : M constraints :=
  foldMM (λ c ensemble_member,
            foldMM (delay_constraint p dc tr X ensemble_member) c
                   (feedback ensemble_member))
         c (seq 0 (ensemble_size p)).

(** ** The accessors: der, control_at, state_at, der_at
    (lines 1698-1752, 2135-2256, 2371-2437)

    The accessors build CasADi expressions in the decision vector; they are
    taken at the numbers of a vector [X], as the expressions evaluate. *)

(** What the accessors use from outside this module. *)
Record Accessors : Type := mkAccessors {
  (** Modelled from the spec: the alias relation "maps a variable name to a
      (canonical-name, sign) pair; sign ∈ {+1, −1}". *)
  canonical_signed : string → string * Z;
  (** Modelled from the spec: [casadi_helpers.interpolate] lives outside
      this module; the accessors "interpolate" the values of a variable on
      its grid at the requested time.  Pointwise: times, values, the
      requested time, the method. *)
  ca_interpolate_at : list Qc → list pyfloat → Qc → nat → pyfloat;
  (** the values of [self.integrators] at [X] *)
  integrators : gmap string (list Qc);
  (** [self.constant_inputs(ensemble_member)] *)
  constant_inputs : nat → gmap string Timeseries;
  (** [self.parameters(ensemble_member)] *)
  parameters : nat → gmap string pyfloat;
  (** the text of the range error, made with [str.format] from the name,
      the time and the ends of the grid *)
  range_message : string → Qc → Qc → Qc → string;
  (** the key of the symbol cache, made with [str.format] from the name,
      the member, [t - initial_time] and the two flags *)
  symbol_name : string → nat → Qc → bool → bool → string;
}.

(** [{v: i for i, v in enumerate(names)}]: a repeated name keeps its last
    index. *)
Definition index_map_of (names : list string) : gmap string nat :=
  foldl (λ acc iv, <[iv.2 := iv.1]> acc) ∅ (enumerate names).

(** The derivative symbols made for the algebraic states and the controls
    (lines 403-407). *)
Definition algebraic_and_control_derivatives (p : Problem) : list string :=
  (λ v, "der(" +:+ v +:+ ")") <$> (algebraic_states p ++ controls p).

(** [der] (lines 2371-2382): the sign and the name of the symbol. *)
Definition der (p : Problem) (acc : Accessors) (variable : string)
  : result (Z * string) :=
  let '(canonical, sign) := canonical_signed acc variable in
  match index_map_of (differentiated_states p) !! canonical with
  | Some i =>
      d ← index (derivative_names p) i;
      Ok (sign, d)
  | None =>
      i ← match index_map_of (algebraic_states p) !! canonical with
          | Some i => Ok i
          | None =>
              match index_map_of (controls p) !! canonical with
              | Some j => Ok (length (algebraic_states p) + j)
              | None => Raise (KeyError canonical)
              end
          end;
      d ← index (algebraic_and_control_derivatives p) i;
      Ok (sign, d)
  end.

(** [sym *= nominal] unless the nominal is one, and [sym /= nominal]. *)
Definition times_nominal (apply : bool) (nominal : Qc) (sym : pyfloat)
  : pyfloat :=
  if apply && negb (bool_decide (nominal = 1%Qc)) then fmul sym nominal
  else sym.

Definition over_nominal (apply : bool) (nominal : Qc) (sym : pyfloat)
  : pyfloat :=
  if apply && negb (bool_decide (nominal = 1%Qc)) then fdiv sym nominal
  else sym.

(** [if sign < 0: sym *= -1] *)
Definition signed (sign : Z) (sym : pyfloat) : pyfloat :=
  if decide (sign < 0)%Z then fmul sym (qz (-1)) else sym.

(** CasADi refuses an index or a slice that reaches outside a vector. *)
Definition mx_index {A} (a : list A) (i : nat) : result A :=
  match a !! i with
  | Some x => Ok x
  | None => Raise (PyException "index out of bounds")
  end.

Definition mx_slice {A} (a : list A) (start stop : nat) : result (list A) :=
  if decide (stop ≤ length a) then Ok (slice_of a start stop)
  else Raise (PyException "slice out of bounds").

(** The first and the last value of a series as fill values, or NaN. *)
Definition fill_values (extrapolate : bool) (values : list pyfloat)
  : result (pyfloat * pyfloat) :=
  if extrapolate
  then
    f_left ← index values 0;
    f_right ← index_back values 1;
    Ok (f_left, f_right)
  else Ok (NaN, NaN).

(** The value before the initial time (lines 1712-1732, 2176-2198): from the
    history of the variable if there is one, else the first value of the
    variable, or NaN. *)
Definition before_initial_time (p : Problem) (ensemble_member : nat)
    (extrapolate : bool) (variable : string) (variable_values : list pyfloat)
    (t : Qc) : result pyfloat :=
  match history p ensemble_member !! variable with
  | None =>
      if extrapolate then mx_index variable_values 0 else Ok NaN
  | Some history_timeseries =>
      fills ← fill_values extrapolate (ts_values history_timeseries);
      Ok (interpolate p t (ts_times history_timeseries)
            (ts_values history_timeseries) fills.1 fills.2
            (interpolation_method p variable))
  end.

(** The value from the initial time on (lines 1733-1741, 2199-2207). *)
Definition from_initial_time (p : Problem) (acc : Accessors)
    (extrapolate : bool) (variable : string) (variable_values : list pyfloat)
    (t : Qc) : result pyfloat :=
  let ts := times p (Some variable) in
  outside ←
    (if extrapolate then Ok false
     else
       first ← index ts 0;
       if decide (t < first)%Qc then Ok true
       else
         last ← index_back ts 1;
         Ok (bool_decide (last < t)%Qc));
  if outside : bool
  then
    first ← index ts 0;
    last ← index_back ts 1;
    Raise (PyException (range_message acc variable t first last))
  else
    Ok (ca_interpolate_at acc ts variable_values t
          (interpolation_method p variable)).

(** [control_at] (lines 1698-1752): what is computed at the control that
    was asked for, whose slots start at [offset]. *)
Definition control_branch (p : Problem) (acc : Accessors) (X : list Qc)
    (control_input : string) (sign : Z) (t : Qc) (ensemble_member : nat)
    (scaled extrapolate : bool) (offset : nat) : result pyfloat :=
  let ts := times p (Some control_input) in
  let nominal := variable_nominal p control_input in
  let n_times := length ts in
  values ← mx_slice X offset (offset + n_times);
  let variable_values := Fin <$> values in
  sym ←
    (if decide (t < initial_time p)%Qc
     then
       sym ← before_initial_time p ensemble_member extrapolate
               control_input variable_values t;
       Ok (times_nominal (negb scaled) nominal sym)
     else
       sym ← from_initial_time p acc extrapolate control_input
               variable_values t;
       Ok (times_nominal (negb scaled) nominal sym));
  Ok (signed sign sym).

(** The loop over the controls, with the running offset. *)
Fixpoint control_at_from (p : Problem) (acc : Accessors) (X : list Qc)
    (variable canonical : string) (sign : Z) (t : Qc) (ensemble_member : nat)
    (scaled extrapolate : bool) (offset : nat) (l : list string)
  : result pyfloat :=
  match l with
  | [] => Raise (KeyError variable)
  | control_input :: rest =>
      if decide (control_input = canonical)
      then
        control_branch p acc X control_input sign t ensemble_member
          scaled extrapolate offset
      else
        control_at_from p acc X variable canonical sign t ensemble_member
          scaled extrapolate
          (offset + length (times p (Some control_input))) rest
  end.

Definition control_at (p : Problem) (acc : Accessors) (X : list Qc)
    (variable : string) (t : Qc) (ensemble_member : nat)
    (scaled extrapolate : bool) : result pyfloat :=
  let '(canonical, sign) := canonical_signed acc variable in
  control_at_from p acc X variable canonical sign t ensemble_member
    scaled extrapolate 0 (controls p).

(** [state_at] (lines 2160-2213): what is computed at the state or path
    variable that was asked for, whose slots start at [offset]. *)
Definition free_variable_branch (p : Problem) (acc : Accessors)
    (X : list Qc) (free_variable : string) (sign : Z) (t : Qc)
    (ensemble_member : nat) (scaled extrapolate : bool) (offset : nat)
  : result pyfloat :=
  let ts := times p (Some free_variable) in
  let n_times := length ts in
  if decide (free_variable ∈ integrated_states p)
  then
    let nominal := 1%Qc in
    x ← mx_index X offset;
    if decide (t = initial_time p)
    then Ok (Fin (qz sign * x)%Qc)
    else
      integrated ←
        match integrators acc !! free_variable with
        | Some values => Ok values
        | None => Raise (KeyError free_variable)
        end;
      let variable_values := Fin <$> ((qz sign * x)%Qc :: integrated) in
      sym ←
        (if decide (t < initial_time p)%Qc
         then
           sym ← before_initial_time p ensemble_member extrapolate
                   free_variable variable_values t;
           Ok (over_nominal scaled nominal sym)
         else
           sym ← from_initial_time p acc extrapolate free_variable
                   variable_values t;
           Ok (times_nominal (negb scaled) nominal sym));
      Ok (signed sign sym)
  else
    let nominal := variable_nominal p free_variable in
    values ← mx_slice X offset (offset + n_times);
    let variable_values := Fin <$> values in
    sym ←
      (if decide (t < initial_time p)%Qc
       then
         sym ← before_initial_time p ensemble_member extrapolate
                 free_variable variable_values t;
         Ok (over_nominal scaled nominal sym)
       else
         sym ← from_initial_time p acc extrapolate free_variable
                 variable_values t;
         Ok (times_nominal (negb scaled) nominal sym));
    Ok (signed sign sym).

(** The slots the loop of [state_at] steps over at a variable. *)
Definition free_variable_width (p : Problem) (free_variable : string) : nat :=
  if decide (free_variable ∈ integrated_states p) then 1
  else length (times p (Some free_variable)).

(** The loop over the states and path variables.  [None] means that the
    loop ended without a match. *)
Fixpoint free_variable_at_from (p : Problem) (acc : Accessors) (X : list Qc)
    (canonical : string) (sign : Z) (t : Qc) (ensemble_member : nat)
    (scaled extrapolate : bool) (offset : nat) (l : list string)
  : result (option pyfloat) :=
  match l with
  | [] => Ok None
  | free_variable :: rest =>
      if decide (free_variable = canonical)
      then
        sym ← free_variable_branch p acc X free_variable sign t
                ensemble_member scaled extrapolate offset;
        Ok (Some sym)
      else
        free_variable_at_from p acc X canonical sign t ensemble_member
          scaled extrapolate (offset + free_variable_width p free_variable)
          rest
  end.

(** The [except KeyError] branch of [state_at] (lines 2148-2251): what is
    computed when the symbol is not in the cache. *)
Definition state_at_uncached (p : Problem) (acc : Accessors)
    (tr : Transcription) (X : list Qc) (variable : string) (t : Qc)
    (ensemble_member : nat) (scaled extrapolate : bool) : result pyfloat :=
  ensemble_member_size ←
    (if decide (ensemble_size p = 0) then Raise ZeroDivisionError
     else Ok (t_state_size tr / ensemble_size p));
  let '(canonical, sign) := canonical_signed acc variable in
  found ←
    free_variable_at_from p acc X canonical sign t ensemble_member
      scaled extrapolate
      (t_control_size tr + ensemble_member * ensemble_member_size)
      (state_chain p);
  match found with
  | Some sym => Ok sym
  | None =>
      match control_at p acc X variable t ensemble_member false extrapolate
      with
      | inr sym => Ok sym
      | inl (KeyError _) =>
          match constant_inputs acc ensemble_member !! variable with
          | Some constant_input =>
              fills ← fill_values extrapolate (ts_values constant_input);
              Ok (interpolate p t (ts_times constant_input)
                    (ts_values constant_input) fills.1 fills.2
                    (interpolation_method p variable))
          | None =>
              match parameters acc ensemble_member !! variable with
              | Some sym => Ok sym
              | None => Raise (KeyError variable)
              end
          end
      | inl e => Raise e
      end
  end.

Definition vector_state_message : string :=
  "state_at() not supported for vector states".

(** [state_at] (lines 2135-2256), with the symbol cache as a state. *)
Definition state_at (p : Problem) (acc : Accessors) (tr : Transcription)
    (X : list Qc) (variable : string) (t : Qc) (ensemble_member : nat)
    (scaled extrapolate : bool) (cache : gmap string pyfloat)
  : result (pyfloat * gmap string pyfloat) :=
  if decide (1 < size_get (t_sizes tr) variable)
  then Raise (NotImplementedError vector_state_message)
  else
    let name :=
      symbol_name acc variable ensemble_member (t - initial_time p)%Qc
        scaled extrapolate in
    match cache !! name with
    | Some sym => Ok (sym, cache)
    | None =>
        sym ← state_at_uncached p acc tr X variable t ensemble_member
                scaled extrapolate;
        Ok (sym, <[name := sym]> cache)
    end.

(** An index computed with Python integers: CasADi counts a negative one
    from the end. *)
Definition mx_index_z {A} (a : list A) (z : Z) : result A :=
  if decide (0 ≤ z)%Z then mx_index a (Z.to_nat z)
  else if decide (- Z.of_nat (length a) ≤ z)%Z
       then mx_index a (Z.to_nat (Z.of_nat (length a) + z))
       else Raise (PyException "index out of bounds").

(** The loop of [der_at] over the intervals of the grid (lines 2424-2434). *)
Fixpoint der_at_loop (p : Problem) (acc : Accessors) (tr : Transcription)
    (X : list Qc) (variable : string) (t : Qc) (ensemble_member : nat)
    (cache : gmap string pyfloat) (history_and_times : list Qc)
  : result (pyfloat * gmap string pyfloat) :=
  match history_and_times with
  | [] => Raise IndexError
  | t_i :: rest =>
      if decide (t_i < t)%Qc
      then
        match rest with
        | [] => Raise IndexError
        | t_next :: _ =>
            if decide (t ≤ t_next)%Qc
            then
              '(x_next, cache1) ←
                state_at p acc tr X variable t_next ensemble_member
                  false true cache;
              '(x_i, cache2) ←
                state_at p acc tr X variable t_i ensemble_member
                  false true cache1;
              Ok (fdiv (fsub x_next x_i) (t_next - t_i)%Qc, cache2)
            else
              der_at_loop p acc tr X variable t ensemble_member cache rest
        end
      else der_at_loop p acc tr X variable t ensemble_member cache rest
  end.

(** [der_at] (lines 2384-2437). *)
Definition der_at (p : Problem) (acc : Accessors) (tr : Transcription)
    (X : list Qc) (variable : string) (t : Qc) (ensemble_member : nat)
    (cache : gmap string pyfloat)
  : result (pyfloat * gmap string pyfloat) :=
  special ←
    (if decide (t = initial_time p)
     then
       ensemble_member_size ←
         (if decide (ensemble_size p = 0) then Raise ZeroDivisionError
          else Ok (t_state_size tr / ensemble_size p));
       let '(canonical, sign) := canonical_signed acc variable in
       match index_map_of (differentiated_states p) !! canonical with
       | None => Ok None
       | Some i =>
           let nominal := variable_nominal p canonical in
           dt ← match t_initial_dt tr !! canonical with
                | Some dt => Ok dt
                | None => Raise (KeyError canonical)
                end;
           x ← mx_index_z X
                 (Z.of_nat (t_control_size tr)
                  + (Z.of_nat ensemble_member + 1)
                    * Z.of_nat ensemble_member_size
                  - Z.of_nat (length (derivative_names p)) + Z.of_nat i)%Z;
           Ok (Some (fmul (fmul (fdiv (Fin nominal) dt) (qz sign)) x))
       end
     else Ok None);
  match special with
  | Some sym => Ok (sym, cache)
  | None =>
      let ts := times p (Some variable) in
      let history_and_times :=
        if decide (t ≤ initial_time p)%Qc
        then match history p ensemble_member !! variable with
             | Some h => drop_last (ts_times h) ++ ts
             | None => ts
             end
        else ts in
      first ← index history_and_times 0;
      if decide (t = first) then Ok (Fin 0, cache)
      else der_at_loop p acc tr X variable t ensemble_member cache
             history_and_times
  end.

(** ** extra_variable (lines 2261-2263) *)

Definition extra_variable (p : Problem) (tr : Transcription) (X : list Qc)
    (extra_variable : string) (ensemble_member : nat) : result (list Qc) :=
  v ← lookup_slot (t_indices tr) ensemble_member extra_variable;
  values ← read_slot X v;
  Ok ((λ x, x * variable_nominal p extra_variable)%Qc <$> values).

(** ** transcribe: the initial derivatives from the history
    (lines 1042-1084) *)

(** [a[i] = v] for an index computed with Python integers: a negative one
    counts from the end. *)
Definition set_item_z {A} (a : list A) (z : Z) (v : A) : result (list A) :=
  if decide (0 ≤ z)%Z then set_item a (Z.to_nat z) v
  else if decide (- Z.of_nat (length a) ≤ z)%Z
       then set_item a (Z.to_nat (Z.of_nat (length a) + z)) v
       else Raise IndexError.

(** The backward difference of the history at the initial time. *)
Definition backward_difference (p : Problem) (t0_val : pyfloat)
    (history_timeseries : Timeseries) : result pyfloat :=
  v2 ← index_back (ts_values history_timeseries) 2;
  t2 ← index_back (ts_times history_timeseries) 2;
  Ok (fdiv (fsub t0_val v2) (initial_time p - t2)%Qc).

(** One pass of the loop over the differentiated states.  The state is the
    bounds and the values, at [X], of the constraints collected so far;
    [initial_derivatives] holds the values of the initial derivatives at
    [X]. *)
Definition pin_initial_derivative (p : Problem) (tr : Transcription)
    (X : list Qc) (ensemble_member : nat) (der_offset : Z)
    (history_m : gmap string Timeseries) (initial_derivatives : list pyfloat)
    (st : list pyfloat * list pyfloat * list pyfloat) (iv : nat * string)
  : result (list pyfloat * list pyfloat * list pyfloat) :=
  let '(lbx, ubx, initial_derivative_constraints) := st in
  let '(i, variable) := iv in
  match history_m !! variable with
  | None => Ok st
  | Some history_timeseries =>
      if decide (length (ts_times history_timeseries) ≤ 1) then Ok st
      else
        v2 ← index_back (ts_values history_timeseries) 2;
        if isnan v2 then Ok st
        else
          t_last ← index_back (ts_times history_timeseries) 1;
          if decide (t_last = initial_time p)
          then
            v_last ← index_back (ts_values history_timeseries) 1;
            if isnan v_last
            then
              values ← state_vector tr X variable ensemble_member;
              x0 ← mx_index values 0;
              let t0_val := Fin (x0 * variable_nominal p variable)%Qc in
              val ← backward_difference p t0_val history_timeseries;
              sym ← mx_index initial_derivatives i;
              Ok (lbx, ubx, initial_derivative_constraints ++ [fsub sym val])
            else
              let t0_val :=
                interpolate p (initial_time p) (ts_times history_timeseries)
                  (ts_values history_timeseries) NaN NaN
                  (interpolation_method p variable) in
              val ← backward_difference p t0_val history_timeseries;
              dt ← match t_initial_dt tr !! variable with
                   | Some dt => Ok dt
                   | None => Raise (KeyError variable)
                   end;
              let val := fmul val dt in
              let val := fdiv val (variable_nominal p variable) in
              let idx := (der_offset + Z.of_nat i)%Z in
              lbx' ← set_item_z lbx idx val;
              ubx' ← set_item_z ubx idx val;
              Ok (lbx', ubx', initial_derivative_constraints)
          else Raise (AssertionError "")
  end.

Definition pin_initial_derivatives (p : Problem) (tr : Transcription)
    (X : list Qc) (ensemble_member : nat) (initial_derivatives : list pyfloat)
    (lbx ubx : list pyfloat)
  : result (list pyfloat * list pyfloat * list pyfloat) :=
  ensemble_member_size ←
    (if decide (ensemble_size p = 0) then Raise ZeroDivisionError
     else Ok (t_state_size tr / ensemble_size p));
  let der_offset :=
    (Z.of_nat (t_control_size tr)
     + (Z.of_nat ensemble_member + 1) * Z.of_nat ensemble_member_size
     - Z.of_nat (length (derivative_names p)))%Z in
  foldM (pin_initial_derivative p tr X ensemble_member der_offset
           (history p ensemble_member) initial_derivatives)
        (lbx, ubx, []) (enumerate (differentiated_states p)).

(** ** Concrete data for the examples *)

Module Examples.

(** Modelled from the spec: the default interpolation is "linear", with
    the fill values outside the series' range.  The method is ignored. *)
Definition lerp (t1 : Qc) (f1 : pyfloat) (t2 : Qc) (f2 : pyfloat) (t : Qc)
  : pyfloat :=
  match f1, f2 with
  | Fin a, Fin b => Fin (a + (b - a) * (t - t1) / (t2 - t1))%Qc
  | _, _ => NaN
  end.

Fixpoint linear_from (t tp : Qc) (fp : pyfloat) (ts : list Qc)
    (fs : list pyfloat) (f_right : pyfloat) : pyfloat :=
  match ts, fs with
  | tn :: ts', fn :: fs' =>
      if decide (t = tp) then fp
      else if decide (t < tn)%Qc then lerp tp fp tn fn t
      else linear_from t tn fn ts' fs' f_right
  | _, _ => if decide (t = tp) then fp else f_right
  end.

Definition linear_interpolate (t : Qc) (ts : list Qc) (fs : list pyfloat)
    (f_left f_right : pyfloat) (method : nat) : pyfloat :=
  match ts, fs with
  | t1 :: ts', f1 :: fs' =>
      if decide (t < t1)%Qc then f_left
      else linear_from t t1 f1 ts' fs' f_right
  | _, _ => NaN
  end.

Definition grid3 : list Qc := [qz 0; qz 1; qz 2].

(** The text Python writes for a float with an integral value, such as
    [5.0]; a finite value that is not integral is shown as a fraction. *)
Definition float_text (x : pyfloat) : string :=
  match x with
  | Fin q =>
      if decide (Qden q = 1%positive) then pretty (Qnum q) +:+ ".0"
      else pretty (Qnum q) +:+ "/" +:+ pretty (Z.pos (Qden q))
  | PInf => "inf"
  | NInf => "-inf"
  | NaN => "nan"
  end.

(** One differentiated state [x] with [der(x)], one control [u], the grid
    [0, 1, 2], one member; [u] is bounded by [-2, 2]. *)
Definition single_state : Problem :=
  {| ensemble_size := 1;
     differentiated_states := ["x"];
     algebraic_states := [];
     controls := ["u"];
     derivative_names := ["der(x)"];
     path_variables := [];
     extra_variables := [];
     integrated_states := [];
     times := λ _, grid3;
     initial_time := qz 0;
     variable_nominal := λ _, 1%Qc;
     variable_is_discrete := λ _, false;
     interpolation_method := λ _, 0;
     interpolate := linear_interpolate;
     bounds := {["u" := (Some (BScalar (Fin (qz (-2)))),
                         Some (BScalar (Fin (qz 2))))]};
     seed := λ _, ∅;
     history := λ _, {["x" := mkTimeseries [qz 0] [Fin (qz 1)]]};
  |}.

(** The same problem with a vector-valued path variable that carries the
    name of the control. *)
Definition vector_control : Problem :=
  {| ensemble_size := 1;
     differentiated_states := ["x"];
     algebraic_states := [];
     controls := ["u"];
     derivative_names := ["der(x)"];
     path_variables := [("u", 2)];
     extra_variables := [];
     integrated_states := [];
     times := λ _, grid3;
     initial_time := qz 0;
     variable_nominal := λ _, 1%Qc;
     variable_is_discrete := λ _, false;
     interpolation_method := λ _, 0;
     interpolate := linear_interpolate;
     bounds := ∅;
     seed := λ _, ∅;
     history := λ _, ∅;
  |}.

(** [x] is integrated: the residual row [der(x) - u] goes to the
    integrator, the row [y - x] is collocated. *)
Definition integrated_state : Problem :=
  {| ensemble_size := 1;
     differentiated_states := ["x"];
     algebraic_states := ["y"];
     controls := ["u"];
     derivative_names := ["der(x)"];
     path_variables := [];
     extra_variables := [];
     integrated_states := ["x"];
     times := λ _, grid3;
     initial_time := qz 0;
     variable_nominal := λ _, qz 2;
     variable_is_discrete := λ _, false;
     interpolation_method := λ _, 0;
     interpolate := linear_interpolate;
     bounds := ∅;
     seed := λ _, ∅;
     history := λ _, ∅;
  |}.

Definition residual_rows : list MX :=
  [MXBin OpSub (MXSym "der(x)") (MXSym "u");
   MXBin OpSub (MXSym "y") (MXSym "x")].

(** A step with one collocated variable, no constant input, and the
    residual [dx/dt - x] of the equation [dx/dt = x]; the stacked input is
    [x, der(x), t]. *)
Definition decay_residual (parameters stacked : list Qc) : list Qc :=
  match stacked with
  | [x; dx; _] => [(dx - x)%Qc]
  | _ => []
  end.

Definition trapezoidal_step : StepFunctions :=
  {| sf_theta := Q2Qc (1 # 2);
     sf_t0 := qz 0;
     sf_n_integrated := 0;
     sf_n_collocated := 1;
     sf_n_constant_inputs := 0;
     sf_n_path_variables := 0;
     dae_residual_function_collocated := decay_residual;
     integrator_step_function := λ _ _ _ _, [];
     path_objective_function := λ _ _ _, [];
     path_constraints_function := λ _ _ _, [];
     delayed_feedback_function := λ _ _ _, [];
     ca_interpolate := λ _ _ _ _, 0%Qc;
  |}.

(** Two members, a scalar objective each, a scalar path objective. *)
Definition two_member_objective : ObjectiveInputs :=
  {| oi_objective := λ m, Some (qz (Z.of_nat m + 1));
     oi_ensemble_member_probability := λ _, Q2Qc (1 # 2);
     oi_path_objective_size := 1;
     oi_residual_size := 1;
     oi_initial_path_objective := λ _, qz 1;
  |}.

Definition two_member_steps (m : nat) : list step_outputs :=
  [mkStepOutputs [] [qz 0] [qz (Z.of_nat m)] [] [];
   mkStepOutputs [] [qz 0] [qz 3] [] []].

(** What [transcribe] caches for [single_state]: three slots for [u], three
    for [x] and one for the initial derivative. *)
Definition single_state_transcription : Transcription :=
  {| t_sizes := {["x" := 1]};
     t_initial_dt := {["x" := qz 1]};
     t_control_size := 3;
     t_state_size := 4;
     t_indices := [{["u" := Slice 0 3; "x" := Slice 3 6]}];
     t_indices_as_lists := [{["u" := [0; 1; 2]; "x" := [3; 4; 5]]}];
     t_n_x := 7;
     t_controls :=
       mkArrays [false; false; false]
                [Fin (qz (-2)); Fin (qz (-2)); Fin (qz (-2))]
                [Fin (qz 2); Fin (qz 2); Fin (qz 2)]
                [Fin (qz 0); Fin (qz 0); Fin (qz 0)];
  |}.

Definition single_state_inputs : ExtractInputs :=
  {| ei_transcription := single_state_transcription;
     ei_integrators_output := [];
     ei_constant_inputs := [];
  |}.

Definition zero_vector : list Qc := replicate 7 (qz 0).

(** The same problem with a seed for [u], the nominal 2 and no bounds. *)
Definition seeded_control : Problem :=
  {| ensemble_size := 1;
     differentiated_states := ["x"];
     algebraic_states := [];
     controls := ["u"];
     derivative_names := ["der(x)"];
     path_variables := [];
     extra_variables := [];
     integrated_states := [];
     times := λ _, grid3;
     initial_time := qz 0;
     variable_nominal := λ _, qz 2;
     variable_is_discrete := λ _, false;
     interpolation_method := λ _, 0;
     interpolate := linear_interpolate;
     bounds := ∅;
     seed := λ _, {["u" := mkTimeseries grid3
                             [Fin (qz 1); Fin (qz 2); Fin (qz 3)]]};
     history := λ _, ∅;
  |}.

Definition delay_collaborators : DelayCollaborators :=
  {| dc_interpolate := λ ts fs t method,
       linear_interpolate t ts fs NaN NaN method;
     dc_history_times := [qz (-1)];
  |}.

(** [x] fed back with a delay, one duration per collocation time. *)
Definition delayed_x (delay : list pyfloat) : DelayedFeedback :=
  {| df_expression := "x_delayed";
     df_in_canonical := "x";
     df_in_sign := 1;
     df_delay := delay;
     df_history := [Fin (qz 1)];
     df_initial := Fin (qz 1);
     df_discretized := [Fin (qz 0); Fin (qz 0)];
     df_nominal := 1%Qc;
  |}.

Definition finite_delay : list pyfloat :=
  [Fin (qz 1); Fin (qz 1); Fin (qz 1)].

Definition unresolved_delay : list pyfloat :=
  [Fin (qz 1); NaN; Fin (qz 1)].

(** Two members; a differentiated state [x] with a history of two points,
    an algebraic state [y], a control [u], a path variable [w] and an extra
    variable [e] of two components each; every nominal is 2. *)
Definition path_and_extra : Problem :=
  {| ensemble_size := 2;
     differentiated_states := ["x"];
     algebraic_states := ["y"];
     controls := ["u"];
     derivative_names := ["der(x)"];
     path_variables := [("w", 2)];
     extra_variables := [("e", 2)];
     integrated_states := [];
     times := λ _, grid3;
     initial_time := qz 0;
     variable_nominal := λ _, qz 2;
     variable_is_discrete := λ _, false;
     interpolation_method := λ _, 0;
     interpolate := linear_interpolate;
     bounds := ∅;
     seed := λ _, ∅;
     history := λ _, {["x" := mkTimeseries [qz (-1); qz 0]
                                           [Fin (qz 1); Fin (qz 3)]]};
  |}.

(** What [transcribe] caches for [path_and_extra]: three slots for [u],
    then per member three for [x], three for [y], six for [w], two for [e]
    and one for the initial derivative. *)
Definition path_and_extra_transcription : Transcription :=
  {| t_sizes := {["x" := 1; "y" := 1; "w" := 2; "e" := 2]};
     t_initial_dt := {["x" := qz 1]};
     t_control_size := 3;
     t_state_size := 30;
     t_indices :=
       [{["u" := Slice 0 3; "x" := Slice 3 6; "y" := Slice 6 9;
          "w" := Slice 9 15; "e" := Slice 15 17]};
        {["u" := Slice 0 3; "x" := Slice 18 21; "y" := Slice 21 24;
          "w" := Slice 24 30; "e" := Slice 30 32]}];
     t_indices_as_lists :=
       [{["u" := [0; 1; 2]; "x" := [3; 4; 5]; "y" := [6; 7; 8];
          "w" := [9; 10; 11; 12; 13; 14]; "e" := [15; 16]]};
        {["u" := [0; 1; 2]; "x" := [18; 19; 20]; "y" := [21; 22; 23];
          "w" := [24; 25; 26; 27; 28; 29]; "e" := [30; 31]]}];
     t_n_x := 33;
     t_controls :=
       mkArrays [false; false; false] [NInf; NInf; NInf] [PInf; PInf; PInf]
                [Fin (qz 0); Fin (qz 0); Fin (qz 0)];
  |}.

Definition path_and_extra_inputs : ExtractInputs :=
  {| ei_transcription := path_and_extra_transcription;
     ei_integrators_output := [];
     ei_constant_inputs := [];
  |}.

(** The vector [0, 1, ..., n - 1]. *)
Definition ramp (n : nat) : list Qc := (λ i, qz (Z.of_nat i)) <$> seq 0 n.

(** [minus_x] is an alias of [x] with the opposite sign; linear
    interpolation; a constant input [c] and a parameter [k]; the key of the
    symbol cache shows the time as a fraction. *)
Definition plain_accessors : Accessors :=
  {| canonical_signed := λ v,
       if decide (v = "minus_x") then ("x", (-1)%Z) else (v, 1%Z);
     ca_interpolate_at := λ ts values t method,
       linear_interpolate t ts values NaN NaN method;
     integrators := ∅;
     constant_inputs := λ _,
       {["c" := mkTimeseries grid3 [Fin (qz 4); Fin (qz 6); Fin (qz 8)]]};
     parameters := λ _, {["k" := Fin (qz 5)]};
     range_message := λ v _ _ _, "Cannot interpolate for " +:+ v;
     symbol_name := λ v m dt scaled extrapolate,
       v +:+ "[" +:+ pretty m +:+ "," +:+ pretty (Qnum dt) +:+ "/"
         +:+ pretty (Z.pos (Qden dt)) +:+ "]"
         +:+ (if scaled then "S" else "")
         +:+ (if extrapolate then "E" else "");
  |}.

End Examples.

(** * The vocabulary of the statements *)

(** ** The rows of the residual *)

(** A row depends on the derivative symbol of a declared integrated
    state. *)
Definition depends_on_integrated_derivative (p : Problem) (row : MX) : Prop :=
  ∃ k state d,
    differentiated_states p !! k = Some state ∧
    state ∈ integrated_states p ∧
    derivative_names p !! k = Some d ∧
    depends_on row d = true.

(** ** Parameters and objective *)

#[global] Instance parameter_split_eq_dec : EqDecision parameter_split.
Proof. solve_decision. Defined.

(** The objective of one member, evaluated on its own: its objective plus,
    when there is a path objective, the path objective at the initial time
    and at the end of every step. *)
Definition individual_objective (oi : ObjectiveInputs) (ensemble_member : nat)
    (steps : list step_outputs) : Qc :=
  let path_terms :=
    if decide (0 < oi_path_objective_size oi)
    then (oi_initial_path_objective oi ensemble_member
          + sum1 ((λ y, sum1 (y_path_objective y)) <$> steps))%Qc
    else 0%Qc in
  (default 0%Qc (oi_objective oi ensemble_member) + path_terms)%Qc.

(** ** Slots and layouts *)

(** The positions a slot of the index map stands for. *)
Definition covers (s : slot) (i : nat) : Prop :=
  match s with
  | Slice start stop => start ≤ i < stop
  | Offset o => i = o
  end.

(** The slots recorded in [d] tile the range from [lo] to [hi]: every
    position of the range lies in a recorded slot, no position lies in the
    slots of two variables, and no slot reaches outside the range. *)
Record tiles (d : gmap string slot) (lo hi : nat) : Prop := mkTiles {
  tiles_le : lo ≤ hi;
  tiles_cover : ∀ i, lo ≤ i < hi → ∃ v s, d !! v = Some s ∧ covers s i;
  tiles_disjoint : ∀ v1 v2 s1 s2 i,
      d !! v1 = Some s1 → d !! v2 = Some s2 →
      covers s1 i → covers s2 i → v1 = v2;
  tiles_within : ∀ v s i, d !! v = Some s → covers s i → lo ≤ i < hi;
}.

(** The offset of a variable in a run of consecutive slots of widths [w]. *)
Fixpoint offset_in (w : string → nat) (l : list string) (off : nat)
    (v : string) : nat :=
  match l with
  | [] => off
  | a :: l' => if decide (a = v) then off else offset_in w l' (off + w a) v
  end.

Definition total_width (w : string → nat) (l : list string) : nat :=
  foldr (λ v acc, w v + acc) 0 l.

(** The [assert variable_size == 1] of [discretize_states] holds. *)
Definition integrated_are_scalar (p : Problem) (sizes : gmap string nat)
    (l : list string) : Prop :=
  ∀ v, v ∈ l → ∃ s, sizes !! v = Some s ∧ (v ∈ integrated_states p → s = 1).

(** The slots a state or path variable gets, and the slot itself. *)
Definition state_width (p : Problem) (sizes : gmap string nat) (v : string)
  : nat :=
  if decide (v ∈ integrated_states p) then 1
  else length (times p (Some v)) * default 0 (sizes !! v).

Definition state_slot (p : Problem) (sizes : gmap string nat) (v : string)
    (off : nat) : slot :=
  if decide (v ∈ integrated_states p) then Offset off
  else Slice off (off + state_width p sizes v).

Definition extra_width (sizes : gmap string nat) (v : string) : nat :=
  default 0 (sizes !! v).

(** The map of one member: it tiles the block up to the derivative slots,
    and every variable sits at the offset its predecessors leave. *)
Record member_layout (p : Problem) (sizes : gmap string nat)
    (member_size m : nat) (d : gmap string slot) : Prop :=
  mkMemberLayout {
  ml_size :
    member_size = total_width (state_width p sizes) (state_chain p)
                  + total_width (extra_width sizes) (extra_variable_names p)
                  + length (derivative_names p);
  ml_tiles :
    tiles d (m * member_size)
          (m * member_size + (member_size - length (derivative_names p)));
  ml_state : ∀ v, v ∈ state_chain p →
    d !! v
    = Some (state_slot p sizes v
              (offset_in (state_width p sizes) (state_chain p)
                 (m * member_size) v));
  ml_extra : ∀ v, v ∈ extra_variable_names p →
    d !! v
    = Some (Slice (offset_in (extra_width sizes) (extra_variable_names p)
                     (m * member_size
                      + total_width (state_width p sizes) (state_chain p)) v)
                  (offset_in (extra_width sizes) (extra_variable_names p)
                     (m * member_size
                      + total_width (state_width p sizes) (state_chain p)) v
                   + extra_width sizes v));
  ml_other : ∀ v, v ∉ state_chain p → v ∉ extra_variable_names p →
    d !! v = None;
}.

(** The slots [discretize_controls] records: a running offset and a map. *)
Definition control_slots (p : Problem) (l : list string)
    (st : nat * gmap string slot) : nat * gmap string slot :=
  foldl (λ st v,
           let n_times := length (times p (Some v)) in
           (st.1 + n_times, <[v := Slice st.1 (st.1 + n_times)]> st.2))
        st l.

(** The index map of the controls, the same for every member. *)
Definition control_index_map (p : Problem) : gmap string slot :=
  (control_slots p (controls p) (0, ∅)).2.

(** The claim as first stated: the recorded slots tile the whole block of
    every member. *)
Definition state_blocks_partitioned (p : Problem) : Prop :=
  ∀ member_size count indices,
    ensemble_member_size p (variable_sizes p) = Ok member_size →
    discretize_states p (variable_sizes p) = Ok (count, indices) →
    ∀ m d, indices !! m = Some d →
           tiles d (m * member_size) ((m + 1) * member_size).

Definition control_width (p : Problem) (v : string) : nat :=
  length (times p (Some v)).

Definition first_of_slot (s : slot) : nat :=
  match s with
  | Slice start _ => start
  | Offset i => i
  end.

(** All decision variables carry distinct names, and [transcribe] reaches
    the layout. *)
Record reaches_layout (p : Problem) : Prop := mkReachesLayout {
  rl_names : NoDup (state_chain p ++ extra_variable_names p ++ controls p);
  rl_sizes : Forall (λ v, size_get (variable_sizes p) v ≤ 1)
                    (integrated_states p ++ controls p);
  rl_path : ∀ v s, (v, s) ∈ path_variables p → v ∈ integrated_states p → s = 1;
  rl_dt : is_ok (initial_dt p);
  rl_controls : is_ok (discretize_controls p (bounds p));
}.

(** The merged index map of a member, in one piece: controls in front, the
    member's states, path and extra variables behind them. *)
Record merged_layout (p : Problem) (tr : Transcription) (m : nat)
    (mg_member_size : nat) (indices : gmap string slot) : Prop :=
  mkMergedLayout {
  mg_sizes : t_sizes tr = variable_sizes p;
  mg_control_size : t_control_size tr = control_count p;
  mg_state_size : t_state_size tr = ensemble_size p * mg_member_size;
  mg_n_x : t_n_x tr = control_count p + ensemble_size p * mg_member_size;
  mg_initial_dt : initial_dt p = Ok (t_initial_dt tr);
  mg_total :
    mg_member_size
    = total_width (state_width p (variable_sizes p)) (state_chain p)
      + total_width (extra_width (variable_sizes p)) (extra_variable_names p)
      + length (derivative_names p);
  mg_lookup : t_indices tr !! m = Some indices;
  mg_lists :
    t_indices_as_lists tr !! m = Some (slot_as_list (t_n_x tr) <$> indices);
  mg_control : ∀ v, v ∈ controls p →
    indices !! v
    = Some (Slice (offset_in (control_width p) (controls p) 0 v)
                  (offset_in (control_width p) (controls p) 0 v
                   + control_width p v));
  mg_state : ∀ v, v ∈ state_chain p →
    indices !! v
    = Some (shift_slot (control_count p)
              (state_slot p (variable_sizes p) v
                 (offset_in (state_width p (variable_sizes p)) (state_chain p)
                    (m * mg_member_size) v)));
  mg_extra : ∀ v, v ∈ extra_variable_names p →
    indices !! v
    = Some (shift_slot (control_count p)
              (Slice (offset_in (extra_width (variable_sizes p))
                        (extra_variable_names p)
                        (m * mg_member_size
                         + total_width (state_width p (variable_sizes p))
                             (state_chain p)) v)
                     (offset_in (extra_width (variable_sizes p))
                        (extra_variable_names p)
                        (m * mg_member_size
                         + total_width (state_width p (variable_sizes p))
                             (state_chain p)) v
                      + extra_width (variable_sizes p) v)));
  mg_disjoint : ∀ v1 v2 s1 s2 i,
    indices !! v1 = Some s1 → indices !! v2 = Some s2 →
    covers s1 i → covers s2 i → v1 = v2;
  mg_within : ∀ v s i, indices !! v = Some s → covers s i → i < t_n_x tr;
}.

(** ** History values *)

(** The de-scaled history value of a variable at the initial time, when the
    member has a history for it and the value is a number. *)
Definition history_value (p : Problem) (history_m : gmap string Timeseries)
    (variable : string) : option pyfloat :=
  match history_m !! variable with
  | None => None
  | Some h =>
      let val :=
        fdiv (interpolate p (initial_time p) (ts_times h) (ts_values h) NaN NaN
                (interpolation_method p variable))
             (variable_nominal p variable) in
      if isnan val then None else Some val
  end.

(** The value lies outside the bounds that were set for the slot. *)
Definition outside_bounds (val : pyfloat) (lbx ubx : list pyfloat) (idx : nat)
  : bool :=
  match lbx !! idx, ubx !! idx with
  | Some l, Some u => flt val l || fgt val u
  | _, _ => false
  end.

(** The warnings of the loop over the variables [l], in its order: one
    for every variable whose history value lies outside the bounds that
    [lbx] and [ubx] hold for its first slot, with the value in its text. *)
Definition history_warnings (format_value : pyfloat → string) (p : Problem)
    (history_m : gmap string Timeseries) (first : string → nat)
    (lbx ubx : list pyfloat) (l : list string) : list event :=
  flat_map (λ v,
              match history_value p history_m v with
              | Some val =>
                  if outside_bounds val lbx ubx (first v)
                  then [LogWarning
                          (outside_bounds_message (format_value val) v)]
                  else []
              | None => []
              end) l.

(** The first position of a variable in the index lists of a member. *)
Definition first_position (inds : gmap string (list nat)) (v : string)
  : nat :=
  match inds !! v with
  | Some (idx :: _) => idx
  | _ => 0
  end.

(** What the loop needs from the index map: a first slot inside the arrays
    for every variable it pins, and different slots for different
    variables. *)
Definition first_slots (p : Problem) (inds : gmap string (list nat))
    (history_m : gmap string Timeseries) (l : list string) (n : nat)
    (first : string → nat) : Prop :=
  (∀ v val, v ∈ l → history_value p history_m v = Some val →
            first v < n ∧ ∃ rest, inds !! v = Some (first v :: rest)) ∧
  (∀ v1 v2 val1 val2,
      v1 ∈ l → v2 ∈ l →
      history_value p history_m v1 = Some val1 →
      history_value p history_m v2 = Some val2 →
      first v1 = first v2 → v1 = v2).

(** ** Delayed feedback *)

Definition delays_finite (df : DelayedFeedback) : Prop :=
  forallb isfinite (df_delay df) = true.

#[global] Instance delays_finite_dec (df : DelayedFeedback) :
  Decision (delays_finite df).
Proof. unfold delays_finite. apply _. Defined.

(** What an expression needs besides finite delays for its pass of the loop
    to complete: the state it refers to is a decision variable whose vector
    fits the grid, there is one delay per collocation time, and no finite
    delay is negative. *)
Record resolvable (p : Problem) (tr : Transcription) (X : list Qc)
    (ensemble_member : nat) (df : DelayedFeedback) : Prop :=
  mkResolvable {
  rs_state : ∃ values,
    state_vector tr X (df_in_canonical df) ensemble_member = Ok values ∧
    (length values = length (times p (Some (df_in_canonical df))) ∨
     length values = 1);
  rs_delays : length (df_delay df) = length (times p None);
  rs_nonnegative : ∀ q, Fin q ∈ df_delay df → (0 ≤ q)%Qc;
}.

Definition is_warning (ev : event) : Prop := ∃ msg, ev = LogWarning msg.

(** The constraints after [k] more blocks of [n] rows each. *)
Definition extended_by (n : nat) (c c' : constraints) (k : nat) : Prop :=
  ∃ blocks,
    c' = mkConstraints (c_g c ++ blocks)
           (c_lbg c ++ replicate (n * k) (Fin 0))
           (c_ubg c ++ replicate (n * k) (Fin 0)) ∧
    length blocks = k ∧ Forall (λ b : list pyfloat, length b = n) blocks.

Definition feedback_count (feedback : nat → list DelayedFeedback)
    (members : list nat) : nat :=
  sum_list ((λ m, length (feedback m)) <$> members).

(** ** Decoding *)

(** The value a variable decodes to when it is read through its slot. *)
Definition decoded (p : Problem) (X : list Qc) (v : string) (s : slot)
  : option result_value :=
  match read_slot X s with
  | inr values => Some (RVector (scale (variable_nominal p v) values))
  | inl _ => None
  end.

(** The variables whose decoded series is their slot of the vector: the
    controls, the collocated states, and the scalar path and extra
    variables. *)
Definition read_through_slot (p : Problem) (v : string) : Prop :=
  (v ∈ differentiated_states p ++ algebraic_states p ∧
   (v ∉ integrated_states p)) ∨
  (v, 1) ∈ path_variables p ∨
  (v, 1) ∈ extra_variables p.

(** What [extract_states] needs to run through: path variables live on the
    shared grid and are not integrated, integrated states are states, extra
    variables are not empty, and the keys of the other results (constant
    inputs, initial derivatives) are not names of decision variables. *)
Record decodable (p : Problem) (inp : ExtractInputs) : Prop := mkDecodable {
  dc_path : ∀ v, v ∈ path_variable_names p →
    (v ∉ integrated_states p) ∧
    length (times p (Some v)) = length (times p None);
  dc_integrated :
    Forall (λ v, v ∈ differentiated_states p ++ algebraic_states p)
           (integrated_states p);
  dc_extra : ∀ v s, (v, s) ∈ extra_variables p → 1 ≤ s;
  dc_keys : ∀ v, v ∈ state_chain p ++ extra_variable_names p →
    (v ∉ (ei_constant_inputs inp).*1) ∧
    ∀ d, d ∈ derivative_names p → v ≠ "initial_" +:+ d;
}.

Definition slot_width (s : slot) : nat :=
  match s with
  | Slice start stop => stop - start
  | Offset _ => 1
  end.

(** What extraction returns for a variable from the vector [X']: the
    series [expected], from [extract_controls] for a control and from
    [extract_states] for a variable read through its slot. *)
Definition extracted (p : Problem) (inp : ExtractInputs) (m : nat)
    (X' : list Qc) (v : string) (expected : list Qc) : Prop :=
  (v ∈ controls p →
   extract_controls p X' !! v = Some (RVector expected)) ∧
  (read_through_slot p v →
   ∃ results', extract_states p inp X' m = Ok results' ∧
               results' !! v = Some (RVector expected)).

(** The claim as first stated, for the states: whatever the state, the
    decoded series is its slot of the vector times its nominal. *)
Definition every_state_read_through_slot (p : Problem)
    (integrators_output : list Qc) (constant_inputs : list (string * list Qc))
    (X : list Qc) (m : nat) : Prop :=
  ∀ tr log indices results,
    run (transcribe_layout p) = (log, Ok tr) →
    t_indices tr !! m = Some indices →
    length X = t_n_x tr →
    extract_states p (mkExtractInputs tr integrators_output constant_inputs)
                   X m = Ok results →
    ∀ v, v ∈ differentiated_states p ++ algebraic_states p →
         ∃ s values, indices !! v = Some s ∧ read_slot X s = Ok values ∧
                     results !! v
                     = Some (RVector (scale (variable_nominal p v) values)).

(** ** The arrays of the controls *)

(** The values a slice assignment of width [k] stores. *)
Definition assigned {A} (k : nat) (r : rhs A) : list A :=
  match r with
  | Scalar v => replicate k v
  | Array vs =>
      if decide (length vs = k) then vs
      else match vs with
           | [v] => replicate k v
           | _ => []
           end
  end.

(** What [discretize_controls] assigns to the slices of a control, if
    anything. *)
Definition lower_assignment (p : Problem)
    (given_bounds : gmap string (option bound_value * option bound_value))
    (v : string) : option (rhs pyfloat) :=
  match given_bounds !! v with
  | Some (Some b, _) => Some (control_bound_rhs p v b NInf)
  | _ => None
  end.

Definition upper_assignment (p : Problem)
    (given_bounds : gmap string (option bound_value * option bound_value))
    (v : string) : option (rhs pyfloat) :=
  match given_bounds !! v with
  | Some (_, Some b) => Some (control_bound_rhs p v b PInf)
  | _ => None
  end.

Definition seed_assignment (p : Problem)
    (given_bounds : gmap string (option bound_value * option bound_value))
    (seed_0 : gmap string Timeseries) (v : string) : option (rhs pyfloat) :=
  match given_bounds !! v, seed_0 !! v with
  | Some _, Some s => Some (seed_rhs p v (times p (Some v)) s)
  | _, _ => None
  end.

(** An array after an optional slice assignment. *)
Definition after_assignment {A} (a : list A) (start stop : nat)
    (w : option (rhs A)) : result (list A) :=
  match w with
  | Some r => set_slice a start stop r
  | None => Ok a
  end.

(** A run of optional slice assignments, one per variable, at consecutive
    offsets. *)
Fixpoint assign_all {A} (width : string → nat) (w : string → option (rhs A))
    (off : nat) (a : list A) (l : list string) : result (list A) :=
  match l with
  | [] => Ok a
  | v :: l' =>
      a' ← after_assignment a off (off + width v) (w v);
      assign_all width w (off + width v) a' l'
  end.

(** ** Vector-valued path and extra variables *)

(** What [extract_states] stores for a path variable of size [s] cut at
    offset [o]. *)
Definition path_value (p : Problem) (X : list Qc) (v : string) (s o : nat)
  : result_value :=
  let n := length (times p None) in
  if decide (1 < s)
  then RMatrix (scale (variable_nominal p v) <$>
                transpose n (chunks s n (slice_of X o (o + n * s))))
  else RVector (scale (variable_nominal p v) (slice_of X o (o + n))).

Definition extra_value (p : Problem) (X : list Qc) (v : string) (s o : nat)
  : result_value :=
  if decide (1 < s)
  then RMatrix [scale (variable_nominal p v) (slice_of X o (o + s))]
  else RVector (scale (variable_nominal p v) (slice_of X o (o + 1))).

(** ** The initial derivative from the history *)

(** The value the loop pins for a state with two points of history. *)
Definition pinned_derivative (p : Problem) (h : Timeseries)
    (variable : string) (v2 : pyfloat) (t2 dt : Qc) : pyfloat :=
  fdiv (fmul (fdiv (fsub (interpolate p (initial_time p) (ts_times h)
                            (ts_values h) NaN NaN
                            (interpolation_method p variable)) v2)
                   (initial_time p - t2)%Qc) dt)
       (variable_nominal p variable).

(** * Properties *)

(** ** The monads *)

Lemma bind_Ok {A B} (f : A → result B) (a : A) : (Ok a ≫= f) = f a.
Proof. reflexivity. Qed.

Lemma bind_Raise {A B} (f : A → result B) (e : exn) : (Raise e ≫= f) = Raise e.
Proof. reflexivity. Qed.

Lemma bind_inv_Ok {A B} (m : result A) (f : A → result B) (b : B) :
  (m ≫= f) = Ok b → ∃ a, m = Ok a ∧ f a = Ok b.
Proof. destruct m as [e | a]; [discriminate | eauto]. Qed.

Lemma foldM_app {A B} (f : A → B → result A) (a : A) (l1 l2 : list B) :
  foldM f a (l1 ++ l2) = (foldM f a l1 ≫= λ a', foldM f a' l2).
Proof.
  revert a. induction l1 as [| x l1 IH]; intros a; simpl; [reflexivity |].
  destruct (f a x) as [e | a']; simpl; [reflexivity | apply IH].
Qed.

(** A loop that cannot raise is a plain fold. *)
Lemma foldM_pure {A B} (f : A → B → result A) (g : A → B → A) (a : A)
    (l : list B) :
  (∀ a x, f a x = Ok (g a x)) → foldM f a l = Ok (foldl g a l).
Proof.
  intros Hfg. revert a. induction l as [| x l IH]; intros a; simpl;
    [reflexivity |].
  rewrite Hfg. simpl. apply IH.
Qed.

Lemma mapM_length {A B} (f : A → result B) (l : list A) (l' : list B) :
  mapM f l = Ok l' → length l' = length l.
Proof.
  revert l'. induction l as [| x l IH]; intros l' H; simpl in H.
  - injection H as <-. reflexivity.
  - destruct (f x) as [e | y]; [discriminate |]. simpl in H.
    destruct (mapM f l) as [e | ys]; [discriminate |]. simpl in H.
    injection H as <-. simpl. f_equal. apply IH. reflexivity.
Qed.

Lemma mapM_lookup {A B} (f : A → result B) (l : list A) (l' : list B)
    (i : nat) (x : A) :
  mapM f l = Ok l' → l !! i = Some x → ∃ y, f x = Ok y ∧ l' !! i = Some y.
Proof.
  revert l' i. induction l as [| a l IH]; intros l' i H Hi; [discriminate |].
  simpl in H.
  destruct (f a) as [e | y] eqn:Hfa; [discriminate |]. simpl in H.
  destruct (mapM f l) as [e | ys] eqn:Hm; [discriminate |]. simpl in H.
  injection H as <-.
  destruct i as [| i]; simpl in Hi.
  - injection Hi as <-. eauto.
  - apply (IH ys i eq_refl Hi).
Qed.

Lemma mapM_Ok {A B} (f : A → result B) (g : A → B) (l : list A) :
  (∀ x, x ∈ l → f x = Ok (g x)) → mapM f l = Ok (g <$> l).
Proof.
  induction l as [| a l IH]; intros H; simpl; [reflexivity |].
  rewrite H by left. simpl. rewrite IH; [reflexivity |].
  intros x Hx. apply H. right. exact Hx.
Qed.

(** ** The DAE splitter *)

Section splitter.
Context (p : Problem).

Lemma contains_integrated_derivative_spec (output : MX) (ders : list string) :
  contains_integrated_derivative output ders = true
  ↔ ∃ d, d ∈ ders ∧ depends_on output d = true.
Proof.
  induction ders as [| d ders IH]; simpl.
  - split; [discriminate | intros (d & Hd & _); inversion Hd].
  - destruct (depends_on output d) eqn:Hdep.
    + split; [intros _; exists d; split; [left | exact Hdep] | reflexivity].
    + rewrite IH. split.
      * intros (d' & Hd' & Hdep'). exists d'. split; [right |]; assumption.
      * intros (d' & Hd' & Hdep'). exists d'.
        apply elem_of_cons in Hd' as [-> | Hd']; [congruence |].
        split; assumption.
Qed.

Lemma split_dae_filter (ders : list string) (rows acc_i acc_c : list MX) :
  foldl (split_row ders) (acc_i, acc_c) rows
  = (acc_i ++ filter (λ r, contains_integrated_derivative r ders = true) rows,
     acc_c ++ filter (λ r, contains_integrated_derivative r ders ≠ true) rows).
Proof.
  revert acc_i acc_c.
  induction rows as [| r rows IH]; intros acc_i acc_c; simpl.
  - rewrite !app_nil_r. reflexivity.
  - rewrite !filter_cons.
    destruct (contains_integrated_derivative r ders) eqn:Hc; simpl.
    + rewrite IH.
      destruct (decide (true = true)) as [_ | []]; [| reflexivity].
      destruct (decide (true ≠ true)) as [[] | _]; [reflexivity |].
      rewrite <- app_assoc. reflexivity.
    + rewrite IH.
      destruct (decide (false = true)) as [? | _]; [discriminate |].
      destruct (decide (false ≠ true)) as [_ | []]; [| discriminate].
      rewrite <- app_assoc. reflexivity.
Qed.

(** The derivative symbols collected by lines 393-402. *)
Lemma split_derivatives_app (l : list string) (start : nat)
    (acc_i acc_c : list string) :
  start + length l ≤ length (derivative_names p) →
  ∃ ders_i ders_c,
    foldM (split_derivative p) (acc_i, acc_c) (zip (seq start (length l)) l)
    = Ok (acc_i ++ ders_i, acc_c ++ ders_c) ∧
    ∀ d, d ∈ ders_i ↔
         ∃ k state, l !! k = Some state ∧ state ∈ integrated_states p ∧
                    derivative_names p !! (start + k) = Some d.
Proof.
  revert start acc_i acc_c.
  induction l as [| v l IH]; intros start acc_i acc_c Hlen; simpl in *.
  - exists [], []. rewrite !app_nil_r. split; [reflexivity |].
    intros d. split; [intros H; inversion H |].
    intros (k & state & Hk & _); discriminate.
  - destruct (lookup_lt_is_Some_2 (derivative_names p) start) as [d0 Hd0];
      [lia |].
    unfold index. rewrite Hd0. simpl.
    destruct (IH (S start)
                (if decide (v ∈ integrated_states p) then acc_i ++ [d0]
                 else acc_i)
                (if decide (v ∈ integrated_states p) then acc_c
                 else acc_c ++ [d0]))
      as (ders_i & ders_c & Hfold & Hspec); [lia |].
    destruct (decide (v ∈ integrated_states p)) as [Hin | Hnin]; simpl.
    + exists (d0 :: ders_i), ders_c. rewrite Hfold.
      split; [rewrite <- app_assoc; reflexivity |].
      intros d. rewrite elem_of_cons, Hspec. split.
      * intros [-> | (k & state & Hk & Hs & Hd)].
        -- exists 0, v. rewrite Nat.add_0_r. auto.
        -- exists (S k), state. rewrite <- Nat.add_succ_comm. auto.
      * intros (k & state & Hk & Hs & Hd). destruct k as [| k].
        -- left. rewrite Nat.add_0_r in Hd. congruence.
        -- right. exists k, state. rewrite Nat.add_succ_comm. auto.
    + exists ders_i, (d0 :: ders_c). rewrite Hfold.
      split; [rewrite <- app_assoc; reflexivity |].
      intros d. rewrite Hspec. split.
      * intros (k & state & Hk & Hs & Hd).
        exists (S k), state. rewrite <- Nat.add_succ_comm. auto.
      * intros (k & state & Hk & Hs & Hd). destruct k as [| k].
        -- simpl in Hk. injection Hk as <-. contradiction.
        -- exists k, state. rewrite Nat.add_succ_comm. auto.
Qed.

(** C3.  The splitter sends a row of the residual to the integrated subset
    exactly when the row depends on the derivative symbol of a declared
    integrated state, and to the collocated subset otherwise; both subsets
    are the residual filtered in order, so every row lands in exactly one
    of them and keeps its place among its neighbours. *)
Theorem dae_splitter_partitions (residual : list MX) :
  length (differentiated_states p) ≤ length (derivative_names p) →
  ∃ (integrated collocated : list MX)
    (in_integrated : ∀ row, Decision (depends_on_integrated_derivative p row)),
    dae_splitter p residual = Ok (integrated, collocated) ∧
    integrated = filter (depends_on_integrated_derivative p) residual ∧
    collocated = filter (λ row, ¬ depends_on_integrated_derivative p row) residual ∧
    (∀ row, row ∈ residual →
            (row ∈ integrated ∧ (row ∉ collocated) ∧
             depends_on_integrated_derivative p row)
            ∨ (row ∈ collocated ∧ (row ∉ integrated) ∧
               ¬ depends_on_integrated_derivative p row)) ∧
    integrated `sublist_of` residual ∧
    collocated `sublist_of` residual ∧
    length integrated + length collocated = length residual.
Proof.
  intros Hlen.
  destruct (split_derivatives_app (differentiated_states p) 0 [] [])
    as (ders_i & ders_c & Hfold & Hspec); [simpl; lia |].
  assert (Hiff : ∀ row,
             contains_integrated_derivative row ders_i = true
             ↔ depends_on_integrated_derivative p row).
  { intros row. rewrite contains_integrated_derivative_spec. split.
    - intros (d & Hd & Hdep). apply Hspec in Hd as (k & state & ? & ? & ?).
      exists k, state, d. auto.
    - intros (k & state & d & ? & ? & ? & ?). exists d. split; [| assumption].
      apply Hspec. exists k, state. auto. }
  assert (Hdec : ∀ row, Decision (depends_on_integrated_derivative p row)).
  { intros row.
    destruct (contains_integrated_derivative row ders_i) eqn:Hc.
    - left. apply Hiff. exact Hc.
    - right. intros H. apply Hiff in H. congruence. }
  exists (filter (depends_on_integrated_derivative p) residual),
         (filter (λ row, ¬ depends_on_integrated_derivative p row) residual),
         Hdec.
  split; [| split; [reflexivity | split; [reflexivity |]]].
  - unfold dae_splitter, split_derivatives, enumerate. rewrite Hfold. simpl.
    unfold split_dae. rewrite split_dae_filter. simpl. f_equal.
    f_equal.
    + apply list_filter_iff. intros row. apply Hiff.
    + apply list_filter_iff. intros row. rewrite <- Hiff. reflexivity.
  - split; [| split; [apply sublist_filter | split; [apply sublist_filter |]]].
    + intros row Hrow.
      destruct (Hdec row) as [Hd | Hd]; [left | right];
        rewrite !list_elem_of_filter; tauto.
    + induction residual as [| r rows IH]; [reflexivity |].
      rewrite !filter_cons. destruct (Hdec r) as [Hd | Hd].
      * destruct (decide (¬ depends_on_integrated_derivative p r)); [tauto |].
        simpl. lia.
      * destruct (decide (¬ depends_on_integrated_derivative p r)); [| tauto].
        simpl. lia.
Qed.

End splitter.

(** ** Constant and ensemble parameters *)

(** What line 528 tests: a single member, or the truth value of "all values
    are nonzero", read as 1 or 0, equal to the first value. *)
Lemma same_everywhere_spec (values : list Qc) (v0 : Qc) :
  values !! 0 = Some v0 →
  same_everywhere values
  = Ok (bool_decide (length values = 1 ∨
                     (v0 = 1%Qc ∧ Forall (λ v, v ≠ 0%Qc) values) ∨
                     (v0 = 0%Qc))).
Proof.
  intros Hv0. unfold same_everywhere.
  destruct (decide (length values = 1)) as [H1 | H1].
  - rewrite bool_decide_eq_true_2 by (left; exact H1). reflexivity.
  - unfold index. rewrite Hv0. simpl. f_equal.
    apply bool_decide_ext.
    assert (Hall : np_all values = true ↔ Forall (λ v, v ≠ 0%Qc) values).
    { unfold np_all. rewrite forallb_forall, Forall_forall.
      split; intros H v Hv.
      - apply list_elem_of_In in Hv. specialize (H v Hv).
        apply negb_true_iff, bool_decide_eq_false in H. exact H.
      - apply list_elem_of_In in Hv. specialize (H v Hv).
        apply negb_true_iff, bool_decide_eq_false. exact H. }
    destruct (np_all values) eqn:Hnp; simpl.
    + split.
      * intros <-. right. left. split; [reflexivity | apply Hall; reflexivity].
      * intros [? | [[-> _] | ->]]; [contradiction | reflexivity |].
        exfalso.
        assert (Hne : Forall (λ v, v ≠ 0%Qc) values) by (apply Hall; reflexivity).
        rewrite Forall_forall in Hne.
        apply (Hne 0%Qc); [| reflexivity].
        apply list_elem_of_lookup. exists 0. exact Hv0.
    + split.
      * intros <-. right. right. reflexivity.
      * intros [? | [[_ Hf] | ->]]; [contradiction | | reflexivity].
        apply Hall in Hf. discriminate.
Qed.

(** C4, on the code.  With two members whose values for a parameter differ
    (1 and 2), line 528 takes the parameter for a constant and keeps the
    value of member 0 only; with two members that agree on the value 2, the
    parameter is kept as an ensemble parameter. *)
Theorem classify_parameters_misjudges :
  classify_parameters [[qz 1]; [qz 2]] [] ["a"]
  = Ok (mkParameterSplit ["a"] [qz 1] [] [[]; []])
  ∧ classify_parameters [[qz 2]; [qz 2]] [] ["a"]
    = Ok (mkParameterSplit [] [] ["a"] [[qz 2]; [qz 2]]).
Proof.
  split; apply (bool_decide_unpack _); vm_compute; reflexivity.
Qed.

(** Inlining replaces every mention of a constant parameter. *)
Lemma assoc_lookup_zip_None {A} (name : string) (ks : list string)
    (vs : list A) :
  name ∉ ks → assoc_lookup name (zip ks vs) = None.
Proof.
  revert vs. induction ks as [| k ks IH]; intros vs Hn; [reflexivity |].
  destruct vs as [| v vs]; [reflexivity |]. simpl.
  apply not_elem_of_cons in Hn as [Hne Hn].
  destruct (decide (k = name)); [congruence | apply IH; exact Hn].
Qed.

Lemma eval_substitute (un : string → Qc → Qc) (env : string → Qc) (e : MX)
    (bindings : list (string * MX)) :
  eval un env (substitute e bindings)
  = eval un (λ name, match assoc_lookup name bindings with
                     | Some v => eval un env v
                     | None => env name
                     end) e.
Proof.
  induction e as [name | c | f a IH | op a IHa b IHb]; simpl.
  - destruct (assoc_lookup name bindings); reflexivity.
  - reflexivity.
  - rewrite IH. reflexivity.
  - rewrite IHa, IHb. reflexivity.
Qed.

(** ** The objective *)

Lemma sum1_app (a b : list Qc) : sum1 (a ++ b) = (sum1 a + sum1 b)%Qc.
Proof.
  induction a as [| x a IH]; simpl.
  - rewrite Qcplus_0_l. reflexivity.
  - rewrite IH. apply Qcplus_assoc.
Qed.

Lemma sum1_concat (l : list (list Qc)) : sum1 (concat l) = sum1 (sum1 <$> l).
Proof.
  induction l as [| x l IH]; simpl; [reflexivity |].
  rewrite sum1_app, IH. reflexivity.
Qed.

Lemma foldl_snoc_map {A B} (g : A → B) (acc : list B) (l : list A) :
  foldl (λ f x, f ++ [g x]) acc l = acc ++ (g <$> l).
Proof.
  revert acc. induction l as [| x l IH]; intros acc; simpl.
  - rewrite app_nil_r. reflexivity.
  - rewrite IH, <- app_assoc. reflexivity.
Qed.

Lemma slice_of_app_exact {A} (a b c : list A) :
  slice_of (a ++ b ++ c) (length a) (length a + length b) = b.
Proof.
  unfold slice_of. rewrite drop_app_length.
  replace (length a + length b - length a) with (length b) by lia.
  apply take_app_length.
Qed.

(** C5.  The objective of the assembled problem is the sum, over the
    members, of the member's probability times the member's own objective,
    which includes the path objective at the initial time and accumulated
    over the steps. *)
Theorem nlp_objective_is_weighted_sum (oi : ObjectiveInputs)
    (steps : nat → list step_outputs) (n_members : nat) :
  (∀ m y, m < n_members → y ∈ steps m →
          length (y_collocation y) = oi_residual_size oi ∧
          length (y_path_objective y) = oi_path_objective_size oi) →
  nlp_objective oi (λ m, stacked <$> steps m) n_members
  = sum1 ((λ m, oi_ensemble_member_probability oi m
                * individual_objective oi m (steps m))%Qc
          <$> seq 0 n_members).
Proof.
  intros Hshape. unfold nlp_objective.
  rewrite foldl_snoc_map. simpl. f_equal.
  apply list_fmap_ext. intros i m Hm.
  apply lookup_seq in Hm as [-> Hlt]. simpl.
  unfold member_objective, individual_objective. f_equal.
  destruct (decide (0 < oi_path_objective_size oi)); [| ring].
  do 2 f_equal.
  unfold discretized_path_objective.
  rewrite sum1_concat, <- !list_fmap_compose. f_equal.
  apply list_fmap_ext. intros j y Hy. simpl. f_equal.
  destruct (Hshape i y Hlt) as [Hc Hp];
    [apply list_elem_of_lookup; eauto |].
  unfold stacked. rewrite <- Hc, <- Hp.
  apply slice_of_app_exact.
Qed.

(** ** The theta method *)

Section theta.
Context (sf : StepFunctions).

Lemma unpack_accumulated_U_Ok (accumulated_U : list Qc) :
  2 * (sf_n_collocated sf + sf_n_constant_inputs sf) + 2 ≤ length accumulated_U →
  ∃ u, unpack_accumulated_U sf accumulated_U = Ok u ∧
       collocated_states_0 u = slice_of accumulated_U 0 (sf_n_collocated sf) ∧
       collocated_states_1 u
       = slice_of accumulated_U (sf_n_collocated sf) (2 * sf_n_collocated sf).
Proof.
  intros Hlen. unfold unpack_accumulated_U, index.
  destruct (lookup_lt_is_Some_2 accumulated_U
              (2 * (sf_n_collocated sf + sf_n_constant_inputs sf) + 0))
    as [t_0 ->]; [lia |].
  destruct (lookup_lt_is_Some_2 accumulated_U
              (2 * (sf_n_collocated sf + sf_n_constant_inputs sf) + 1))
    as [t_1 ->]; [lia |].
  simpl. eexists. split; [reflexivity |]. split; reflexivity.
Qed.

Lemma blend_lookup (theta : Qc) (r0 r1 : list Qc) (k : nat) (a b : Qc) :
  r0 !! k = Some a → r1 !! k = Some b →
  blend theta r0 r1 !! k = Some ((1 - theta) * a + theta * b)%Qc.
Proof.
  intros Ha Hb. unfold blend. rewrite lookup_zip_with, Ha. simpl.
  rewrite Hb. reflexivity.
Qed.


End theta.

(** ** The cache of variable sizes *)

Lemma set_sizes_not_in (m : gmap string nat) (l : list (string * nat))
    (v : string) :
  v ∉ l.*1 → set_sizes m l !! v = m !! v.
Proof.
  revert m. induction l as [| [k s] l IH]; intros m Hv; [reflexivity |].
  simpl in Hv. apply not_elem_of_cons in Hv as [Hne Hv].
  unfold set_sizes in *. simpl. rewrite IH by exact Hv.
  apply lookup_insert_ne. congruence.
Qed.

Lemma set_sizes_in (m : gmap string nat) (l : list (string * nat))
    (v : string) (s : nat) :
  NoDup l.*1 → (v, s) ∈ l → set_sizes m l !! v = Some s.
Proof.
  revert m. induction l as [| [k s'] l IH]; intros m Hnd Hin;
    [inversion Hin |].
  simpl in Hnd. apply NoDup_cons in Hnd as [Hk Hnd].
  apply elem_of_cons in Hin as [Heq | Hin].
  - injection Heq as <- <-. unfold set_sizes. simpl.
    fold (set_sizes (<[v := s]> m) l).
    rewrite set_sizes_not_in by exact Hk. apply lookup_insert_eq.
  - unfold set_sizes. simpl. apply IH; assumption.
Qed.

Lemma set_sizes_is_Some (m : gmap string nat) (l : list (string * nat))
    (v : string) :
  v ∈ l.*1 → is_Some (set_sizes m l !! v).
Proof.
  revert m. induction l as [| [k s] l IH]; intros m Hin; [inversion Hin |].
  simpl in Hin. unfold set_sizes. simpl. fold (set_sizes (<[k := s]> m) l).
  destruct (decide (v ∈ l.*1)) as [Hl | Hl]; [apply IH; exact Hl |].
  rewrite set_sizes_not_in by exact Hl.
  apply elem_of_cons in Hin as [-> | ?]; [| contradiction].
  rewrite lookup_insert_eq. eauto.
Qed.

(** A state that names neither a path nor an extra variable has size 1. *)
Lemma variable_sizes_state (p : Problem) (v : string) :
  v ∈ differentiated_states p ++ algebraic_states p →
  v ∉ path_variable_names p → v ∉ extra_variable_names p →
  variable_sizes p !! v = Some 1.
Proof.
  intros Hin Hp He. unfold variable_sizes.
  rewrite !set_sizes_not_in by assumption.
  induction (differentiated_states p ++ algebraic_states p) as [| a l IH]
    using rev_ind; [inversion Hin |].
  rewrite fmap_app. unfold set_sizes. rewrite foldl_app. simpl.
  destruct (decide (a = v)) as [-> | Hne].
  - apply lookup_insert_eq.
  - rewrite lookup_insert_ne by exact Hne. apply IH.
    apply elem_of_app in Hin as [? | Hin]; [assumption |].
    apply list_elem_of_singleton in Hin. congruence.
Qed.

(** Outside the states, the path and the extra variables nothing is cached:
    the check of a plain control reads the default, 1. *)
Lemma variable_sizes_other (p : Problem) (v : string) :
  v ∉ differentiated_states p ++ algebraic_states p →
  v ∉ path_variable_names p → v ∉ extra_variable_names p →
  size_get (variable_sizes p) v = 1.
Proof.
  intros Hs Hp He. unfold size_get, variable_sizes.
  rewrite !set_sizes_not_in; [reflexivity | | assumption | assumption].
  rewrite <- list_fmap_compose. simpl.
  rewrite list_fmap_id. exact Hs.
Qed.

(** ** Vector symbols are refused before the layout *)

Lemma check_vector_symbols_Ok (sizes : gmap string nat) (kind : string)
    (variables : list string) :
  Forall (λ v, size_get sizes v ≤ 1) variables →
  check_vector_symbols sizes kind variables = Ok tt.
Proof.
  induction 1 as [| v l Hv _ IH]; simpl; [reflexivity |].
  destruct (decide (1 < size_get sizes v)); [lia | exact IH].
Qed.

Lemma check_vector_symbols_raises (sizes : gmap string nat) (kind : string)
    (variables : list string) :
  Exists (λ v, 1 < size_get sizes v) variables →
  ∃ v, v ∈ variables ∧ 1 < size_get sizes v ∧
       check_vector_symbols sizes kind variables
       = Raise (NotImplementedError (vector_symbol_message kind v)).
Proof.
  induction variables as [| a l IH]; intros Hex; [inversion Hex |].
  simpl. destruct (decide (1 < size_get sizes a)) as [Ha | Ha].
  - exists a. split; [left | split; [exact Ha | reflexivity]].
  - apply Exists_cons in Hex as [? | Hex]; [contradiction |].
    destruct (IH Hex) as (v & Hv & Hs & Hc).
    exists v. split; [right; exact Hv | split; assumption].
Qed.


(** ** The layout of the state block *)

Lemma tiles_empty (lo : nat) : tiles ∅ lo lo.
Proof.
  split; [lia | intros i Hi; lia | |];
    intros *; rewrite lookup_empty; discriminate.
Qed.

Lemma tiles_insert (d : gmap string slot) (lo hi w : nat) (v : string)
    (s : slot) :
  tiles d lo hi → d !! v = None →
  (∀ i, covers s i ↔ hi ≤ i < hi + w) →
  tiles (<[v := s]> d) lo (hi + w).
Proof.
  intros [Hle Hcov Hdis Hin] Hfresh Hs. split.
  - lia.
  - intros i Hi. destruct (decide (i < hi)) as [Hlt | Hge].
    + destruct (Hcov i) as (v' & s' & Hv' & Hc); [lia |].
      exists v', s'. split; [| exact Hc].
      rewrite lookup_insert_ne; [exact Hv' | congruence].
    + exists v, s. split; [apply lookup_insert_eq | apply Hs; lia].
  - intros v1 v2 s1 s2 i H1 H2 Hc1 Hc2.
    destruct (decide (v = v1)) as [<- | Hn1];
      destruct (decide (v = v2)) as [<- | Hn2]; [reflexivity | | |].
    + rewrite lookup_insert_eq in H1. injection H1 as <-.
      rewrite lookup_insert_ne in H2 by exact Hn2.
      apply Hs in Hc1. apply (Hin _ _ _ H2) in Hc2. lia.
    + rewrite lookup_insert_eq in H2. injection H2 as <-.
      rewrite lookup_insert_ne in H1 by exact Hn1.
      apply Hs in Hc2. apply (Hin _ _ _ H1) in Hc1. lia.
    + rewrite lookup_insert_ne in H1 by exact Hn1.
      rewrite lookup_insert_ne in H2 by exact Hn2.
      eapply Hdis; eassumption.
  - intros v' s' i Hv' Hc. destruct (decide (v = v')) as [<- | Hne].
    + rewrite lookup_insert_eq in Hv'. injection Hv' as <-.
      apply Hs in Hc. lia.
    + rewrite lookup_insert_ne in Hv' by exact Hne.
      apply (Hin _ _ _ Hv') in Hc. lia.
Qed.

Lemma offset_in_bounds (w : string → nat) (l : list string) (off : nat)
    (v : string) :
  v ∈ l → off ≤ offset_in w l off v ∧
          offset_in w l off v + w v ≤ off + total_width w l.
Proof.
  revert off. induction l as [| a l IH]; intros off Hv; [inversion Hv |].
  simpl. destruct (decide (a = v)) as [-> | Hne]; [lia |].
  apply elem_of_cons in Hv as [? | Hv]; [congruence |].
  destruct (IH (off + w a) Hv). lia.
Qed.

Section state_layout.
Context (p : Problem) (sizes : gmap string nat).

Lemma covers_state_slot (v : string) (off i : nat) :
  covers (state_slot p sizes v off) i ↔ off ≤ i < off + state_width p sizes v.
Proof.
  unfold state_slot, state_width.
  destruct (decide (v ∈ integrated_states p)); simpl; lia.
Qed.

Lemma index_state_variable_eq (off : nat) (d : gmap string slot)
    (v : string) (s : nat) :
  sizes !! v = Some s → (v ∈ integrated_states p → s = 1) →
  index_state_variable p sizes (off, d) v
  = Ok (off + state_width p sizes v, <[v := state_slot p sizes v off]> d).
Proof.
  intros Hs Hint.
  unfold index_state_variable, size_lookup, state_slot, state_width.
  rewrite Hs. simpl.
  destruct (decide (v ∈ integrated_states p)) as [Hi | Hi].
  - rewrite (Hint Hi). reflexivity.
  - reflexivity.
Qed.

Lemma state_slots_eq (v : string) (s : nat) :
  sizes !! v = Some s → state_slots p sizes v = Ok (state_width p sizes v).
Proof.
  intros Hs. unfold state_slots, size_lookup, state_width. rewrite Hs.
  destruct (decide (v ∈ integrated_states p)); simpl;
    [reflexivity | f_equal; lia].
Qed.

Lemma index_state_chain_tiles (l : list string) (lo off acc : nat)
    (d : gmap string slot) :
  NoDup l → (∀ v, v ∈ l → d !! v = None) → integrated_are_scalar p sizes l →
  tiles d lo off →
  ∃ d',
    foldM (index_state_variable p sizes) (off, d) l
    = Ok (off + total_width (state_width p sizes) l, d') ∧
    foldM (λ acc variable, k ← state_slots p sizes variable; Ok (acc + k))
          acc l = Ok (acc + total_width (state_width p sizes) l) ∧
    tiles d' lo (off + total_width (state_width p sizes) l) ∧
    (∀ v, v ∉ l → d' !! v = d !! v) ∧
    (∀ v, v ∈ l →
          d' !! v
          = Some (state_slot p sizes v
                    (offset_in (state_width p sizes) l off v))).
Proof.
  revert off acc d.
  induction l as [| v l IH]; intros off acc d Hnd Hfresh Hsz Ht.
  - exists d. simpl. rewrite !Nat.add_0_r.
    split; [reflexivity |]. split; [reflexivity |]. split; [exact Ht |].
    split; [reflexivity |]. intros v Hv. inversion Hv.
  - apply NoDup_cons in Hnd as [Hv Hnd].
    destruct (Hsz v) as (s & Hs & Hint); [left |].
    assert (Hsz' : integrated_are_scalar p sizes l).
    { intros x Hx. apply Hsz. right. exact Hx. }
    destruct (IH (off + state_width p sizes v) (acc + state_width p sizes v)
                (<[v := state_slot p sizes v off]> d))
      as (d' & Hf & Hc & Ht' & Hother & Hslots); [assumption | | assumption | |].
    { intros x Hx. rewrite lookup_insert_ne; [| intros ->; contradiction].
      apply Hfresh. right. exact Hx. }
    { apply tiles_insert; [exact Ht | apply Hfresh; left |].
      apply covers_state_slot. }
    exists d'. cbn [foldM total_width foldr]. rewrite !Nat.add_assoc.
    split.
    { rewrite (index_state_variable_eq off d v s Hs Hint). exact Hf. }
    split.
    { rewrite (state_slots_eq v s Hs). exact Hc. }
    split; [exact Ht' |].
    split.
    { intros x Hx. apply not_elem_of_cons in Hx as [Hne Hx].
      rewrite Hother by exact Hx. apply lookup_insert_ne. congruence. }
    intros x Hx. cbn [offset_in]. destruct (decide (v = x)) as [<- | Hne].
    + rewrite Hother by exact Hv. apply lookup_insert_eq.
    + apply elem_of_cons in Hx as [? | Hx]; [congruence |].
      apply Hslots. exact Hx.
Qed.

Lemma index_extra_tiles (l : list string) (lo off acc : nat)
    (d : gmap string slot) :
  NoDup l → (∀ v, v ∈ l → d !! v = None) →
  (∀ v, v ∈ l → is_Some (sizes !! v)) →
  tiles d lo off →
  ∃ d',
    foldM (index_extra_variable sizes) (off, d) l
    = Ok (off + total_width (extra_width sizes) l, d') ∧
    foldM (λ acc variable, s ← size_lookup sizes variable; Ok (acc + s))
          acc l = Ok (acc + total_width (extra_width sizes) l) ∧
    tiles d' lo (off + total_width (extra_width sizes) l) ∧
    (∀ v, v ∉ l → d' !! v = d !! v) ∧
    (∀ v, v ∈ l →
          d' !! v
          = Some (Slice (offset_in (extra_width sizes) l off v)
                        (offset_in (extra_width sizes) l off v
                         + extra_width sizes v))).
Proof.
  revert off acc d.
  induction l as [| v l IH]; intros off acc d Hnd Hfresh Hsz Ht.
  - exists d. simpl. rewrite !Nat.add_0_r.
    split; [reflexivity |]. split; [reflexivity |]. split; [exact Ht |].
    split; [reflexivity |]. intros v Hv. inversion Hv.
  - apply NoDup_cons in Hnd as [Hv Hnd].
    destruct (Hsz v) as (s & Hs); [left |].
    assert (Hw : extra_width sizes v = s)
      by (unfold extra_width; rewrite Hs; reflexivity).
    destruct (IH (off + s) (acc + s) (<[v := Slice off (off + s)]> d))
      as (d' & Hf & Hc & Ht' & Hother & Hslots); [assumption | | | |].
    + intros x Hx. rewrite lookup_insert_ne; [| intros ->; contradiction].
      apply Hfresh. right. exact Hx.
    + intros x Hx. apply Hsz. right. exact Hx.
    + apply tiles_insert; [exact Ht | apply Hfresh; left |].
      intros i. simpl. lia.
    + exists d'. simpl. unfold size_lookup. rewrite Hs, Hw. simpl.
      rewrite !Nat.add_assoc.
      split; [exact Hf |]. split; [exact Hc |]. split; [exact Ht' |].
      split.
      { intros x Hx. apply not_elem_of_cons in Hx as [Hne Hx].
        rewrite Hother by exact Hx. apply lookup_insert_ne. congruence. }
      intros x Hx. destruct (decide (v = x)) as [<- | Hne].
      * rewrite Hother by exact Hv. rewrite Hw. apply lookup_insert_eq.
      * apply elem_of_cons in Hx as [? | Hx]; [congruence |].
        apply Hslots. exact Hx.
Qed.

(** The index maps of [discretize_states]: for every member the recorded
    slots tile the member's block up to the slots of the initial
    derivatives, which close the block and are not recorded. *)
Lemma discretize_states_tiles :
  NoDup (state_chain p ++ extra_variable_names p) →
  integrated_are_scalar p sizes (state_chain p) →
  (∀ v, v ∈ extra_variable_names p → is_Some (sizes !! v)) →
  ∃ member_size indices,
    ensemble_member_size p sizes = Ok member_size ∧
    discretize_states p sizes = Ok (ensemble_size p * member_size, indices) ∧
    length indices = ensemble_size p ∧
    length (derivative_names p) ≤ member_size ∧
    ∀ m, m < ensemble_size p →
      ∃ d, indices !! m = Some d ∧ member_layout p sizes member_size m d.
Proof.
  intros Hnd Hint Hext.
  apply NoDup_app in Hnd as (Hnd1 & Hdisj & Hnd2).
  set (w1 := total_width (state_width p sizes) (state_chain p)).
  set (w2 := total_width (extra_width sizes) (extra_variable_names p)).
  set (ms := w1 + w2 + length (derivative_names p)).
  assert (Hmember : ∀ m, ∃ d,
             ensemble_member_size p sizes = Ok ms ∧
             index_member p sizes ms m = Ok d ∧
             member_layout p sizes ms m d).
  { intros m.
    destruct (index_state_chain_tiles (state_chain p) (m * ms) (m * ms) 0 ∅)
      as (d1 & Hf1 & Hc1 & Ht1 & Hother1 & Hslots1);
      [assumption | intros; apply lookup_empty | assumption
       | apply tiles_empty |].
    destruct (index_extra_tiles (extra_variable_names p) (m * ms)
                (m * ms + w1) w1 d1)
      as (d2 & Hf2 & Hc2 & Ht2 & Hother2 & Hslots2);
      [assumption | | assumption | exact Ht1 |].
    { intros v Hv. rewrite Hother1; [apply lookup_empty |].
      intros Hc. exact (Hdisj v Hc Hv). }
    exists d2. unfold ensemble_member_size, index_member.
    rewrite Hc1. simpl. fold w1. rewrite Hc2. simpl.
    rewrite Hf1. simpl. fold w1. rewrite Hf2. simpl.
    split; [reflexivity |]. split; [reflexivity |].
    split.
    - reflexivity.
    - replace (ms - length (derivative_names p)) with (w1 + w2)
        by (unfold ms; lia).
      rewrite Nat.add_assoc. exact Ht2.
    - intros v Hv. rewrite Hother2; [apply Hslots1; exact Hv |].
      intros Hc. exact (Hdisj v Hv Hc).
    - intros v Hv. apply Hslots2. exact Hv.
    - intros v Hv1 Hv2. rewrite Hother2 by exact Hv2.
      rewrite Hother1 by exact Hv1. apply lookup_empty. }
  destruct (Hmember 0) as (_ & Hsize & _ & _).
  assert (Hindices : ∀ l, ∃ indices,
             mapM (index_member p sizes ms) l = Ok indices).
  { induction l as [| m l [indices IH]]; [exists []; reflexivity |].
    destruct (Hmember m) as (d & _ & Hd & _).
    exists (d :: indices). cbn [mapM]. rewrite Hd, IH. reflexivity. }
  destruct (Hindices (seq 0 (ensemble_size p))) as [indices Hmap].
  exists ms, indices.
  split; [exact Hsize |].
  split; [unfold discretize_states; rewrite Hsize; simpl; rewrite Hmap;
          reflexivity |].
  split; [rewrite (mapM_length _ _ _ Hmap); apply length_seq |].
  split; [unfold ms; lia |].
  intros m Hm.
  destruct (mapM_lookup _ _ _ m m Hmap) as (d & Hd & Hlookup);
    [apply lookup_seq; auto |].
  exists d. split; [exact Hlookup |].
  destruct (Hmember m) as (d' & _ & Hd' & Hl).
  rewrite Hd' in Hd. injection Hd as <-. exact Hl.
Qed.

End state_layout.

(** ** The layout of the control block and the merged index map *)

Lemma control_slots_offset (p : Problem) (l : list string) (off : nat)
    (d1 d2 : gmap string slot) :
  (control_slots p l (off, d1)).1 = (control_slots p l (off, d2)).1.
Proof.
  revert off d1 d2. induction l as [| v l IH]; intros off d1 d2;
    [reflexivity | apply IH].
Qed.

Lemma discretize_control_fold (p : Problem)
    (b : gmap string (option bound_value * option bound_value))
    (seed_0 : gmap string Timeseries) (l : list string)
    (st st' : layout_state) :
  foldM (discretize_control p b seed_0) st l = Ok st' →
  ls_offset st' = (control_slots p l (ls_offset st, ∅)).1 ∧
  ls_indices st'
  = (λ d, (control_slots p l (ls_offset st, d)).2) <$> ls_indices st.
Proof.
  revert st. induction l as [| v l IH]; intros st Hfold; simpl in Hfold.
  - injection Hfold as <-. simpl. rewrite list_fmap_id. auto.
  - apply bind_inv_Ok in Hfold as (st1 & Hstep & Hfold).
    destruct (IH st1 Hfold) as [Hoff Hind].
    unfold discretize_control in Hstep.
    apply bind_inv_Ok in Hstep as (discrete & _ & Hstep).
    apply bind_inv_Ok in Hstep as ([[lbx ubx] x0] & _ & Hstep).
    injection Hstep as <-. simpl in *.
    split; [rewrite Hoff; apply control_slots_offset |].
    rewrite Hind, <- list_fmap_compose. reflexivity.
Qed.

Lemma control_slots_from_empty (p : Problem) (l : list string) (off : nat)
    (d : gmap string slot) (v : string) :
  (control_slots p l (off, d)).2 !! v
  = match (control_slots p l (off, ∅)).2 !! v with
    | Some s => Some s
    | None => d !! v
    end.
Proof.
  revert off d. induction l as [| a l IH] using rev_ind; intros off d.
  - simpl. rewrite lookup_empty. reflexivity.
  - unfold control_slots in *. rewrite !foldl_app. simpl.
    fold (control_slots p l (off, d)). fold (control_slots p l (off, ∅)).
    rewrite (control_slots_offset p l off d ∅).
    destruct (decide (a = v)) as [-> | Hne].
    + rewrite !lookup_insert_eq. reflexivity.
    + rewrite !lookup_insert_ne by exact Hne. apply IH.
Qed.

Lemma discretize_controls_indices (p : Problem)
    (b : gmap string (option bound_value * option bound_value))
    (count : nat) (a : arrays) (indices : index_maps) :
  discretize_controls p b = Ok (count, a, indices) →
  count = control_count p ∧
  indices = replicate (ensemble_size p) (control_index_map p).
Proof.
  unfold discretize_controls. intros H.
  apply bind_inv_Ok in H as (st & Hfold & H). injection H as <- <- <-.
  split; [reflexivity |].
  apply discretize_control_fold in Hfold as [_ ->]. simpl.
  rewrite fmap_replicate. reflexivity.
Qed.

(** A state's slot, moved behind the control block, replaces a control's
    slot of the same name. *)
Lemma merge_member_lookup (control_size : nat)
    (indices_control indices_state : gmap string slot) (v : string) :
  merge_member control_size indices_control indices_state !! v
  = match indices_state !! v with
    | Some s => Some (shift_slot control_size s)
    | None => indices_control !! v
    end.
Proof.
  unfold merge_member.
  apply (map_fold_weak_ind
           (λ r m, r !! v = match m !! v with
                            | Some s => Some (shift_slot control_size s)
                            | None => indices_control !! v
                            end)).
  - rewrite lookup_empty. reflexivity.
  - intros i x m r Hi IH. destruct (decide (i = v)) as [-> | Hne].
    + rewrite !lookup_insert_eq. reflexivity.
    + rewrite !lookup_insert_ne by exact Hne. exact IH.
Qed.

Lemma covers_shift_slot (control_size : nat) (s : slot) (i : nat) :
  covers (shift_slot control_size s) i
  ↔ control_size ≤ i ∧ covers s (i - control_size).
Proof. destruct s; simpl; lia. Qed.

Lemma merge_indices_Ok (p : Problem) (control_size : nat)
    (indices_control indices_state : index_maps) :
  length indices_control = ensemble_size p →
  length indices_state = ensemble_size p →
  ∃ indices,
    merge_indices p control_size indices_control indices_state = Ok indices ∧
    length indices = ensemble_size p ∧
    ∀ m ic ist, indices_control !! m = Some ic → indices_state !! m = Some ist →
                indices !! m = Some (merge_member control_size ic ist).
Proof.
  intros Hc Hs. unfold merge_indices.
  set (f := λ ensemble_member,
              ic ← index indices_control ensemble_member;
              ist ← index indices_state ensemble_member;
              Ok (merge_member control_size ic ist)).
  assert (Hf : ∀ m ic ist, indices_control !! m = Some ic →
                           indices_state !! m = Some ist →
                           f m = Ok (merge_member control_size ic ist)).
  { intros m ic ist Hic Hist. unfold f, index. rewrite Hic, Hist.
    reflexivity. }
  assert (Hall : ∀ l, Forall (λ m, m < ensemble_size p) l →
            ∃ indices, mapM f l = Ok indices).
  { induction l as [| m l IH]; intros Hl; [exists []; reflexivity |].
    apply Forall_cons in Hl as [Hm Hl]. destruct (IH Hl) as [indices Hi].
    destruct (lookup_lt_is_Some_2 indices_control m) as [ic Hic]; [lia |].
    destruct (lookup_lt_is_Some_2 indices_state m) as [ist Hist]; [lia |].
    eexists. cbn [mapM]. rewrite (Hf m ic ist Hic Hist), Hi. reflexivity. }
  destruct (Hall (seq 0 (ensemble_size p))) as [indices Hmap].
  { apply Forall_forall. intros m Hm. apply elem_of_seq in Hm. lia. }
  exists indices. split; [exact Hmap |].
  split; [rewrite (mapM_length _ _ _ Hmap); apply length_seq |].
  intros m ic ist Hic Hist.
  destruct (mapM_lookup _ _ _ m m Hmap) as (d & Hd & Hlookup).
  { apply lookup_seq. split; [reflexivity |].
    apply lookup_lt_Some in Hic. lia. }
  rewrite (Hf m ic ist Hic Hist) in Hd.
  injection Hd as <-. exact Hlookup.
Qed.

(** When the checks pass and the controls are laid out, [transcribe] gets
    to the decision vector. *)
Lemma transcribe_layout_Ok (p : Problem) :
  NoDup (state_chain p ++ extra_variable_names p) →
  Forall (λ v, size_get (variable_sizes p) v ≤ 1)
         (integrated_states p ++ controls p) →
  integrated_are_scalar p (variable_sizes p) (state_chain p) →
  is_ok (initial_dt p) →
  is_ok (discretize_controls p (bounds p)) →
  ∃ tr dts control_arrays member_size indices_state,
    run (transcribe_layout p)
    = ([DiscretizeControlsCalled; DiscretizeStatesCalled], Ok tr) ∧
    initial_dt p = Ok dts ∧
    discretize_controls p (bounds p)
    = Ok (control_count p, control_arrays,
          replicate (ensemble_size p) (control_index_map p)) ∧
    ensemble_member_size p (variable_sizes p) = Ok member_size ∧
    discretize_states p (variable_sizes p)
    = Ok (ensemble_size p * member_size, indices_state) ∧
    length (derivative_names p) ≤ member_size ∧
    (∀ m, m < ensemble_size p →
          ∃ d, indices_state !! m = Some d ∧
               member_layout p (variable_sizes p) member_size m d ∧
               t_indices tr !! m
               = Some (merge_member (control_count p) (control_index_map p) d)) ∧
    tr = mkTranscription (variable_sizes p) dts (control_count p)
           (ensemble_size p * member_size) (t_indices tr)
           ((λ d : gmap string slot,
               slot_as_list (control_count p + ensemble_size p * member_size)
                 <$> d) <$> t_indices tr)
           (control_count p + ensemble_size p * member_size) control_arrays.
Proof.
  intros Hnd Hsizes Hint Hdt Hdc.
  destruct (initial_dt p) as [e | dts] eqn:Edt; [destruct Hdt |].
  destruct (discretize_controls p (bounds p)) as [e | [[count a] ic]] eqn:Edc;
    [destruct Hdc |].
  destruct (discretize_controls_indices p _ _ _ _ Edc) as [-> ->].
  destruct (discretize_states_tiles p (variable_sizes p) Hnd Hint)
    as (ms & ist & Hms & Hds & Hlen & Hder & Htiles).
  { intros v Hv. unfold variable_sizes. apply set_sizes_is_Some. exact Hv. }
  destruct (merge_indices_Ok p (control_count p)
              (replicate (ensemble_size p) (control_index_map p)) ist)
    as (indices & Hmerge & Hlen' & Hlookup);
    [apply length_replicate | exact Hlen |].
  apply Forall_app in Hsizes as [Hsi Hsc].
  eexists _, dts, a, ms, ist.
  split.
  { unfold run, transcribe_layout, mbind, M_bind, lift, emit.
    rewrite Edt. rewrite (check_vector_symbols_Ok _ _ _ Hsi).
    rewrite (check_vector_symbols_Ok _ _ _ Hsc).
    rewrite Edc. simpl. rewrite Hds. unfold Ok. cbn beta iota.
    rewrite Hmerge. reflexivity. }
  split; [reflexivity |]. split; [reflexivity |].
  split; [exact Hms |]. split; [exact Hds |]. split; [exact Hder |].
  split; [| reflexivity].
  intros m Hm. destruct (Htiles m Hm) as (d & Hd & Ht).
  exists d. split; [exact Hd |]. split; [exact Ht |]. simpl.
  apply Hlookup; [| exact Hd].
  apply lookup_replicate. auto.
Qed.

(** Distinct names make the states scalar; a path variable that is declared
    integrated has to be scalar by itself. *)
Lemma integrated_are_scalar_of_NoDup (p : Problem) :
  NoDup (state_chain p ++ extra_variable_names p) →
  (∀ v s, (v, s) ∈ path_variables p → v ∈ integrated_states p → s = 1) →
  integrated_are_scalar p (variable_sizes p) (state_chain p).
Proof.
  intros Hnd Hpath v Hv.
  apply NoDup_app in Hnd as (Hnd1 & Hdisj & _).
  unfold state_chain in Hv, Hnd1. rewrite app_assoc in Hv, Hnd1.
  apply NoDup_app in Hnd1 as (_ & Hdisj1 & Hndp).
  assert (Hext : v ∉ extra_variable_names p).
  { apply Hdisj. unfold state_chain. rewrite app_assoc. exact Hv. }
  apply elem_of_app in Hv as [Hs | Hp].
  - exists 1. split; [| reflexivity].
    apply variable_sizes_state; [exact Hs | apply Hdisj1; exact Hs | exact Hext].
  - unfold path_variable_names in Hp.
    apply list_elem_of_fmap in Hp as ([v' s] & -> & Hin). simpl in *.
    exists s. split; [| intros Hi; exact (Hpath _ _ Hin Hi)].
    unfold variable_sizes. rewrite set_sizes_not_in by exact Hext.
    apply set_sizes_in; assumption.
Qed.

(** With one differentiated state on three grid points the block of the
    member has four slots; the last one holds the initial derivative and
    belongs to no recorded slot. *)
Lemma state_block_has_unrecorded_slot :
  ¬ state_blocks_partitioned Examples.single_state.
Proof.
  intros Hclaim.
  destruct (discretize_states_tiles Examples.single_state
              (variable_sizes Examples.single_state))
    as (ms & indices & Hms & Hds & _ & _ & Htiles).
  - apply (bool_decide_unpack _). vm_compute. reflexivity.
  - apply integrated_are_scalar_of_NoDup.
    + apply (bool_decide_unpack _). vm_compute. reflexivity.
    + intros v s Hin. inversion Hin.
  - intros v Hv. inversion Hv.
  - assert (Hms4 : ensemble_member_size Examples.single_state
                     (variable_sizes Examples.single_state) = Ok 4)
      by (vm_compute; reflexivity).
    rewrite Hms4 in Hms. injection Hms as <-.
    destruct (Htiles 0) as (d & Hd & Hl); [simpl; lia |].
    pose proof (ml_tiles _ _ _ _ _ Hl) as Ht.
    specialize (Hclaim 4 _ indices Hms4 Hds 0 d Hd).
    destruct (tiles_cover _ _ _ Hclaim 3) as (v & s & Hv & Hc); [lia |].
    pose proof (tiles_within _ _ _ Ht v s 3 Hv Hc) as Hin.
    simpl in Hin. lia.
Qed.

(** C1, as the code has it.  When [transcribe] reaches the layout (distinct
    variable names, no vector symbol among the integrated states and the
    controls, the step-size cache and the control block built), the slots
    recorded by [discretize_states] for a member are pairwise disjoint and
    cover the member's block without gaps up to the trailing slots of the
    initial derivatives, one per derivative, which are reserved but not
    recorded; and the decision vector is as long as the control block plus
    ensemble size times the per-member block. *)
Theorem decision_vector_layout (p : Problem) :
  NoDup (state_chain p ++ extra_variable_names p) →
  Forall (λ v, size_get (variable_sizes p) v ≤ 1)
         (integrated_states p ++ controls p) →
  (∀ v s, (v, s) ∈ path_variables p → v ∈ integrated_states p → s = 1) →
  is_ok (initial_dt p) →
  is_ok (discretize_controls p (bounds p)) →
  ∃ tr control_arrays indices_control member_size indices_state log,
    run (transcribe_layout p) = (log, Ok tr) ∧
    discretize_controls p (bounds p)
    = Ok (t_control_size tr, control_arrays, indices_control) ∧
    ensemble_member_size p (variable_sizes p) = Ok member_size ∧
    discretize_states p (variable_sizes p)
    = Ok (ensemble_size p * member_size, indices_state) ∧
    t_n_x tr = t_control_size tr + ensemble_size p * member_size ∧
    length (derivative_names p) ≤ member_size ∧
    ∀ m, m < ensemble_size p →
      ∃ d, indices_state !! m = Some d ∧
           tiles d (m * member_size)
                 ((m + 1) * member_size - length (derivative_names p)).
Proof.
  intros Hnd Hsizes Hpath Hdt Hdc.
  destruct (transcribe_layout_Ok p Hnd Hsizes
              (integrated_are_scalar_of_NoDup p Hnd Hpath) Hdt Hdc)
    as (tr & dts & a & ms & ist & Hrun & _ & Hc & Hms & Hds & Hder & Hm & Htr).
  exists tr, a, (replicate (ensemble_size p) (control_index_map p)), ms, ist,
         [DiscretizeControlsCalled; DiscretizeStatesCalled].
  rewrite Htr. simpl.
  split; [rewrite <- Htr; exact Hrun |].
  split; [exact Hc |]. split; [exact Hms |]. split; [exact Hds |].
  split; [reflexivity |]. split; [exact Hder |].
  intros m Hlt. destruct (Hm m Hlt) as (d & Hd & Hl & _).
  exists d. split; [exact Hd |].
  replace ((m + 1) * ms - length (derivative_names p))
    with (m * ms + (ms - length (derivative_names p))) by lia.
  exact (ml_tiles _ _ _ _ _ Hl).
Qed.

Lemma decision_vector_layout_witness :
  ∃ tr control_arrays indices_control member_size indices_state log,
    run (transcribe_layout Examples.single_state) = (log, Ok tr) ∧
    discretize_controls Examples.single_state (bounds Examples.single_state)
    = Ok (t_control_size tr, control_arrays, indices_control) ∧
    ensemble_member_size Examples.single_state
      (variable_sizes Examples.single_state) = Ok member_size ∧
    discretize_states Examples.single_state
      (variable_sizes Examples.single_state)
    = Ok (ensemble_size Examples.single_state * member_size, indices_state) ∧
    t_n_x tr = t_control_size tr
               + ensemble_size Examples.single_state * member_size ∧
    length (derivative_names Examples.single_state) ≤ member_size ∧
    ∀ m, m < ensemble_size Examples.single_state →
      ∃ d, indices_state !! m = Some d ∧
           tiles d (m * member_size)
                 ((m + 1) * member_size
                  - length (derivative_names Examples.single_state)).
Proof.
  apply (decision_vector_layout Examples.single_state).
  - apply (bool_decide_unpack _). vm_compute. reflexivity.
  - apply (bool_decide_unpack _). vm_compute. reflexivity.
  - intros v s Hin. inversion Hin.
  - vm_compute. exact I.
  - vm_compute. exact I.
Defined.

(** ** The theorems at concrete problems *)

Lemma dae_splitter_partitions_witness :
  ∃ integrated collocated,
    dae_splitter Examples.integrated_state Examples.residual_rows
    = Ok (integrated, collocated) ∧
    length integrated + length collocated = 2.
Proof.
  destruct (dae_splitter_partitions Examples.integrated_state
              Examples.residual_rows)
    as (integrated & collocated & _ & H & _ & _ & _ & _ & _ & Hlen).
  - simpl. lia.
  - exists integrated, collocated. split; [exact H | exact Hlen].
Defined.


Lemma nlp_objective_is_weighted_sum_witness :
  nlp_objective Examples.two_member_objective
    (λ m, stacked <$> Examples.two_member_steps m) 2
  = sum1 ((λ m, Q2Qc (1 # 2)
                * individual_objective Examples.two_member_objective m
                    (Examples.two_member_steps m))%Qc <$> [0; 1]).
Proof.
  apply (nlp_objective_is_weighted_sum Examples.two_member_objective
           Examples.two_member_steps 2).
  intros m y Hm Hy. unfold Examples.two_member_steps in Hy.
  apply elem_of_cons in Hy as [-> | Hy];
    [| apply list_elem_of_singleton in Hy as ->]; simpl; auto.
Defined.


(** ** Initial conditions from the history *)

Lemma foldMM_cons_Ok {A B} (f : A → B → M A) (a a1 : A) (x : B) (l : list B)
    (log log1 : list event) :
  f a x log = (log1, Ok a1) →
  foldMM f a (x :: l) log = foldMM f a1 l log1.
Proof.
  intros H. cbn [foldMM]. unfold mbind, M_bind. rewrite H. reflexivity.
Qed.

Lemma foldMM_cons_Raise {A B} (f : A → B → M A) (a : A) (x : B) (l : list B)
    (log log1 : list event) (e : exn) :
  f a x log = (log1, Raise e) →
  foldMM f a (x :: l) log = (log1, Raise e).
Proof.
  intros H. cbn [foldMM]. unfold mbind, M_bind. rewrite H. reflexivity.
Qed.

Section pin.
Context (format_value : pyfloat → string) (p : Problem)
        (inds : gmap string (list nat)) (history_m : gmap string Timeseries).

Lemma pin_initial_value_skip (lbx ubx : list pyfloat) (v : string)
    (log : list event) :
  history_value p history_m v = None →
  pin_initial_value format_value p inds history_m (lbx, ubx) v log
  = (log, Ok (lbx, ubx)).
Proof.
  unfold history_value, pin_initial_value. intros H.
  destruct (history_m !! v) as [h |]; [| reflexivity].
  simpl in *. destruct (isnan _); [reflexivity | discriminate].
Qed.

Lemma pin_initial_value_step (lbx ubx : list pyfloat) (v : string)
    (log : list event) (val : pyfloat) (idx : nat) (rest : list nat) :
  history_value p history_m v = Some val →
  inds !! v = Some (idx :: rest) →
  idx < length lbx → length ubx = length lbx →
  pin_initial_value format_value p inds history_m (lbx, ubx) v log
  = (log ++ (if outside_bounds val lbx ubx idx
             then [LogWarning (outside_bounds_message (format_value val) v)]
             else []),
     Ok (<[idx := val]> lbx, <[idx := val]> ubx)).
Proof.
  unfold history_value, pin_initial_value. intros Hval Hinds Hidx Hlen.
  destruct (history_m !! v) as [h |]; [| discriminate].
  simpl in *. destruct (isnan _); [discriminate |].
  injection Hval as Hval. rewrite Hval.
  destruct (lookup_lt_is_Some_2 lbx idx Hidx) as [l Hl].
  destruct (lookup_lt_is_Some_2 ubx idx) as [u Hu]; [lia |].
  unfold mbind, M_bind, lift, lookup_inds, index, set_item, outside_bounds, emit.
  rewrite Hinds. simpl. rewrite Hl, Hu.
  destruct (decide (idx < length lbx)) as [_ | []]; [| exact Hidx].
  destruct (decide (idx < length ubx)) as [_ | []]; [| lia].
  unfold Ok, mret, M_ret. cbn beta iota.
  destruct (flt val l); cbn beta iota.
  - reflexivity.
  - destruct (fgt val u); simpl;
      [reflexivity | rewrite app_nil_r; reflexivity].
Qed.

(** The warnings for variables whose slots were not touched are the same
    before and after a slot is pinned. *)
Lemma history_warnings_insert (first : string → nat) (l : list string)
    (lbx ubx : list pyfloat) (i : nat) (x : pyfloat) :
  (∀ v val, v ∈ l → history_value p history_m v = Some val → first v ≠ i) →
  history_warnings format_value p history_m first
    (<[i := x]> lbx) (<[i := x]> ubx) l
  = history_warnings format_value p history_m first lbx ubx l.
Proof.
  intros Hne. unfold history_warnings.
  induction l as [| a l IH]; [reflexivity |].
  cbn [flat_map]. rewrite IH.
  - f_equal. destruct (history_value p history_m a) as [va |] eqn:Ha;
      [| reflexivity].
    unfold outside_bounds.
    rewrite !list_lookup_insert_ne
      by (intros Heq; apply (Hne a va); [left | exact Ha | congruence]).
    reflexivity.
  - intros v val Hv. apply Hne. right. exact Hv.
Qed.

Lemma pin_initial_values_fold (first : string → nat) (l : list string)
    (lbx ubx : list pyfloat) (log : list event) :
  NoDup l →
  length ubx = length lbx →
  first_slots p inds history_m l (length lbx) first →
  ∃ lbx' ubx',
    foldMM (pin_initial_value format_value p inds history_m) (lbx, ubx) l log
    = (log ++ history_warnings format_value p history_m first lbx ubx l,
       Ok (lbx', ubx')) ∧
    length lbx' = length lbx ∧ length ubx' = length lbx ∧
    (∀ v val, v ∈ l → history_value p history_m v = Some val →
              lbx' !! first v = Some val ∧ ubx' !! first v = Some val) ∧
    (∀ i, (∀ v val, v ∈ l → history_value p history_m v = Some val →
                    first v ≠ i) →
          lbx' !! i = lbx !! i ∧ ubx' !! i = ubx !! i).
Proof.
  revert lbx ubx log.
  induction l as [| a l IH]; intros lbx ubx log Hnd Hlen [Hslot Hinj].
  - exists lbx, ubx. simpl. unfold mret, M_ret. rewrite app_nil_r.
    split; [reflexivity |]. split; [reflexivity |]. split; [exact Hlen |].
    split; [intros v val Hv; inversion Hv | auto].
  - apply NoDup_cons in Hnd as [Hal Hnd].
    destruct (history_value p history_m a) as [va |] eqn:Ha.
    + destruct (Hslot a va) as (Hidx & rest & Hinds); [left | exact Ha |].
      set (lbx1 := <[first a := va]> lbx).
      set (ubx1 := <[first a := va]> ubx).
      set (w := if outside_bounds va lbx ubx (first a)
                then [LogWarning (outside_bounds_message (format_value va) a)]
                else []).
      assert (Hother : ∀ v val, v ∈ l →
                 history_value p history_m v = Some val → first v ≠ first a).
      { intros v val Hv Hval Heq. apply Hal.
        assert (v = a); [| congruence].
        apply (Hinj v a val va); [right; exact Hv | left | | |]; assumption. }
      destruct (IH lbx1 ubx1 (log ++ w) Hnd)
        as (lbx' & ubx' & Hfold & Hl1 & Hl2 & Hpin & Hrest).
      { unfold lbx1, ubx1. rewrite !length_insert. exact Hlen. }
      { unfold lbx1. rewrite length_insert. split.
        - intros v val Hv. apply Hslot. right. exact Hv.
        - intros v1 v2 val1 val2 H1 H2. apply Hinj; right; assumption. }
      exists lbx', ubx'.
      split.
      { rewrite (foldMM_cons_Ok _ _ _ _ _ _ _
                   (pin_initial_value_step lbx ubx a log va (first a) rest
                      Ha Hinds Hidx Hlen)).
        fold w lbx1 ubx1. rewrite Hfold.
        unfold lbx1, ubx1. rewrite (history_warnings_insert _ _ _ _ _ _ Hother).
        unfold history_warnings at 2. cbn [flat_map]. rewrite Ha. fold w.
        rewrite app_assoc. reflexivity. }
      unfold lbx1, ubx1 in Hl1, Hl2. rewrite !length_insert in Hl1, Hl2.
      split; [exact Hl1 |]. split; [exact Hl2 |].
      split.
      { intros v val Hv Hval.
        apply elem_of_cons in Hv as [-> | Hv]; [| exact (Hpin v val Hv Hval)].
        rewrite Ha in Hval. injection Hval as <-.
        destruct (Hrest (first a)) as [H1 H2].
        { intros v' val' Hv' Hval'. exact (Hother v' val' Hv' Hval'). }
        unfold lbx1 in H1. unfold ubx1 in H2.
        rewrite list_lookup_insert_eq in H1 by lia.
        rewrite list_lookup_insert_eq in H2 by lia. auto. }
      intros i Hi. destruct (Hrest i) as [H1 H2].
      { intros v val Hv. apply Hi. right. exact Hv. }
      assert (Hia : first a ≠ i) by (apply (Hi a va); [left | exact Ha]).
      unfold lbx1 in H1. unfold ubx1 in H2.
      rewrite list_lookup_insert_ne in H1 by exact Hia.
      rewrite list_lookup_insert_ne in H2 by exact Hia. auto.
    + destruct (IH lbx ubx log Hnd Hlen)
        as (lbx' & ubx' & Hfold & Hl1 & Hl2 & Hpin & Hrest).
      { split.
        - intros v val Hv. apply Hslot. right. exact Hv.
        - intros v1 v2 val1 val2 H1 H2. apply Hinj; right; assumption. }
      exists lbx', ubx'.
      split.
      { rewrite (foldMM_cons_Ok _ _ _ _ _ _ _
                   (pin_initial_value_skip lbx ubx a log Ha)).
        rewrite Hfold. unfold history_warnings at 2. cbn [flat_map].
        rewrite Ha. reflexivity. }
      split; [exact Hl1 |]. split; [exact Hl2 |].
      split.
      { intros v val Hv Hval. apply Hpin; [| exact Hval].
        apply elem_of_cons in Hv as [-> | ?]; [congruence | assumption]. }
      intros i Hi. apply Hrest. intros v val Hv. apply Hi. right. exact Hv.
Qed.

End pin.

(** ** The control block, slot by slot *)

Lemma control_count_total (p : Problem) :
  control_count p = total_width (control_width p) (controls p).
Proof.
  unfold control_count.
  assert (H : ∀ l acc,
             foldl (λ count variable, count + length (times p (Some variable)))
                   acc l = acc + total_width (control_width p) l).
  { induction l as [| v l IH]; intros acc; simpl; [lia |].
    rewrite IH. unfold control_width. lia. }
  rewrite H. reflexivity.
Qed.

Lemma control_slots_tiles (p : Problem) (l : list string) (lo off : nat)
    (d : gmap string slot) :
  NoDup l → (∀ v, v ∈ l → d !! v = None) → tiles d lo off →
  (control_slots p l (off, d)).1 = off + total_width (control_width p) l ∧
  tiles (control_slots p l (off, d)).2 lo
        (off + total_width (control_width p) l) ∧
  (∀ v, v ∉ l → (control_slots p l (off, d)).2 !! v = d !! v) ∧
  (∀ v, v ∈ l →
        (control_slots p l (off, d)).2 !! v
        = Some (Slice (offset_in (control_width p) l off v)
                      (offset_in (control_width p) l off v
                       + control_width p v))).
Proof.
  revert off d. induction l as [| a l IH]; intros off d Hnd Hfresh Ht.
  - simpl. rewrite Nat.add_0_r. split; [reflexivity |].
    split; [exact Ht |]. split; [reflexivity |]. intros v Hv. inversion Hv.
  - apply NoDup_cons in Hnd as [Ha Hnd].
    destruct (IH (off + control_width p a)
                (<[a := Slice off (off + control_width p a)]> d))
      as (Hoff & Ht' & Hother & Hslots); [assumption | | |].
    + intros x Hx. rewrite lookup_insert_ne; [| intros ->; contradiction].
      apply Hfresh. right. exact Hx.
    + apply tiles_insert; [exact Ht | apply Hfresh; left |].
      intros i. simpl. lia.
    + unfold control_slots in *. cbn [foldl total_width foldr offset_in fst snd].
      fold (control_width p a). rewrite !Nat.add_assoc.
      split; [exact Hoff |]. split; [exact Ht' |].
      split.
      * intros x Hx. apply not_elem_of_cons in Hx as [Hne Hx].
        rewrite Hother by exact Hx. apply lookup_insert_ne. congruence.
      * intros x Hx. destruct (decide (a = x)) as [<- | Hne].
        -- rewrite Hother by exact Ha. apply lookup_insert_eq.
        -- apply elem_of_cons in Hx as [? | Hx]; [congruence |].
           apply Hslots. exact Hx.
Qed.

Lemma control_index_map_layout (p : Problem) :
  NoDup (controls p) →
  tiles (control_index_map p) 0 (control_count p) ∧
  (∀ v, v ∉ controls p → control_index_map p !! v = None) ∧
  (∀ v, v ∈ controls p →
        control_index_map p !! v
        = Some (Slice (offset_in (control_width p) (controls p) 0 v)
                      (offset_in (control_width p) (controls p) 0 v
                       + control_width p v))).
Proof.
  intros Hnd.
  destruct (control_slots_tiles p (controls p) 0 0 ∅ Hnd)
    as (_ & Ht & Hother & Hslots);
    [intros; apply lookup_empty | apply tiles_empty |].
  rewrite control_count_total. unfold control_index_map.
  split; [exact Ht |]. split; [| exact Hslots].
  intros v Hv. rewrite Hother by exact Hv. apply lookup_empty.
Qed.

(** ** The first slot of a variable *)

Lemma slot_as_list_first (n_x : nat) (s : slot) :
  covers s (first_of_slot s) → first_of_slot s < n_x →
  ∃ rest, slot_as_list n_x s = first_of_slot s :: rest.
Proof.
  destruct s as [start stop | i]; simpl; intros Hc Hn; [| eauto].
  unfold slice_of. rewrite drop_seq. simpl.
  destruct (stop - start) as [| k] eqn:Hk; [lia |].
  destruct (n_x - start) as [| j] eqn:Hj; [lia |].
  simpl. eauto.
Qed.

Lemma reaches_layout_merged (p : Problem) :
  reaches_layout p →
  ∃ tr member_size,
    run (transcribe_layout p)
    = ([DiscretizeControlsCalled; DiscretizeStatesCalled], Ok tr) ∧
    ∀ m, m < ensemble_size p →
         ∃ indices, merged_layout p tr m member_size indices.
Proof.
  intros [Hnames Hsizes Hpath Hdt Hdc].
  rewrite app_assoc in Hnames.
  apply NoDup_app in Hnames as (Hnd & Hdisj & Hndc).
  destruct (transcribe_layout_Ok p Hnd Hsizes
              (integrated_are_scalar_of_NoDup p Hnd Hpath) Hdt Hdc)
    as (tr & dts & a & ms & ist & Hrun & Hdts & _ & _ & _ & _ & Hm & Htr).
  destruct (control_index_map_layout p Hndc) as (Htc & Hcnone & Hcslots).
  exists tr, ms. split; [exact Hrun |].
  intros m Hlt. destruct (Hm m Hlt) as (d & _ & Hl & Hmerged).
  destruct Hl as [Hsize Htiles Hstate Hextra Hother].
  set (cc := control_count p) in *.
  assert (Hlookup : ∀ v,
             merge_member cc (control_index_map p) d !! v
             = match d !! v with
               | Some s => Some (shift_slot cc s)
               | None => control_index_map p !! v
               end) by (intros v; apply merge_member_lookup).
  assert (Hcd : ∀ v, v ∈ controls p → d !! v = None).
  { intros v Hv. apply Hother; intros Hc.
    - apply (Hdisj v); [apply elem_of_app; left; exact Hc | exact Hv].
    - apply (Hdisj v); [apply elem_of_app; right; exact Hc | exact Hv]. }
  assert (Hblock : m * ms + (ms - length (derivative_names p))
                   ≤ ensemble_size p * ms).
  { assert ((m + 1) * ms ≤ ensemble_size p * ms)
      by (apply Nat.mul_le_mono_r; lia). lia. }
  exists (merge_member cc (control_index_map p) d).
  rewrite Htr. split; simpl.
  - reflexivity.
  - reflexivity.
  - reflexivity.
  - reflexivity.
  - rewrite Hdts. reflexivity.
  - exact Hsize.
  - rewrite Htr in Hmerged. exact Hmerged.
  - rewrite list_lookup_fmap. rewrite Htr in Hmerged. simpl in Hmerged.
    rewrite Hmerged. reflexivity.
  - intros v Hv. rewrite Hlookup, (Hcd v Hv). apply Hcslots. exact Hv.
  - intros v Hv. rewrite Hlookup, (Hstate v Hv). reflexivity.
  - intros v Hv. rewrite Hlookup, (Hextra v Hv). reflexivity.
  - intros v1 v2 s1 s2 i H1 H2 Hc1 Hc2.
    rewrite Hlookup in H1, H2.
    destruct (d !! v1) as [t1 |] eqn:E1; destruct (d !! v2) as [t2 |] eqn:E2.
    + injection H1 as <-. injection H2 as <-.
      apply covers_shift_slot in Hc1 as [_ Hc1].
      apply covers_shift_slot in Hc2 as [_ Hc2].
      exact (tiles_disjoint _ _ _ Htiles _ _ _ _ _ E1 E2 Hc1 Hc2).
    + injection H1 as <-. apply covers_shift_slot in Hc1 as [Hge _].
      pose proof (tiles_within _ _ _ Htc _ _ _ H2 Hc2). lia.
    + injection H2 as <-. apply covers_shift_slot in Hc2 as [Hge _].
      pose proof (tiles_within _ _ _ Htc _ _ _ H1 Hc1). lia.
    + exact (tiles_disjoint _ _ _ Htc _ _ _ _ _ H1 H2 Hc1 Hc2).
  - intros v s i Hv Hc. rewrite Hlookup in Hv.
    destruct (d !! v) as [t |] eqn:E.
    + injection Hv as <-. apply covers_shift_slot in Hc as [Hge Hc].
      pose proof (tiles_within _ _ _ Htiles _ _ _ E Hc). lia.
    + pose proof (tiles_within _ _ _ Htc _ _ _ Hv Hc). lia.
Qed.

Lemma reaches_layout_state_size (p : Problem) (v : string) :
  reaches_layout p → v ∈ differentiated_states p ++ algebraic_states p →
  variable_sizes p !! v = Some 1.
Proof.
  intros [Hnames _ _ _ _] Hv.
  unfold state_chain in Hnames. rewrite <- !app_assoc in Hnames.
  rewrite (app_assoc (differentiated_states p)) in Hnames.
  apply NoDup_app in Hnames as (_ & Hdisj & _).
  apply variable_sizes_state; [exact Hv | |]; intros Hc;
    apply (Hdisj v Hv); rewrite !elem_of_app; auto.
Qed.

Lemma history_chain_NoDup (p : Problem) :
  reaches_layout p → NoDup (history_chain p).
Proof.
  intros Hreach. pose proof (rl_names p Hreach) as Hnames.
  eapply sublist_NoDup; [exact Hnames |].
  unfold history_chain, state_chain. rewrite <- !app_assoc.
  apply sublist_app; [reflexivity |].
  apply sublist_app; [reflexivity |].
  apply sublist_inserts_l. apply sublist_inserts_l. reflexivity.
Qed.

(** The loop over the history once the layout is built: the log, the
    pinned slots and the frame. *)
Lemma pin_initial_values_after_layout (format_value : pyfloat → string)
    (p : Problem) (tr : Transcription) (m ms : nat)
    (indices : gmap string slot) (lbx ubx : list pyfloat) :
  reaches_layout p → merged_layout p tr m ms indices →
  (∀ v val, v ∈ history_chain p →
            history_value p (history p m) v = Some val →
            times p (Some v) ≠ []) →
  length lbx = t_n_x tr → length ubx = t_n_x tr →
  let inds := slot_as_list (t_n_x tr) <$> indices in
  ∃ lbx' ubx',
    run (pin_initial_values format_value p tr m (lbx, ubx))
    = (history_warnings format_value p (history p m) (first_position inds)
         lbx ubx (history_chain p),
       Ok (lbx', ubx')) ∧
    length lbx' = length lbx ∧ length ubx' = length ubx ∧
    (∀ v val, v ∈ history_chain p →
              history_value p (history p m) v = Some val →
              ∃ s rest,
                indices !! v = Some s ∧
                inds !! v = Some (first_of_slot s :: rest) ∧
                lbx' !! first_of_slot s = Some val ∧
                ubx' !! first_of_slot s = Some val) ∧
    (∀ i, (∀ v val s, v ∈ history_chain p →
                      history_value p (history p m) v = Some val →
                      indices !! v = Some s → first_of_slot s ≠ i) →
          lbx' !! i = lbx !! i ∧ ubx' !! i = ubx !! i).
Proof.
  intros Hreach Hl Hgrid Hlbx Hubx inds.
  assert (Hslot : ∀ v val, v ∈ history_chain p →
             history_value p (history p m) v = Some val →
             ∃ s rest, indices !! v = Some s ∧ covers s (first_of_slot s) ∧
                       first_of_slot s < t_n_x tr ∧
                       inds !! v = Some (first_of_slot s :: rest) ∧
                       first_position inds v = first_of_slot s).
  { intros v val Hv Hval. specialize (Hgrid v val Hv Hval).
    assert (Hn : 0 < length (times p (Some v))).
    { destruct (times p (Some v)); [contradiction | simpl; lia]. }
    assert (Hs : ∃ s, indices !! v = Some s ∧ covers s (first_of_slot s)).
    { unfold history_chain in Hv. rewrite app_assoc in Hv.
      apply elem_of_app in Hv as [Hs | Hc].
      - eexists. split.
        + apply (mg_state _ _ _ _ _ Hl). unfold state_chain.
          rewrite app_assoc. apply elem_of_app. left. exact Hs.
        + apply covers_shift_slot. unfold state_slot, state_width.
          rewrite (reaches_layout_state_size p v Hreach Hs).
          destruct (decide (v ∈ integrated_states p)); simpl; lia.
      - eexists. split; [apply (mg_control _ _ _ _ _ Hl); exact Hc |].
        simpl. unfold control_width. lia. }
    destruct Hs as (s & Hs & Hc).
    assert (Hlt : first_of_slot s < t_n_x tr)
      by exact (mg_within _ _ _ _ _ Hl v s _ Hs Hc).
    destruct (slot_as_list_first (t_n_x tr) s Hc Hlt) as [rest Hrest].
    assert (Hinds : inds !! v = Some (first_of_slot s :: rest)).
    { unfold inds. rewrite lookup_fmap, Hs. simpl. rewrite Hrest.
      reflexivity. }
    exists s, rest. split; [exact Hs |]. split; [exact Hc |].
    split; [exact Hlt |]. split; [exact Hinds |].
    unfold first_position. rewrite Hinds. reflexivity. }
  destruct (pin_initial_values_fold format_value p inds (history p m)
              (first_position inds) (history_chain p) lbx ubx [])
    as (lbx' & ubx' & Hfold & Hl1 & Hl2 & Hpin & Hframe).
  { exact (history_chain_NoDup p Hreach). }
  { lia. }
  { split.
    - intros v val Hv Hval.
      destruct (Hslot v val Hv Hval) as (s & rest & _ & _ & Hlt & Hi & ->).
      split; [lia | eauto].
    - intros v1 v2 val1 val2 Hv1 Hv2 Hval1 Hval2 Heq.
      destruct (Hslot v1 val1 Hv1 Hval1) as (s1 & r1 & Hs1 & Hc1 & _ & _ & E1).
      destruct (Hslot v2 val2 Hv2 Hval2) as (s2 & r2 & Hs2 & Hc2 & _ & _ & E2).
      rewrite E1, E2 in Heq. rewrite Heq in Hc1.
      exact (mg_disjoint _ _ _ _ _ Hl _ _ _ _ _ Hs1 Hs2 Hc1 Hc2). }
  exists lbx', ubx'.
  split.
  { unfold run, pin_initial_values, mbind, M_bind, lift, index.
    rewrite (mg_lists _ _ _ _ _ Hl). exact Hfold. }
  split; [exact Hl1 |]. split; [lia |].
  split.
  { intros v val Hv Hval.
    destruct (Hslot v val Hv Hval) as (s & rest & Hs & _ & _ & Hi & E).
    destruct (Hpin v val Hv Hval) as [H1 H2]. rewrite E in H1, H2.
    exists s, rest. auto. }
  intros i Hi. apply Hframe.
  intros v val Hv Hval.
  destruct (Hslot v val Hv Hval) as (s & rest & Hs & _ & _ & _ & ->).
  exact (Hi v val s Hv Hval Hs).
Qed.


(** ** Delayed feedback *)

Lemma np_min_le_head (x : Qc) (l : list Qc) :
  ∃ m, np_min (x :: l) = Ok m ∧ (m ≤ x)%Qc.
Proof.
  simpl. eexists. split; [reflexivity |].
  revert x. induction l as [| y l IH]; intros x; simpl.
  - apply Qcle_refl.
  - destruct (decide (y < x)%Qc) as [Hlt | Hge].
    + eapply Qcle_trans; [apply IH | apply Qclt_le_weak; exact Hlt].
    + apply IH.
Qed.

Lemma searchsorted_le (a : list Qc) (v x : Qc) (i : nat) :
  a !! i = Some x → (v ≤ x)%Qc → searchsorted a v ≤ i.
Proof.
  revert i. induction a as [| y a IH]; intros i Hi Hx; [discriminate |].
  simpl. destruct (decide (y < v)%Qc) as [Hlt | Hge]; [| lia].
  destruct i as [| i]; simpl in Hi.
  - injection Hi as ->. exfalso.
    apply (Qclt_not_le _ _ Hlt). exact Hx.
  - specialize (IH i Hi Hx). lia.
Qed.

Section delays.
Context (p : Problem) (dc : DelayCollaborators) (tr : Transcription)
        (X : list Qc).

Lemma delay_constraint_asserts (ensemble_member : nat) (c : constraints)
    (df : DelayedFeedback) (log : list event) :
  resolvable p tr X ensemble_member df → ¬ delays_finite df →
  delay_constraint p dc tr X ensemble_member c df log
  = (log, Raise (AssertionError delay_assertion_message)).
Proof.
  intros [(values & Hsv & _) _ _] Hnf.
  unfold delay_constraint, mbind, M_bind, lift. rewrite Hsv.
  unfold delays_finite in Hnf.
  destruct (forallb isfinite (df_delay df)); [contradiction | reflexivity].
Qed.

Lemma fsub_broadcast_length (a b : list pyfloat) :
  length a = length b ∨ length a = 1 →
  ∃ r, fsub_broadcast a b = Ok r ∧ length r = length b.
Proof.
  intros H. unfold fsub_broadcast.
  destruct (decide (length a = length b)) as [E | N].
  - eexists. split; [reflexivity |]. rewrite length_zip_with. lia.
  - destruct H as [? | H1]; [contradiction |].
    destruct a as [| x [| y a]]; try discriminate.
    eexists. split; [reflexivity |]. apply length_fmap.
Qed.

Lemma delay_constraint_emits (ensemble_member : nat) (c : constraints)
    (df : DelayedFeedback) (log : list event) :
  times p None ≠ [] →
  resolvable p tr X ensemble_member df → delays_finite df →
  ∃ block log',
    delay_constraint p dc tr X ensemble_member c df log
    = (log ++ log',
       Ok (mkConstraints (c_g c ++ [block])
             (c_lbg c ++ replicate (length (times p None)) (Fin 0))
             (c_ubg c ++ replicate (length (times p None)) (Fin 0)))) ∧
    length block = length (times p None) ∧
    (log' = [] ∨
     log' = [LogWarning (incomplete_history_message (df_expression df))]).
Proof.
  intros Hgrid [(values & Hsv & Hshape) Hdelays Hnonneg] Hfin.
  unfold delay_constraint, mbind, M_bind, lift. rewrite Hsv.
  unfold delays_finite in Hfin. rewrite Hfin.
  unfold mret, M_ret. cbn beta iota.
  assert (Hlen : length (times p None) = length (finite_value <$> df_delay df))
    by (rewrite length_fmap; lia).
  destruct (decide (length (times p None)
                    = length (finite_value <$> df_delay df))) as [_ | []];
    [| exact Hlen].
  set (delayed_times := zip_with Qcminus (times p None)
                          (finite_value <$> df_delay df)).
  assert (Hdl : length delayed_times = length (times p None)).
  { unfold delayed_times. rewrite length_zip_with. lia. }
  destruct (times p None) as [| t0 ts] eqn:Etimes; [contradiction |].
  destruct (df_delay df) as [| d0 ds] eqn:Edelay; [discriminate |].
  assert (Hd0 : ∃ q0, d0 = Fin q0 ∧ (0 ≤ q0)%Qc).
  { simpl in Hfin. apply andb_true_iff in Hfin as [Hf _].
    destruct d0 as [q0 | | |]; try discriminate.
    exists q0. split; [reflexivity |]. apply Hnonneg. left. }
  destruct Hd0 as (q0 & -> & Hq0).
  unfold delayed_times at 1. cbn [fmap list_fmap zip_with finite_value].
  destruct (np_min_le_head (t0 - q0)%Qc
              (zip_with Qcminus ts (finite_value <$> ds)))
    as (hist_earliest & Hmin & Hle).
  unfold Ok in *. rewrite Hmin. cbn beta iota.
  assert (Hearliest : (hist_earliest ≤ t0)%Qc).
  { eapply Qcle_trans; [exact Hle |].
    rewrite <- (Qcplus_0_r t0) at 2. unfold Qcminus.
    rewrite <- (Qcplus_le_mono_l _ _ t0).
    rewrite <- (Qcopp_involutive 0). apply Qcopp_le_compat.
    exact Hq0. }
  set (out_times := dc_history_times dc ++ t0 :: ts).
  assert (Hind : searchsorted out_times hist_earliest
                 ≤ length (dc_history_times dc)).
  { apply (searchsorted_le out_times hist_earliest t0); [| exact Hearliest].
    unfold out_times. rewrite lookup_app_r by lia.
    rewrite Nat.sub_diag. reflexivity. }
  destruct (lookup_lt_is_Some_2 out_times
              (searchsorted out_times hist_earliest)) as [t Ht].
  { assert (length out_times = length (dc_history_times dc) + S (length ts))
      by (unfold out_times; rewrite length_app; reflexivity).
    lia. }
  unfold index. rewrite Ht. unfold Ok. cbn beta iota.
  set (start := if decide (t ≠ hist_earliest)
                then (Z.of_nat (searchsorted out_times hist_earliest) - 1)%Z
                else Z.of_nat (searchsorted out_times hist_earliest)).
  set (method := interpolation_method p (df_in_canonical df)).
  set (in_values :=
         Fin <$> (if decide (df_in_sign df < 0)%Z
                  then scale (qz (df_in_sign df))
                         (scale (variable_nominal p (df_in_canonical df)) values)
                  else scale (variable_nominal p (df_in_canonical df)) values)).
  assert (Hin : length in_values = length values).
  { unfold in_values, scale. destruct (decide (df_in_sign df < 0)%Z);
      rewrite !length_fmap; reflexivity. }
  set (x_in := if decide (length (t0 :: ts)
                          ≠ length (times p (Some (df_in_canonical df))))
               then (λ t, dc_interpolate dc
                            (times p (Some (df_in_canonical df)))
                            in_values t method) <$> (t0 :: ts)
               else in_values).
  assert (Hx : length x_in = length (t0 :: ts) ∨ length x_in = 1).
  { unfold x_in.
    destruct (decide (length (t0 :: ts)
                      ≠ length (times p (Some (df_in_canonical df)))))
      as [Hne | He].
    - left. apply length_fmap.
    - rewrite Hin. destruct Hshape as [Hs | Hs]; [left | right; exact Hs].
      rewrite Hs. destruct (decide (length (t0 :: ts)
                                    = length (times p (Some (df_in_canonical df)))));
        [congruence | contradiction]. }
  destruct (existsb isnan (py_drop start (df_history df))).
  - cbn beta iota. unfold emit. cbn beta iota.
    match goal with
    | |- context [fsub_broadcast ?a ?b] =>
        destruct (fsub_broadcast_length a b) as (r & Hr & Hrl)
    end.
    { rewrite length_fmap. fold delayed_times.
      change (length x_in = length delayed_times ∨ length x_in = 1).
      rewrite Hdl. exact Hx. }
    unfold Ok in Hr. rewrite Hr. cbn beta iota.
    eexists _, _. split; [reflexivity |].
    split; [| right; reflexivity].
    rewrite length_fmap, Hrl, length_fmap. exact Hdl.
  - cbn beta iota.
    match goal with
    | |- context [fsub_broadcast ?a ?b] =>
        destruct (fsub_broadcast_length a b) as (r & Hr & Hrl)
    end.
    { rewrite length_fmap. fold delayed_times.
      change (length x_in = length delayed_times ∨ length x_in = 1).
      rewrite Hdl. exact Hx. }
    unfold Ok in Hr. rewrite Hr. cbn beta iota.
    eexists _, []. rewrite app_nil_r. split; [reflexivity |].
    split; [| left; reflexivity].
    rewrite length_fmap, Hrl, length_fmap. exact Hdl.
Qed.

End delays.

Section delay_loops.
Context (p : Problem) (dc : DelayCollaborators) (tr : Transcription)
        (X : list Qc).

Lemma extended_by_refl (n : nat) (c : constraints) : extended_by n c c 0.
Proof.
  exists []. rewrite Nat.mul_0_r. simpl. rewrite !app_nil_r.
  destruct c. auto.
Qed.

Lemma extended_by_trans (n : nat) (c1 c2 c3 : constraints) (k1 k2 : nat) :
  extended_by n c1 c2 k1 → extended_by n c2 c3 k2 →
  extended_by n c1 c3 (k1 + k2).
Proof.
  intros (b1 & -> & Hl1 & Hf1) (b2 & -> & Hl2 & Hf2). simpl.
  exists (b1 ++ b2). rewrite <- !app_assoc, <- !replicate_add.
  rewrite Nat.mul_add_distr_l.
  split; [reflexivity |]. split; [rewrite length_app; lia |].
  apply Forall_app. auto.
Qed.

Lemma delay_inner_loop (ensemble_member : nat) (l : list DelayedFeedback)
    (c : constraints) (log : list event) :
  times p None ≠ [] →
  Forall (resolvable p tr X ensemble_member) l →
  if decide (Forall delays_finite l)
  then ∃ c' log',
      foldMM (delay_constraint p dc tr X ensemble_member) c l log
      = (log ++ log', Ok c') ∧
      extended_by (length (times p None)) c c' (length l) ∧
      Forall is_warning log'
  else ∃ log',
      foldMM (delay_constraint p dc tr X ensemble_member) c l log
      = (log ++ log', Raise (AssertionError delay_assertion_message)) ∧
      Forall is_warning log'.
Proof.
  intros Hgrid. revert c log.
  induction l as [| df l IH]; intros c log Hres.
  - destruct (decide (Forall delays_finite [])) as [_ | []]; [| constructor].
    exists c, []. rewrite app_nil_r.
    split; [reflexivity |]. split; [apply extended_by_refl | constructor].
  - apply Forall_cons in Hres as [Hdf Hres].
    destruct (decide (delays_finite df)) as [Hfin | Hnf].
    + destruct (delay_constraint_emits p dc tr X ensemble_member c df log
                  Hgrid Hdf Hfin) as (block & log1 & Hstep & Hblock & Hlog1).
      set (c1 := mkConstraints (c_g c ++ [block])
                   (c_lbg c ++ replicate (length (times p None)) (Fin 0))
                   (c_ubg c ++ replicate (length (times p None)) (Fin 0)))
        in *.
      rewrite (foldMM_cons_Ok _ _ _ _ _ _ _ Hstep).
      assert (Hw1 : Forall is_warning log1).
      { destruct Hlog1 as [-> | ->]; repeat constructor. eexists. reflexivity. }
      assert (Hext1 : extended_by (length (times p None)) c c1 1).
      { exists [block]. rewrite Nat.mul_1_r.
        split; [reflexivity |]. split; [reflexivity |].
        constructor; [exact Hblock | constructor]. }
      specialize (IH c1 (log ++ log1) Hres).
      destruct (decide (Forall delays_finite l)) as [Hall | Hnall].
      * destruct (decide (Forall delays_finite (df :: l))) as [_ | []];
          [| constructor; assumption].
        destruct IH as (c' & log' & Hfold & Hext & Hw).
        exists c', (log1 ++ log'). rewrite app_assoc.
        split; [exact Hfold |].
        split; [exact (extended_by_trans _ _ _ _ 1 _ Hext1 Hext) |].
        apply Forall_app. auto.
      * destruct (decide (Forall delays_finite (df :: l))) as [Hc | _].
        { apply Forall_cons in Hc as [_ Hc]. contradiction. }
        destruct IH as (log' & Hfold & Hw).
        exists (log1 ++ log'). rewrite app_assoc.
        split; [exact Hfold | apply Forall_app; auto].
    + destruct (decide (Forall delays_finite (df :: l))) as [Hc | _].
      { apply Forall_cons in Hc as [Hc _]. contradiction. }
      exists []. rewrite app_nil_r. split; [| constructor].
      apply foldMM_cons_Raise.
      apply delay_constraint_asserts; assumption.
Qed.

Lemma delay_outer_loop (feedback : nat → list DelayedFeedback)
    (members : list nat) (c : constraints) (log : list event) :
  times p None ≠ [] →
  Forall (λ m, Forall (resolvable p tr X m) (feedback m)) members →
  if decide (Forall (λ m, Forall delays_finite (feedback m)) members)
  then ∃ c' log',
      foldMM (λ c ensemble_member,
                foldMM (delay_constraint p dc tr X ensemble_member) c
                       (feedback ensemble_member)) c members log
      = (log ++ log', Ok c') ∧
      extended_by (length (times p None)) c c' (feedback_count feedback members) ∧
      Forall is_warning log'
  else ∃ log',
      foldMM (λ c ensemble_member,
                foldMM (delay_constraint p dc tr X ensemble_member) c
                       (feedback ensemble_member)) c members log
      = (log ++ log', Raise (AssertionError delay_assertion_message)) ∧
      Forall is_warning log'.
Proof.
  intros Hgrid. revert c log.
  set (body := λ c ensemble_member,
                 foldMM (delay_constraint p dc tr X ensemble_member) c
                        (feedback ensemble_member)).
  induction members as [| m members IH]; intros c log Hres.
  - destruct (decide (Forall _ [])) as [_ | []]; [| constructor].
    exists c, []. rewrite app_nil_r.
    split; [reflexivity |]. split; [apply extended_by_refl | constructor].
  - apply Forall_cons in Hres as [Hm Hres].
    pose proof (delay_inner_loop m (feedback m) c log Hgrid Hm) as Hinner.
    destruct (decide (Forall delays_finite (feedback m))) as [Hfin | Hnf].
    + destruct Hinner as (c1 & log1 & Hstep & Hext1 & Hw1).
      rewrite (foldMM_cons_Ok body c c1 m members log (log ++ log1) Hstep).
      specialize (IH c1 (log ++ log1) Hres).
      destruct (decide (Forall (λ m, Forall delays_finite (feedback m))
                               members)) as [Hall | Hnall].
      * destruct (decide (Forall (λ m, Forall delays_finite (feedback m))
                                 (m :: members))) as [_ | []];
          [| constructor; assumption].
        destruct IH as (c' & log' & Hfold & Hext & Hw).
        exists c', (log1 ++ log'). rewrite app_assoc.
        split; [exact Hfold |].
        split; [exact (extended_by_trans _ _ _ _ _ _ Hext1 Hext) |].
        apply Forall_app. auto.
      * destruct (decide (Forall (λ m, Forall delays_finite (feedback m))
                                 (m :: members))) as [Hc | _].
        { apply Forall_cons in Hc as [_ Hc]. contradiction. }
        destruct IH as (log' & Hfold & Hw).
        exists (log1 ++ log'). rewrite app_assoc.
        split; [exact Hfold | apply Forall_app; auto].
    + destruct (decide (Forall (λ m, Forall delays_finite (feedback m))
                               (m :: members))) as [Hc | _].
      { apply Forall_cons in Hc as [Hc _]. contradiction. }
      destruct Hinner as (log1 & Hstep & Hw1).
      exists log1. split; [| exact Hw1].
      apply (foldMM_cons_Raise body). exact Hstep.
Qed.


End delay_loops.

(** ** Decoding a solved vector *)

Lemma total_width_app (w : string → nat) (l1 l2 : list string) :
  total_width w (l1 ++ l2) = total_width w l1 + total_width w l2.
Proof. induction l1 as [| a l1 IH]; simpl; [reflexivity | rewrite IH; lia]. Qed.

Lemma total_width_ext (w1 w2 : string → nat) (l : list string) :
  (∀ v, v ∈ l → w1 v = w2 v) → total_width w1 l = total_width w2 l.
Proof.
  induction l as [| a l IH]; intros H; simpl; [reflexivity |].
  rewrite H by left. rewrite IH; [reflexivity |].
  intros v Hv. apply H. right. exact Hv.
Qed.

Lemma offset_in_ext (w1 w2 : string → nat) (l : list string) (off : nat)
    (v : string) :
  (∀ u, u ∈ l → w1 u = w2 u) → offset_in w1 l off v = offset_in w2 l off v.
Proof.
  revert off. induction l as [| a l IH]; intros off H; simpl; [reflexivity |].
  destruct (decide (a = v)); [reflexivity |].
  rewrite H by left. apply IH. intros u Hu. apply H. right. exact Hu.
Qed.

Lemma offset_in_app_l (w : string → nat) (l1 l2 : list string) (off : nat)
    (v : string) :
  v ∈ l1 → offset_in w (l1 ++ l2) off v = offset_in w l1 off v.
Proof.
  revert off. induction l1 as [| a l1 IH]; intros off Hv; [inversion Hv |].
  simpl. destruct (decide (a = v)); [reflexivity |].
  apply IH. apply elem_of_cons in Hv as [? | ?]; [congruence | assumption].
Qed.

Lemma offset_in_app_r (w : string → nat) (l1 l2 : list string) (off : nat)
    (v : string) :
  v ∉ l1 →
  offset_in w (l1 ++ l2) off v = offset_in w l2 (off + total_width w l1) v.
Proof.
  revert off. induction l1 as [| a l1 IH]; intros off Hv; simpl.
  - rewrite Nat.add_0_r. reflexivity.
  - apply not_elem_of_cons in Hv as [Hne Hv].
    destruct (decide (a = v)); [congruence |].
    rewrite IH by exact Hv. f_equal. lia.
Qed.

Lemma offset_in_shift (w : string → nat) (l : list string) (off k : nat)
    (v : string) :
  offset_in w l (k + off) v = k + offset_in w l off v.
Proof.
  revert off. induction l as [| a l IH]; intros off; simpl; [reflexivity |].
  destruct (decide (a = v)); [reflexivity |].
  rewrite <- IH. f_equal. lia.
Qed.

Lemma offset_in_base (w : string → nat) (l : list string) (off : nat)
    (v : string) :
  offset_in w l off v = off + offset_in w l 0 v.
Proof. rewrite <- offset_in_shift. f_equal. lia. Qed.

Ltac offsets_from_zero :=
  repeat match goal with
         | |- context [offset_in ?w ?l ?off ?v] =>
             lazymatch off with
             | 0 => fail
             | _ => rewrite (offset_in_base w l off v)
             end
         end.

Lemma slice_of_length {A} (a : list A) (start stop : nat) :
  stop ≤ length a → length (slice_of a start stop) = stop - start.
Proof. intros H. unfold slice_of. rewrite length_take, length_drop. lia. Qed.

Lemma slice_of_one {A} (a : list A) (i : nat) (x : A) :
  a !! i = Some x → slice_of a i (i + 1) = [x].
Proof.
  intros H. unfold slice_of. replace (i + 1 - i) with 1 by lia.
  rewrite (drop_S _ _ _ H). reflexivity.
Qed.

Section extraction.
Context (p : Problem) (X : list Qc).

Lemma extract_controls_fold (l : list string) (off : nat)
    (r : gmap string result_value) :
  NoDup l →
  (foldl (extract_control p X) (off, r) l).1
  = off + total_width (control_width p) l ∧
  (∀ v, v ∉ l → (foldl (extract_control p X) (off, r) l).2 !! v = r !! v) ∧
  (∀ v, v ∈ l →
        (foldl (extract_control p X) (off, r) l).2 !! v
        = decoded p X v (Slice (offset_in (control_width p) l off v)
                               (offset_in (control_width p) l off v
                                + control_width p v))).
Proof.
  revert off r. induction l as [| a l IH]; intros off r Hnd.
  - simpl. rewrite Nat.add_0_r. split; [reflexivity |].
    split; [reflexivity |]. intros v Hv. inversion Hv.
  - apply NoDup_cons in Hnd as [Ha Hnd].
    cbn [foldl total_width foldr offset_in].
    unfold extract_control at 2 4 6. fold (control_width p a).
    destruct (IH (off + control_width p a)
                (<[a := RVector (scale (variable_nominal p a)
                                   (slice_of X off (off + control_width p a)))]> r)
                Hnd) as (Hoff & Hother & Hslots).
    rewrite !Nat.add_assoc.
    split; [exact Hoff |].
    split.
    + intros x Hx. apply not_elem_of_cons in Hx as [Hne Hx].
      rewrite Hother by exact Hx. apply lookup_insert_ne. congruence.
    + intros x Hx. destruct (decide (a = x)) as [<- | Hne].
      * rewrite Hother by exact Ha. rewrite lookup_insert_eq. reflexivity.
      * apply elem_of_cons in Hx as [? | Hx]; [congruence |].
        apply Hslots. exact Hx.
Qed.

Lemma extract_collocated_fold (sizes : gmap string nat) (l : list string)
    (off : nat) (r : gmap string result_value) :
  NoDup l → (∀ v, v ∈ l → sizes !! v = Some 1) →
  (foldl (extract_collocated p X) (off, r) l).1
  = off + total_width (state_width p sizes) l ∧
  (∀ v, v ∉ l ∨ v ∈ integrated_states p →
        (foldl (extract_collocated p X) (off, r) l).2 !! v = r !! v) ∧
  (∀ v, v ∈ l → v ∉ integrated_states p →
        (foldl (extract_collocated p X) (off, r) l).2 !! v
        = decoded p X v (state_slot p sizes v
                           (offset_in (state_width p sizes) l off v))).
Proof.
  revert off r. induction l as [| a l IH]; intros off r Hnd Hsz.
  - simpl. rewrite Nat.add_0_r. split; [reflexivity |].
    split; [reflexivity |]. intros v Hv. inversion Hv.
  - apply NoDup_cons in Hnd as [Ha Hnd].
    assert (Hsz' : ∀ v, v ∈ l → sizes !! v = Some 1)
      by (intros v Hv; apply Hsz; right; exact Hv).
    assert (Hw : state_width p sizes a
                 = if decide (a ∈ integrated_states p) then 1
                   else length (times p (Some a))).
    { unfold state_width. rewrite (Hsz a) by left. simpl.
      destruct (decide (a ∈ integrated_states p)); lia. }
    cbn [foldl total_width foldr offset_in].
    unfold extract_collocated at 2 4 6.
    destruct (decide (a ∈ integrated_states p)) as [Hi | Hi].
    + destruct (IH (off + 1) r Hnd Hsz') as (Hoff & Hother & Hslots).
      rewrite Hw, !Nat.add_assoc.
      split; [exact Hoff |].
      split.
      { intros x Hx. apply Hother.
        destruct Hx as [Hx | Hx]; [left | right; exact Hx].
        intros Hc. apply Hx. right. exact Hc. }
      intros x Hx Hxi. destruct (decide (a = x)) as [<- | Hne];
        [contradiction |].
      apply elem_of_cons in Hx as [? | Hx]; [congruence |].
      apply Hslots; assumption.
    + destruct (IH (off + length (times p (Some a)))
                  (<[a := RVector (scale (variable_nominal p a)
                             (slice_of X off (off + length (times p (Some a)))))]> r)
                  Hnd Hsz') as (Hoff & Hother & Hslots).
      rewrite Hw, !Nat.add_assoc.
      split; [exact Hoff |].
      split.
      * intros x Hx. rewrite Hother.
        -- apply lookup_insert_ne. intros <-.
           destruct Hx as [Hx | Hx]; [apply Hx; left | contradiction].
        -- destruct Hx as [Hx | Hx]; [left | right; exact Hx].
           intros Hc. apply Hx. right. exact Hc.
      * intros x Hx Hxi. destruct (decide (a = x)) as [<- | Hne].
        -- rewrite Hother by (left; exact Ha). rewrite lookup_insert_eq.
           unfold decoded, state_slot.
           destruct (decide (a ∈ integrated_states p)); [contradiction |].
           rewrite Hw. reflexivity.
        -- apply elem_of_cons in Hx as [? | Hx]; [congruence |].
           apply Hslots; assumption.
Qed.

End extraction.

Section extraction_loops.
Context (p : Problem) (sizes : gmap string nat) (X : list Qc).

Lemma extract_path_fold (l : list string) (off : nat)
    (r : gmap string result_value) :
  NoDup l →
  (∀ v, v ∈ l → is_Some (sizes !! v) ∧ (v ∉ integrated_states p) ∧
                length (times p (Some v)) = length (times p None)) →
  off + total_width (state_width p sizes) l ≤ length X →
  ∃ r',
    foldM (extract_path_variable p sizes X) (off, r) l
    = Ok (off + total_width (state_width p sizes) l, r') ∧
    (∀ v, v ∉ l → r' !! v = r !! v) ∧
    (∀ v, v ∈ l → sizes !! v = Some 1 →
          r' !! v = decoded p X v
                      (state_slot p sizes v
                         (offset_in (state_width p sizes) l off v))).
Proof.
  revert off r. induction l as [| a l IH]; intros off r Hnd Hok Hlen.
  - exists r. simpl. rewrite Nat.add_0_r. split; [reflexivity |].
    split; [reflexivity |]. intros v Hv. inversion Hv.
  - apply NoDup_cons in Hnd as [Ha Hnd].
    destruct (Hok a) as ([s Hs] & Hi & Ht); [left |].
    assert (Hw : state_width p sizes a = length (times p None) * s).
    { unfold state_width. rewrite Hs, Ht.
      destruct (decide (a ∈ integrated_states p)); [contradiction |].
      reflexivity. }
    assert (Hlen' : off + (state_width p sizes a
                           + total_width (state_width p sizes) l) ≤ length X)
      by exact Hlen.
    clear Hlen. rename Hlen' into Hlen. rewrite Hw in Hlen.
    assert (Hstep : ∃ value,
               extract_path_variable p sizes X (off, r) a
               = Ok (off + length (times p None) * s, <[a := value]> r) ∧
               (s = 1 →
                Some value
                = decoded p X a (Slice off (off + length (times p None) * s)))).
    { unfold extract_path_variable, size_lookup. rewrite Hs. simpl.
      destruct (decide (1 < s)) as [Hs1 | Hs1].
      - unfold reshape.
        rewrite slice_of_length by lia.
        destruct (decide (off + length (times p None) * s - off
                          = s * length (times p None))) as [_ | []]; [| lia].
        simpl. eexists. split; [reflexivity | lia].
      - simpl. eexists. split; [reflexivity |].
        intros ->. unfold decoded. simpl.
        rewrite Nat.mul_1_r. reflexivity. }
    destruct Hstep as (value & Hstep & Hvalue).
    destruct (IH (off + length (times p None) * s) (<[a := value]> r) Hnd)
      as (r' & Hfold & Hother & Hslots).
    { intros v Hv. apply Hok. right. exact Hv. }
    { lia. }
    exists r'. cbn [foldM total_width foldr offset_in].
    rewrite Hstep, Hw. simpl. rewrite !Nat.add_assoc.
    split; [exact Hfold |].
    split.
    + intros x Hx. apply not_elem_of_cons in Hx as [Hne Hx].
      rewrite Hother by exact Hx. apply lookup_insert_ne. congruence.
    + intros x Hx Hsx. destruct (decide (a = x)) as [<- | Hne].
      * rewrite Hother by exact Ha. rewrite lookup_insert_eq.
        rewrite Hs in Hsx. injection Hsx as ->.
        rewrite (Hvalue eq_refl). unfold state_slot.
        destruct (decide (a ∈ integrated_states p)); [contradiction |].
        rewrite Hw. reflexivity.
      * apply elem_of_cons in Hx as [? | Hx]; [congruence |].
        apply Hslots; assumption.
Qed.

Lemma extract_extra_fold (l : list string) (off : nat)
    (r : gmap string result_value) :
  NoDup l →
  (∀ v, v ∈ l → ∃ s, sizes !! v = Some s ∧ 1 ≤ s) →
  off + total_width (extra_width sizes) l ≤ length X →
  ∃ r',
    foldM (extract_extra_variable p sizes X) (off, r) l
    = Ok (off + total_width (extra_width sizes) l, r') ∧
    (∀ v, v ∉ l → r' !! v = r !! v) ∧
    (∀ v, v ∈ l → sizes !! v = Some 1 →
          r' !! v = decoded p X v
                      (Slice (offset_in (extra_width sizes) l off v)
                             (offset_in (extra_width sizes) l off v
                              + extra_width sizes v))).
Proof.
  revert off r. induction l as [| a l IH]; intros off r Hnd Hok Hlen.
  - exists r. simpl. rewrite Nat.add_0_r. split; [reflexivity |].
    split; [reflexivity |]. intros v Hv. inversion Hv.
  - apply NoDup_cons in Hnd as [Ha Hnd].
    destruct (Hok a) as (s & Hs & Hs1); [left |].
    assert (Hw : extra_width sizes a = s)
      by (unfold extra_width; rewrite Hs; reflexivity).
    assert (Hlen' : off + (extra_width sizes a
                           + total_width (extra_width sizes) l) ≤ length X)
      by exact Hlen.
    clear Hlen. rename Hlen' into Hlen. rewrite Hw in Hlen.
    assert (Hstep : ∃ value,
               extract_extra_variable p sizes X (off, r) a
               = Ok (off + s, <[a := value]> r) ∧
               (s = 1 → Some value = decoded p X a (Slice off (off + s)))).
    { unfold extract_extra_variable, size_lookup. rewrite Hs. simpl.
      destruct (decide (1 < s)) as [Hgt | Hle].
      - simpl. eexists. split; [reflexivity | lia].
      - destruct (lookup_lt_is_Some_2 X off) as [x Hx]; [lia |].
        unfold index. rewrite Hx. simpl. eexists. split; [reflexivity |].
        intros ->. unfold decoded. simpl.
        rewrite (slice_of_one X off x Hx). reflexivity. }
    destruct Hstep as (value & Hstep & Hvalue).
    destruct (IH (off + s) (<[a := value]> r) Hnd)
      as (r' & Hfold & Hother & Hslots).
    { intros v Hv. apply Hok. right. exact Hv. }
    { lia. }
    exists r'. cbn [foldM total_width foldr offset_in].
    rewrite Hstep, Hw. simpl. rewrite !Nat.add_assoc.
    split; [exact Hfold |].
    split.
    + intros x Hx. apply not_elem_of_cons in Hx as [Hne Hx].
      rewrite Hother by exact Hx. apply lookup_insert_ne. congruence.
    + intros x Hx Hsx. destruct (decide (a = x)) as [<- | Hne].
      * rewrite Hother by exact Ha. rewrite lookup_insert_eq.
        rewrite Hs in Hsx. injection Hsx as ->.
        rewrite (Hvalue eq_refl), Hw. reflexivity.
      * apply elem_of_cons in Hx as [? | Hx]; [congruence |].
        apply Hslots; assumption.
Qed.

Lemma extract_initial_derivatives_fold (dts : gmap string Qc) (offset : nat)
    (l : list (nat * (string * string))) (r : gmap string result_value) :
  (∀ k names, (k, names) ∈ l → offset + k < length X) →
  ∃ r',
    foldM (extract_initial_derivative p dts X offset) r l = Ok r' ∧
    ∀ v, (∀ k names, (k, names) ∈ l → v ≠ "initial_" +:+ names.2) →
         r' !! v = r !! v.
Proof.
  revert r. induction l as [| [k [state der]] l IH]; intros r Hk.
  - exists r. split; [reflexivity | reflexivity].
  - assert (Hstep : ∃ r1,
               extract_initial_derivative p dts X offset r (k, (state, der))
               = Ok r1 ∧
               ∀ v, v ≠ "initial_" +:+ der → r1 !! v = r !! v).
    { unfold extract_initial_derivative.
      destruct (dts !! state) as [dt |]; [| eauto].
      destruct (lookup_lt_is_Some_2 X (offset + k)) as [x Hx];
        [apply (Hk k (state, der)); left |].
      unfold index. rewrite Hx. simpl. eexists. split; [reflexivity |].
      intros v Hv. apply lookup_insert_ne. congruence. }
    destruct Hstep as (r1 & Hstep & Hother1).
    destruct (IH r1) as (r' & Hfold & Hother).
    { intros k' names Hin. apply (Hk k' names). right. exact Hin. }
    exists r'. cbn [foldM]. rewrite Hstep. simpl.
    split; [exact Hfold |].
    intros v Hv. rewrite Hother.
    + apply Hother1. apply (Hv k (state, der)). left.
    + intros k' names Hin. apply (Hv k' names). right. exact Hin.
Qed.

Lemma extract_integrated_fold (output : list Qc) (l : list string) (j : nat)
    (r : gmap string result_value) :
  Forall (λ v, v ∈ differentiated_states p ++ algebraic_states p) l →
  ∃ st, foldM (extract_integrated p output) (j, r) l = Ok st ∧
        ∀ v, v ∉ l → st.2 !! v = r !! v.
Proof.
  revert j r. induction l as [| a l IH]; intros j r Hl.
  - exists (j, r). split; reflexivity.
  - apply Forall_cons in Hl as [Ha Hl].
    assert (Hstep : extract_integrated p output (j, r) a
                    = Ok (j + 1,
                          <[a := RVector (scale (variable_nominal p a)
                                            (slice_of output j (j + 1)))]> r)).
    { unfold extract_integrated. case_decide; [reflexivity | contradiction]. }
    cbn [foldM]. rewrite Hstep, bind_Ok.
    destruct (IH (j + 1)
                (<[a := RVector (scale (variable_nominal p a)
                                   (slice_of output j (j + 1)))]> r) Hl)
      as (st & Hfold & Hother).
    exists st. split; [exact Hfold |].
    intros v Hv. apply not_elem_of_cons in Hv as [Hne Hv].
    rewrite Hother by exact Hv. apply lookup_insert_ne. congruence.
Qed.

Lemma insert_constant_inputs_other (l : list (string * list Qc))
    (r : gmap string result_value) (v : string) :
  v ∉ l.*1 →
  foldl (λ acc kv, <[kv.1 := RVector kv.2]> acc) r l !! v = r !! v.
Proof.
  revert r. induction l as [| [k x] l IH]; intros r Hv; [reflexivity |].
  simpl in *. apply not_elem_of_cons in Hv as [Hne Hv].
  rewrite IH by exact Hv. apply lookup_insert_ne. congruence.
Qed.

End extraction_loops.

Lemma enumerate_elem {A} (l : list A) (k : nat) (x : A) :
  (k, x) ∈ enumerate l → k < length l ∧ x ∈ l.
Proof.
  unfold enumerate. intros H.
  apply list_elem_of_lookup in H as [i Hi].
  apply lookup_zip_with_Some in Hi as (a & b & Heq & Ha & Hb).
  injection Heq as -> ->. apply lookup_seq in Ha as [-> Hlt].
  split; [exact Hlt | apply list_elem_of_lookup; eauto].
Qed.

Lemma reaches_layout_sizes (p : Problem) :
  reaches_layout p →
  (∀ v, v ∈ differentiated_states p ++ algebraic_states p →
        variable_sizes p !! v = Some 1) ∧
  (∀ v s, (v, s) ∈ path_variables p → variable_sizes p !! v = Some s) ∧
  (∀ v s, (v, s) ∈ extra_variables p → variable_sizes p !! v = Some s).
Proof.
  intros Hreach. pose proof (rl_names p Hreach) as Hnames.
  split; [intros v Hv; exact (reaches_layout_state_size p v Hreach Hv) |].
  unfold state_chain in Hnames. rewrite <- !app_assoc in Hnames.
  apply NoDup_app in Hnames as (_ & _ & Hnames).
  apply NoDup_app in Hnames as (_ & _ & Hnames).
  apply NoDup_app in Hnames as (Hndp & Hdisj & Hnames).
  apply NoDup_app in Hnames as (Hnde & _ & _).
  split.
  - intros v s Hin. unfold variable_sizes.
    rewrite set_sizes_not_in.
    + apply set_sizes_in; assumption.
    + intros Hc. apply (Hdisj v).
      * apply list_elem_of_fmap. exists (v, s). auto.
      * apply elem_of_app. left. exact Hc.
  - intros v s Hin. unfold variable_sizes. apply set_sizes_in; assumption.
Qed.

(** What [extract_controls] and [extract_states] return for a vector of
    the length of the decision vector. *)
Lemma extraction_reads_slots (p : Problem) (inp : ExtractInputs)
    (tr : Transcription) (ms m : nat) (indices : gmap string slot)
    (X : list Qc) :
  reaches_layout p → decodable p inp → m < ensemble_size p →
  merged_layout p tr m ms indices →
  ei_transcription inp = tr → length X = t_n_x tr →
  (∀ v, v ∈ controls p →
        ∃ s, indices !! v = Some s ∧ is_Some (decoded p X v s) ∧
             extract_controls p X !! v = decoded p X v s) ∧
  ∃ results,
    extract_states p inp X m = Ok results ∧
    ∀ v, read_through_slot p v →
         ∃ s, indices !! v = Some s ∧ is_Some (decoded p X v s) ∧
              results !! v = decoded p X v s.
Proof.
  intros Hreach Hdec Hm Hl Hinp HX.
  pose proof (rl_names p Hreach) as Hnames.
  destruct (reaches_layout_sizes p Hreach) as (Hsz_s & Hsz_p & Hsz_e).
  destruct Hdec as [Hpath Hint Hextra Hkeys].
  set (sizes := variable_sizes p) in *.
  set (cc := control_count p) in *.
  set (states := differentiated_states p ++ algebraic_states p) in *.
  assert (Hchain : state_chain p = states ++ path_variable_names p).
  { unfold state_chain, states. rewrite app_assoc. reflexivity. }
  rewrite Hchain in Hnames. rewrite <- !app_assoc in Hnames.
  apply NoDup_app in Hnames as (Hnd_s & Hdisj_s & Hnames).
  apply NoDup_app in Hnames as (Hnd_p & Hdisj_p & Hnames).
  apply NoDup_app in Hnames as (Hnd_e & Hdisj_e & Hnd_c).
  split.
  { intros v Hv. eexists. split; [apply (mg_control _ _ _ _ _ Hl); exact Hv |].
    split; [unfold decoded; simpl; eauto |].
    destruct (extract_controls_fold p X (controls p) 0 ∅ Hnd_c)
      as (_ & _ & Hslots).
    unfold extract_controls. apply Hslots. exact Hv. }
  (* the offsets of the three runs of slots *)
  set (w1 := total_width (state_width p sizes) states).
  set (w2 := total_width (state_width p sizes) (path_variable_names p)).
  set (w3 := total_width (extra_width sizes) (extra_variable_names p)).
  assert (Hms : ms = w1 + w2 + w3 + length (derivative_names p)).
  { rewrite (mg_total _ _ _ _ _ Hl), Hchain, total_width_app. reflexivity. }
  assert (Hblock : cc + (m + 1) * ms ≤ length X).
  { rewrite HX, (mg_n_x _ _ _ _ _ Hl).
    assert ((m + 1) * ms ≤ ensemble_size p * ms)
      by (apply Nat.mul_le_mono_r; lia). fold cc. lia. }
  set (base := cc + m * ms).
  (* the integrated states *)
  assert (H0 : ∃ st0,
             (if decide (0 < length (integrated_states p))
              then foldM (extract_integrated p (ei_integrators_output inp))
                         (0, ∅) (integrated_states p)
              else Ok (0, ∅)) = Ok st0 ∧
             ∀ v, v ∉ integrated_states p → st0.2 !! v = None).
  { destruct (decide (0 < length (integrated_states p))).
    - destruct (extract_integrated_fold p (ei_integrators_output inp)
                  (integrated_states p) 0 ∅ Hint) as (st0 & H & Hother).
      exists st0. split; [exact H |]. intros v Hv.
      rewrite Hother by exact Hv. apply lookup_empty.
    - exists (0, ∅). split; [reflexivity |]. intros; apply lookup_empty. }
  destruct H0 as (st0 & H0 & Hother0).
  (* the collocated states *)
  destruct (extract_collocated_fold p X sizes states base st0.2 Hnd_s Hsz_s)
    as (Hoff1 & Hother1 & Hslots1).
  set (st1 := foldl (extract_collocated p X) (base, st0.2) states) in *.
  (* the constant inputs *)
  set (r2 := foldl (λ acc kv, <[kv.1 := RVector kv.2]> acc) st1.2
               (ei_constant_inputs inp)).
  (* the path variables *)
  destruct (extract_path_fold p sizes X (path_variable_names p)
              (base + w1) r2 Hnd_p) as (r3 & Hfold3 & Hother3 & Hslots3).
  { intros v Hv. destruct (Hpath v Hv) as [Hi Ht].
    split; [| split; assumption].
    apply list_elem_of_fmap in Hv as ([v' s] & -> & Hin). simpl.
    rewrite (Hsz_p _ _ Hin). eauto. }
  { fold w2. unfold base. lia. }
  fold w2 in Hfold3.
  (* the extra variables *)
  destruct (extract_extra_fold p sizes X (extra_variable_names p)
              (base + w1 + w2) r3 Hnd_e) as (r4 & Hfold4 & Hother4 & Hslots4).
  { intros v Hv.
    apply list_elem_of_fmap in Hv as ([v' s] & -> & Hin). simpl.
    exists s. split; [exact (Hsz_e _ _ Hin) | exact (Hextra _ _ Hin)]. }
  { fold w3. unfold base. lia. }
  fold w3 in Hfold4.
  (* the initial derivatives *)
  destruct (extract_initial_derivatives_fold p X (t_initial_dt tr)
              (base + w1 + w2 + w3)
              (enumerate (zip (differentiated_states p) (derivative_names p)))
              r4) as (r5 & Hfold5 & Hother5).
  { intros k names Hin. apply enumerate_elem in Hin as [Hk _].
    rewrite length_zip in Hk. unfold base. lia. }
  exists r5. split.
  { unfold extract_states. rewrite Hinp.
    destruct (decide (ensemble_size p = 0)) as [? | _]; [lia |].
    rewrite bind_Ok, H0, bind_Ok.
    rewrite (mg_state_size _ _ _ _ _ Hl), (mg_control_size _ _ _ _ _ Hl),
            (mg_sizes _ _ _ _ _ Hl).
    replace (ensemble_size p * ms / ensemble_size p) with ms
      by (rewrite Nat.mul_comm, Nat.div_mul; lia).
    fold cc base states sizes. fold st1. rewrite Hoff1. fold w1.
    change (foldl (λ acc kv, <[kv.1 := RVector kv.2]> acc) st1.2
              (ei_constant_inputs inp)) with r2.
    rewrite Hfold3, bind_Ok, Hfold4, bind_Ok. exact Hfold5. }
  (* the decoded values *)
  assert (Hrest : ∀ v, v ∈ state_chain p ++ extra_variable_names p →
                       r5 !! v = r4 !! v).
  { intros v Hv. apply Hother5. intros k names Hin.
    apply enumerate_elem in Hin as [_ Hin].
    destruct names as [state der]. apply elem_of_zip_r in Hin. simpl.
    apply (Hkeys v Hv). exact Hin. }
  assert (Hci : ∀ v, v ∈ state_chain p ++ extra_variable_names p →
                     r2 !! v = st1.2 !! v).
  { intros v Hv. apply insert_constant_inputs_other. apply (Hkeys v Hv). }
  intros v [[Hs Hni] | [Hp | He]].
  - (* a collocated state *)
    assert (Hv : v ∈ state_chain p ++ extra_variable_names p).
    { rewrite Hchain, !elem_of_app. auto. }
    eexists. split.
    { apply (mg_state _ _ _ _ _ Hl). rewrite Hchain. apply elem_of_app. auto. }
    rewrite Hrest by exact Hv.
    rewrite Hother4 by (intros Hc; apply (Hdisj_s v Hs); rewrite elem_of_app;
                        right; rewrite elem_of_app; auto).
    rewrite Hother3 by (intros Hc; apply (Hdisj_s v Hs); rewrite elem_of_app;
                        auto).
    rewrite Hci by exact Hv. rewrite (Hslots1 v Hs Hni).
    rewrite Hchain, (offset_in_app_l _ _ _ _ _ Hs).
    unfold state_slot.
    destruct (decide (v ∈ integrated_states p)); [contradiction |].
    unfold decoded. simpl.
    split; [eauto |]. do 3 f_equal.
    unfold base, cc, sizes, states. offsets_from_zero.
    f_equal; lia.
  - (* a scalar path variable *)
    assert (Hpn : v ∈ path_variable_names p).
    { apply list_elem_of_fmap. exists (v, 1). auto. }
    assert (Hv : v ∈ state_chain p ++ extra_variable_names p).
    { rewrite Hchain, !elem_of_app. auto. }
    assert (Hns : v ∉ states).
    { intros Hc. apply (Hdisj_s v Hc). rewrite elem_of_app. auto. }
    eexists. split.
    { apply (mg_state _ _ _ _ _ Hl). rewrite Hchain. apply elem_of_app. auto. }
    rewrite Hrest by exact Hv.
    rewrite Hother4 by (intros Hc; apply (Hdisj_p v Hpn); rewrite elem_of_app;
                        auto).
    rewrite (Hslots3 v Hpn (Hsz_p _ _ Hp)).
    rewrite Hchain, (offset_in_app_r _ _ _ _ _ Hns).
    destruct (Hpath v Hpn) as [Hni _].
    unfold state_slot.
    destruct (decide (v ∈ integrated_states p)); [contradiction |].
    unfold decoded. simpl.
    split; [eauto |]. do 3 f_equal.
    unfold base, cc, w1. unfold sizes, states. offsets_from_zero.
    f_equal; lia.
  - (* a scalar extra variable *)
    assert (Hen : v ∈ extra_variable_names p).
    { apply list_elem_of_fmap. exists (v, 1). auto. }
    assert (Hv : v ∈ state_chain p ++ extra_variable_names p).
    { rewrite !elem_of_app. auto. }
    eexists. split; [apply (mg_extra _ _ _ _ _ Hl); exact Hen |].
    rewrite Hrest by exact Hv.
    rewrite (Hslots4 v Hen (Hsz_e _ _ He)).
    rewrite Hchain, total_width_app.
    unfold decoded. simpl.
    split; [eauto |]. do 3 f_equal.
    unfold base, cc, w1, w2. unfold sizes, states. offsets_from_zero.
    f_equal; lia.
Qed.

(** ** The round trip *)

Lemma scale_one (values : list Qc) : scale 1%Qc values = values.
Proof.
  unfold scale. rewrite <- (list_fmap_id values) at 2.
  apply list_fmap_ext. intros i x _. simpl. ring.
Qed.

Lemma write_read_slice {A} (X : list A) (start stop : nat) (values : list A) :
  (start < stop → stop ≤ length X) → length values = stop - start →
  ∃ X', set_slice X start stop (Array values) = Ok X' ∧
        length X' = length X ∧ slice_of X' start stop = values.
Proof.
  intros Hin Hlen. unfold set_slice.
  assert (Hk : slice_len X start stop = stop - start).
  { unfold slice_len, slice_of. rewrite length_take, length_drop. lia. }
  rewrite Hk. destruct (decide (length values = stop - start)) as [_ | []];
    [| exact Hlen].
  eexists. split; [reflexivity |].
  destruct (decide (start < stop)) as [Hlt | Hge].
  - specialize (Hin Hlt). split.
    + rewrite !length_app, length_take, length_drop. lia.
    + unfold slice_of. rewrite drop_app_length'
        by (rewrite length_take; lia).
      rewrite <- Hlen. apply take_app_length.
  - assert (values = []) as ->
      by (apply length_zero_iff_nil; lia).
    replace (stop - start) with 0 by lia. rewrite Nat.add_0_r. simpl.
    rewrite take_drop. split; [reflexivity |].
    unfold slice_of. replace (stop - start) with 0 by lia. reflexivity.
Qed.




(** ** The seed of a control

    A control without an entry in the bounds leaves all three arrays as they
    were, whatever the seed holds. *)
Lemma discretize_control_without_bounds (p : Problem)
    (given_bounds : gmap string (option bound_value * option bound_value))
    (seed_0 : gmap string Timeseries) (st st' : layout_state) (v : string) :
  given_bounds !! v = None →
  discretize_control p given_bounds seed_0 st v = Ok st' →
  a_lbx (ls_arrays st') = a_lbx (ls_arrays st) ∧
  a_ubx (ls_arrays st') = a_ubx (ls_arrays st) ∧
  a_x0 (ls_arrays st') = a_x0 (ls_arrays st).
Proof.
  intros Hb H. unfold discretize_control in H. rewrite Hb in H.
  destruct (set_slice _ _ _ _) as [e | discrete]; [discriminate |].
  simpl in H. injection H as <-. auto.
Qed.

(** A control with an entry in the bounds gets its seed written: the
    series on the control's own grid, zero outside its range, over the
    nominal. *)
Lemma discretize_control_with_bounds (p : Problem)
    (given_bounds : gmap string (option bound_value * option bound_value))
    (seed_0 : gmap string Timeseries) (st st' : layout_state) (v : string)
    (b : option bound_value * option bound_value) (s : Timeseries) :
  given_bounds !! v = Some b → seed_0 !! v = Some s →
  ls_offset st + length (times p (Some v)) ≤ length (a_x0 (ls_arrays st)) →
  discretize_control p given_bounds seed_0 st v = Ok st' →
  slice_of (a_x0 (ls_arrays st')) (ls_offset st)
           (ls_offset st + length (times p (Some v)))
  = (λ x, fdiv x (variable_nominal p v)) <$>
    interpolate_at p (times p (Some v)) s (Fin 0) (Fin 0)
                   (interpolation_method p v).
Proof.
  intros Hb Hs Hfit H. unfold discretize_control in H.
  rewrite Hb, Hs in H. destruct b as [b0 b1].
  destruct (set_slice (a_discrete _) _ _ _) as [e | discrete];
    [discriminate |].
  rewrite bind_Ok in H.
  destruct (match b0 with Some _ => _ | None => _ end) as [e | lbx];
    [discriminate |].
  rewrite bind_Ok in H.
  destruct (match b1 with Some _ => _ | None => _ end) as [e | ubx];
    [discriminate |].
  rewrite bind_Ok in H.
  destruct (write_read_slice (a_x0 (ls_arrays st)) (ls_offset st)
              (ls_offset st + length (times p (Some v)))
              ((λ x, fdiv x (variable_nominal p v)) <$>
               interpolate_at p (times p (Some v)) s (Fin 0) (Fin 0)
                              (interpolation_method p v)))
    as (x0 & Hw & _ & Hr).
  { intros _. exact Hfit. }
  { unfold interpolate_at. rewrite !length_fmap. lia. }
  unfold seed_rhs in H. rewrite Hw in H. simpl in H.
  injection H as <-. exact Hr.
Qed.

(** C8.  [discretize_controls] looks the seed up inside the [else] branch
    of the bounds lookup: for the control [u] with the seed series 1, 2, 3
    on its own grid, the nominal 2 and no entry in the bounds, the slice of
    [u] in [x0] stays at zero; with an entry [(None, None)] the same seed is
    written, de-scaled, as 1/2, 1, 3/2. *)
Theorem seed_needs_bounds_entry :
  seed Examples.seeded_control 0 !! "u"
  = Some (mkTimeseries Examples.grid3 [Fin (qz 1); Fin (qz 2); Fin (qz 3)]) ∧
  (∃ count a indices,
      discretize_controls Examples.seeded_control (bounds Examples.seeded_control)
      = Ok (count, a, indices) ∧
      indices !! 0 = Some {["u" := Slice 0 3]} ∧
      a_x0 a = [Fin (qz 0); Fin (qz 0); Fin (qz 0)]) ∧
  (∃ count a indices,
      discretize_controls Examples.seeded_control {["u" := (None, None)]}
      = Ok (count, a, indices) ∧
      indices !! 0 = Some {["u" := Slice 0 3]} ∧
      a_x0 a = [Fin (Q2Qc (1 # 2)); Fin (qz 1); Fin (Q2Qc (3 # 2))]).
Proof.
  split; [reflexivity |]. split.
  - destruct (discretize_controls Examples.seeded_control (bounds Examples.seeded_control))
      as [e | [[count a] indices]] eqn:H; [vm_compute in H; discriminate |].
    exists count, a, indices. split; [reflexivity |].
    vm_compute in H. injection H as <- <- <-.
    split; [vm_compute; reflexivity |].
    apply (bool_decide_unpack _). vm_compute. reflexivity.
  - destruct (discretize_controls Examples.seeded_control {["u" := (None, None)]})
      as [e | [[count a] indices]] eqn:H; [vm_compute in H; discriminate |].
    exists count, a, indices. split; [reflexivity |].
    vm_compute in H. injection H as <- <- <-.
    split; [vm_compute; reflexivity |].
    apply (bool_decide_unpack _). vm_compute. reflexivity.
Qed.

(** ** The remaining theorems at concrete problems *)



(** * Further properties of the code *)

(** ** The arrays of discretize_controls *)

Lemma slice_len_le {A} (a : list A) (start stop : nat) :
  slice_len a start stop ≤ stop - start.
Proof. unfold slice_len, slice_of. rewrite length_take. lia. Qed.

Lemma slice_len_inside {A} (a : list A) (start stop : nat) :
  stop ≤ length a → slice_len a start stop = stop - start.
Proof.
  intros H. unfold slice_len, slice_of. rewrite length_take, length_drop. lia.
Qed.

Lemma set_slice_inv {A} (a a' : list A) (start stop : nat) (r : rhs A) :
  set_slice a start stop r = Ok a' →
  a' = take start a ++ assigned (slice_len a start stop) r
       ++ drop (start + slice_len a start stop) a ∧
  length (assigned (slice_len a start stop) r) = slice_len a start stop.
Proof.
  unfold set_slice, assigned. intros H.
  destruct r as [v | vs].
  - injection H as <-. rewrite length_replicate. auto.
  - destruct (decide (length vs = slice_len a start stop)) as [E | N].
    + injection H as <-. auto.
    + destruct vs as [| v [| v' vs]]; try discriminate.
      injection H as <-. rewrite length_replicate. auto.
Qed.

Lemma set_slice_length {A} (a a' : list A) (start stop : nat) (r : rhs A) :
  set_slice a start stop r = Ok a' → length a' = length a.
Proof.
  intros H. apply set_slice_inv in H as [-> Hl].
  rewrite !length_app, Hl, length_take, length_drop.
  pose proof (slice_len_le a start stop).
  unfold slice_len, slice_of in *. rewrite length_take, length_drop in *. lia.
Qed.

(** A slice assignment inside the array changes the slice and nothing
    else. *)
Lemma set_slice_lookup {A} (a a' : list A) (start stop : nat) (r : rhs A)
    (i : nat) :
  set_slice a start stop r = Ok a' → start ≤ stop → stop ≤ length a →
  a' !! i = if decide (start ≤ i < stop)
            then assigned (stop - start) r !! (i - start)
            else a !! i.
Proof.
  intros H Hle Hin. apply set_slice_inv in H as [-> Hl].
  rewrite (slice_len_inside a start stop Hin) in *.
  case_decide as Hi.
  - rewrite lookup_app_r by (rewrite length_take; lia).
    rewrite length_take, Nat.min_l by lia.
    rewrite lookup_app_l by lia. reflexivity.
  - destruct (decide (i < start)) as [Hlt | Hge].
    + rewrite lookup_app_l by (rewrite length_take; lia).
      apply lookup_take_lt. exact Hlt.
    + rewrite lookup_app_r by (rewrite length_take; lia).
      rewrite length_take, Nat.min_l by lia.
      rewrite lookup_app_r by lia. rewrite Hl, lookup_drop.
      f_equal. lia.
Qed.

Lemma after_assignment_length {A} (a a' : list A) (start stop : nat)
    (w : option (rhs A)) :
  after_assignment a start stop w = Ok a' → length a' = length a.
Proof.
  destruct w as [r |]; simpl; [apply set_slice_length |].
  intros H. injection H as <-. reflexivity.
Qed.

Lemma after_assignment_lookup {A} (a a' : list A) (start stop : nat)
    (w : option (rhs A)) (i : nat) :
  after_assignment a start stop w = Ok a' → start ≤ stop → stop ≤ length a →
  a' !! i = match w with
            | Some r => if decide (start ≤ i < stop)
                        then assigned (stop - start) r !! (i - start)
                        else a !! i
            | None => a !! i
            end.
Proof.
  destruct w as [r |]; simpl; [apply set_slice_lookup |].
  intros H. injection H as <-. reflexivity.
Qed.

(** One pass of the loop of [discretize_controls] is four optional slice
    assignments at the running offset. *)
Lemma discretize_control_assignments (p : Problem)
    (given_bounds : gmap string (option bound_value * option bound_value))
    (seed_0 : gmap string Timeseries) (st st' : layout_state) (v : string) :
  discretize_control p given_bounds seed_0 st v = Ok st' →
  let off := ls_offset st in
  let stop := ls_offset st + control_width p v in
  ls_offset st' = stop ∧
  after_assignment (a_discrete (ls_arrays st)) off stop
    (Some (Scalar (variable_is_discrete p v)))
  = Ok (a_discrete (ls_arrays st')) ∧
  after_assignment (a_lbx (ls_arrays st)) off stop
    (lower_assignment p given_bounds v)
  = Ok (a_lbx (ls_arrays st')) ∧
  after_assignment (a_ubx (ls_arrays st)) off stop
    (upper_assignment p given_bounds v)
  = Ok (a_ubx (ls_arrays st')) ∧
  after_assignment (a_x0 (ls_arrays st)) off stop
    (seed_assignment p given_bounds seed_0 v)
  = Ok (a_x0 (ls_arrays st')).
Proof.
  unfold discretize_control, lower_assignment, upper_assignment,
    seed_assignment, control_width. intros H.
  apply bind_inv_Ok in H as (discrete & Hd & H).
  apply bind_inv_Ok in H as ([[lbx ubx] x0] & Hb & H).
  injection H as <-. simpl.
  split; [reflexivity |]. split; [exact Hd |].
  destruct (given_bounds !! v) as [[b0 b1] |].
  - apply bind_inv_Ok in Hb as (lbx1 & Hl & Hb).
    apply bind_inv_Ok in Hb as (ubx1 & Hu & Hb).
    apply bind_inv_Ok in Hb as (x1 & Hx & Hb).
    injection Hb as <- <- <-.
    split; [destruct b0; exact Hl |].
    split; [destruct b1; exact Hu |].
    destruct (seed_0 !! v); exact Hx.
  - injection Hb as <- <- <-. auto.
Qed.

Lemma assign_all_length {A} (width : string → nat)
    (w : string → option (rhs A)) (l : list string) (off : nat)
    (a a' : list A) :
  assign_all width w off a l = Ok a' → length a' = length a.
Proof.
  revert off a. induction l as [| v l IH]; intros off a H; simpl in H.
  - injection H as <-. reflexivity.
  - apply bind_inv_Ok in H as (a1 & H1 & H).
    rewrite (IH _ _ H). apply (after_assignment_length _ _ _ _ _ H1).
Qed.

Lemma assign_all_spec {A} (width : string → nat)
    (w : string → option (rhs A)) (l : list string) (off : nat)
    (a a' : list A) :
  NoDup l → assign_all width w off a l = Ok a' →
  off + total_width width l ≤ length a →
  (∀ i, i < off ∨ off + total_width width l ≤ i → a' !! i = a !! i) ∧
  ∀ v j, v ∈ l → j < width v →
    a' !! (offset_in width l off v + j)
    = match w v with
      | Some r => assigned (width v) r !! j
      | None => a !! (offset_in width l off v + j)
      end.
Proof.
  revert off a. induction l as [| x l IH]; intros off a Hnd H Hfit.
  - simpl in H. injection H as <-.
    split; [reflexivity | intros v j Hv; inversion Hv].
  - apply NoDup_cons in Hnd as [Hx Hnd]. simpl in H, Hfit.
    apply bind_inv_Ok in H as (a1 & H1 & H).
    pose proof (after_assignment_length _ _ _ _ _ H1) as Hlen1.
    assert (Hlook : ∀ i, a1 !! i
              = match w x with
                | Some r => if decide (off ≤ i < off + width x)
                            then assigned (off + width x - off) r !! (i - off)
                            else a !! i
                | None => a !! i
                end).
    { intros i. apply (after_assignment_lookup _ _ _ _ _ _ H1); lia. }
    destruct (IH (off + width x) a1 Hnd H) as [Hframe Hval]; [lia |].
    split.
    + intros i Hi. simpl in Hi.
      rewrite Hframe by lia. rewrite Hlook.
      destruct (w x); [| reflexivity].
      case_decide; [lia | reflexivity].
    + intros v j Hv Hj. simpl.
      destruct (decide (x = v)) as [-> | Hne].
      * rewrite Hframe by lia. rewrite Hlook.
        destruct (w v); [| reflexivity].
        case_decide; [| lia].
        replace (off + width v - off) with (width v) by lia.
        replace (off + j - off) with j by lia. reflexivity.
      * apply elem_of_cons in Hv as [? | Hv]; [congruence |].
        rewrite (Hval v j Hv Hj).
        destruct (w v); [reflexivity |].
        rewrite Hlook.
        pose proof (offset_in_bounds width l (off + width x) v Hv).
        destruct (w x); [| reflexivity].
        case_decide; [lia | reflexivity].
Qed.

(** The loop of [discretize_controls], array by array. *)
Lemma discretize_controls_assign_all (p : Problem)
    (given_bounds : gmap string (option bound_value * option bound_value))
    (seed_0 : gmap string Timeseries) (l : list string)
    (st st' : layout_state) :
  foldM (discretize_control p given_bounds seed_0) st l = Ok st' →
  assign_all (control_width p)
    (λ v, Some (Scalar (variable_is_discrete p v)))
    (ls_offset st) (a_discrete (ls_arrays st)) l
  = Ok (a_discrete (ls_arrays st')) ∧
  assign_all (control_width p) (lower_assignment p given_bounds)
    (ls_offset st) (a_lbx (ls_arrays st)) l
  = Ok (a_lbx (ls_arrays st')) ∧
  assign_all (control_width p) (upper_assignment p given_bounds)
    (ls_offset st) (a_ubx (ls_arrays st)) l
  = Ok (a_ubx (ls_arrays st')) ∧
  assign_all (control_width p) (seed_assignment p given_bounds seed_0)
    (ls_offset st) (a_x0 (ls_arrays st)) l
  = Ok (a_x0 (ls_arrays st')).
Proof.
  revert st. induction l as [| v l IH]; intros st H; simpl in H.
  - injection H as <-. simpl. auto.
  - apply bind_inv_Ok in H as (st1 & Hstep & H).
    apply discretize_control_assignments in Hstep
      as (Hoff & Hd & Hl & Hu & Hx).
    destruct (IH st1 H) as (IHd & IHl & IHu & IHx).
    rewrite Hoff in IHd, IHl, IHu, IHx.
    cbn [assign_all]. rewrite Hd, Hl, Hu, Hx. rewrite !bind_Ok. auto.
Qed.

(** X1.  The arrays of [discretize_controls] all have the length of the
    control block, and there is one index map per member. *)
Theorem discretize_controls_lengths (p : Problem)
    (given_bounds : gmap string (option bound_value * option bound_value))
    (count : nat) (a : arrays) (indices : index_maps) :
  discretize_controls p given_bounds = Ok (count, a, indices) →
  count = total_width (control_width p) (controls p) ∧
  length (a_discrete a) = count ∧ length (a_lbx a) = count ∧
  length (a_ubx a) = count ∧ length (a_x0 a) = count ∧
  length indices = ensemble_size p.
Proof.
  intros H.
  destruct (discretize_controls_indices p given_bounds count a indices H)
    as [Hc ->].
  unfold discretize_controls in H.
  apply bind_inv_Ok in H as (st & Hfold & H). injection H as _ <- _.
  apply discretize_controls_assign_all in Hfold as (Hd & Hl & Hu & Hx).
  apply assign_all_length in Hd, Hl, Hu, Hx. simpl in Hd, Hl, Hu, Hx.
  rewrite length_replicate in Hd. rewrite length_replicate in Hl.
  rewrite length_replicate in Hu. rewrite length_replicate in Hx.
  rewrite length_replicate, Hc, <- control_count_total. auto 10.
Qed.

(** The entries of the four arrays at the slot of a control. *)
Lemma discretize_controls_entries (p : Problem)
    (given_bounds : gmap string (option bound_value * option bound_value))
    (count : nat) (a : arrays) (indices : index_maps) (v : string) (j : nat) :
  NoDup (controls p) →
  discretize_controls p given_bounds = Ok (count, a, indices) →
  v ∈ controls p → j < control_width p v →
  let o := offset_in (control_width p) (controls p) 0 v in
  (∀ m d, indices !! m = Some d →
          d !! v = Some (Slice o (o + control_width p v))) ∧
  o + control_width p v ≤ count ∧
  a_discrete a !! (o + j) = Some (variable_is_discrete p v) ∧
  a_lbx a !! (o + j)
  = match lower_assignment p given_bounds v with
    | Some r => assigned (control_width p v) r !! j
    | None => Some NInf
    end ∧
  a_ubx a !! (o + j)
  = match upper_assignment p given_bounds v with
    | Some r => assigned (control_width p v) r !! j
    | None => Some PInf
    end ∧
  a_x0 a !! (o + j)
  = match seed_assignment p given_bounds (seed p 0) v with
    | Some r => assigned (control_width p v) r !! j
    | None => Some (Fin 0)
    end.
Proof.
  intros Hnd H Hv Hj. cbv zeta.
  set (o := offset_in (control_width p) (controls p) 0 v).
  destruct (discretize_controls_indices p given_bounds count a indices H)
    as [Hc Hidx].
  destruct (control_index_map_layout p Hnd) as (_ & _ & Hslots).
  pose proof (offset_in_bounds (control_width p) (controls p) 0 v Hv)
    as [_ Hfit].
  rewrite <- control_count_total, <- Hc in Hfit. simpl in Hfit.
  split.
  { intros m d Hd. rewrite Hidx in Hd.
    apply lookup_replicate in Hd as [-> _]. apply Hslots. exact Hv. }
  split; [exact Hfit |].
  unfold discretize_controls in H.
  apply bind_inv_Ok in H as (st & Hfold & H). injection H as _ <- _.
  apply discretize_controls_assign_all in Hfold as (Hd & Hl & Hu & Hx).
  simpl in Hd, Hl, Hu, Hx.
  assert (Hlt : o + j < control_count p) by (rewrite <- Hc; lia).
  assert (Htot : 0 + total_width (control_width p) (controls p)
                 ≤ control_count p)
    by (rewrite control_count_total; lia).
  apply assign_all_spec in Hd as [_ Hd];
    [| exact Hnd | rewrite length_replicate; exact Htot].
  apply assign_all_spec in Hl as [_ Hl];
    [| exact Hnd | rewrite length_replicate; exact Htot].
  apply assign_all_spec in Hu as [_ Hu];
    [| exact Hnd | rewrite length_replicate; exact Htot].
  apply assign_all_spec in Hx as [_ Hx];
    [| exact Hnd | rewrite length_replicate; exact Htot].
  unfold o.
  rewrite (Hd v j Hv Hj), (Hl v j Hv Hj), (Hu v j Hv Hj), (Hx v j Hv Hj).
  fold o.
  split; [apply lookup_replicate; auto |].
  split; [destruct (lower_assignment _ _ _);
          [reflexivity | apply lookup_replicate; auto] |].
  split; [destruct (upper_assignment _ _ _);
          [reflexivity | apply lookup_replicate; auto] |].
  destruct (seed_assignment _ _ _ _);
    [reflexivity | apply lookup_replicate; auto].
Qed.

Lemma assigned_bound_rhs (p : Problem) (v : string) (b : bound_value)
    (fill : pyfloat) (j : nat) (t : Qc) :
  times p (Some v) !! j = Some t →
  (∀ x, b = BScalar x →
        assigned (control_width p v) (control_bound_rhs p v b fill) !! j
        = Some (fdiv x (variable_nominal p v))) ∧
  (∀ s, b = BSeries s →
        assigned (control_width p v) (control_bound_rhs p v b fill) !! j
        = Some (fdiv (interpolate p t (ts_times s) (ts_values s) fill fill
                        (interpolation_method p v))
                     (variable_nominal p v))).
Proof.
  intros Ht.
  assert (Hj : j < control_width p v)
    by (apply lookup_lt_Some in Ht; exact Ht).
  split.
  - intros x ->. simpl. apply lookup_replicate. auto.
  - intros s ->. simpl. unfold interpolate_at, control_width.
    rewrite !length_fmap.
    destruct (decide (length (times p (Some v)) = length (times p (Some v))))
      as [_ | []]; [| reflexivity].
    rewrite !list_lookup_fmap, Ht. reflexivity.
Qed.

(** X2.  A control without an entry in the bounds keeps the defaults in all
    of its slots: no lower bound, no upper bound and a zero seed, whatever
    the seed of the problem holds; the type flag is that of the control. *)
Theorem discretize_controls_without_bounds (p : Problem)
    (given_bounds : gmap string (option bound_value * option bound_value))
    (count : nat) (a : arrays) (indices : index_maps) (v : string) :
  NoDup (controls p) →
  discretize_controls p given_bounds = Ok (count, a, indices) →
  v ∈ controls p → given_bounds !! v = None →
  ∃ o,
    (∀ m d, indices !! m = Some d →
            d !! v = Some (Slice o (o + length (times p (Some v))))) ∧
    ∀ j, j < length (times p (Some v)) →
         a_discrete a !! (o + j) = Some (variable_is_discrete p v) ∧
         a_lbx a !! (o + j) = Some NInf ∧
         a_ubx a !! (o + j) = Some PInf ∧
         a_x0 a !! (o + j) = Some (Fin 0).
Proof.
  intros Hnd H Hv Hb.
  exists (offset_in (control_width p) (controls p) 0 v).
  split.
  - intros m d Hd.
    destruct (control_index_map_layout p Hnd) as (_ & _ & Hslots).
    destruct (discretize_controls_indices p given_bounds count a indices H)
      as [_ Hidx].
    rewrite Hidx in Hd. apply lookup_replicate in Hd as [-> _].
    apply Hslots. exact Hv.
  - intros j Hj.
    destruct (discretize_controls_entries p given_bounds count a indices v j
                Hnd H Hv Hj) as (_ & _ & Hd & Hl & Hu & Hx).
    unfold lower_assignment, upper_assignment, seed_assignment in *.
    rewrite Hb in *. auto.
Qed.

(** X3.  For a control with an entry in the bounds, a side that is absent
    leaves the default, a number is written over the nominal in every slot,
    and a time series is interpolated at the time of the slot, with the
    infinity of its side outside the series, over the nominal; the seed is
    interpolated the same way with zero outside. *)
Theorem discretize_controls_with_bounds (p : Problem)
    (given_bounds : gmap string (option bound_value * option bound_value))
    (count : nat) (a : arrays) (indices : index_maps) (v : string)
    (b0 b1 : option bound_value) (j : nat) (t : Qc) :
  NoDup (controls p) →
  discretize_controls p given_bounds = Ok (count, a, indices) →
  v ∈ controls p → given_bounds !! v = Some (b0, b1) →
  times p (Some v) !! j = Some t →
  let nominal := variable_nominal p v in
  let at_t := λ (s : Timeseries) (fill : pyfloat),
    fdiv (interpolate p t (ts_times s) (ts_values s) fill fill
            (interpolation_method p v)) nominal in
  ∃ o,
    (∀ m d, indices !! m = Some d →
            d !! v = Some (Slice o (o + length (times p (Some v))))) ∧
    (b0 = None → a_lbx a !! (o + j) = Some NInf) ∧
    (∀ x, b0 = Some (BScalar x) → a_lbx a !! (o + j) = Some (fdiv x nominal)) ∧
    (∀ s, b0 = Some (BSeries s) → a_lbx a !! (o + j) = Some (at_t s NInf)) ∧
    (b1 = None → a_ubx a !! (o + j) = Some PInf) ∧
    (∀ x, b1 = Some (BScalar x) → a_ubx a !! (o + j) = Some (fdiv x nominal)) ∧
    (∀ s, b1 = Some (BSeries s) → a_ubx a !! (o + j) = Some (at_t s PInf)) ∧
    (seed p 0 !! v = None → a_x0 a !! (o + j) = Some (Fin 0)) ∧
    (∀ s, seed p 0 !! v = Some s → a_x0 a !! (o + j) = Some (at_t s (Fin 0))).
Proof.
  intros Hnd H Hv Hb Ht nominal at_t.
  assert (Hj : j < control_width p v)
    by (apply lookup_lt_Some in Ht; exact Ht).
  exists (offset_in (control_width p) (controls p) 0 v).
  destruct (discretize_controls_entries p given_bounds count a indices v j
              Hnd H Hv Hj) as (Hidx & _ & _ & Hl & Hu & Hx).
  split; [exact Hidx |].
  unfold lower_assignment, upper_assignment, seed_assignment in *.
  rewrite Hb in *.
  split; [intros ->; exact Hl |].
  split.
  { intros x ->. rewrite Hl.
    apply (assigned_bound_rhs p v (BScalar x) NInf j t Ht). reflexivity. }
  split.
  { intros s ->. rewrite Hl.
    apply (assigned_bound_rhs p v (BSeries s) NInf j t Ht). reflexivity. }
  split; [intros ->; destruct b0; exact Hu |].
  split.
  { intros x ->. destruct b0; rewrite Hu;
      apply (assigned_bound_rhs p v (BScalar x) PInf j t Ht); reflexivity. }
  split.
  { intros s ->. destruct b0; rewrite Hu;
      apply (assigned_bound_rhs p v (BSeries s) PInf j t Ht); reflexivity. }
  split; [intros Hs; rewrite Hs in Hx; exact Hx |].
  intros s Hs. rewrite Hs in Hx. rewrite Hx.
  unfold seed_rhs, assigned, interpolate_at, control_width.
  rewrite !length_fmap.
  destruct (decide (length (times p (Some v)) = length (times p (Some v))))
    as [_ | []]; [| reflexivity].
  rewrite !list_lookup_fmap, Ht. reflexivity.
Qed.

Lemma discretize_controls_lengths_witness :
  ∃ count a indices,
    discretize_controls Examples.single_state (bounds Examples.single_state)
    = Ok (count, a, indices) ∧
    count = 3 ∧ length (a_discrete a) = 3 ∧ length (a_lbx a) = 3 ∧
    length (a_ubx a) = 3 ∧ length (a_x0 a) = 3 ∧ length indices = 1.
Proof.
  destruct (discretize_controls Examples.single_state
              (bounds Examples.single_state))
    as [e | [[count a] indices]] eqn:H; [vm_compute in H; discriminate |].
  destruct (discretize_controls_lengths _ _ _ _ _ H)
    as (Hc & Hd & Hl & Hu & Hx & Hi).
  exists count, a, indices. split; [reflexivity |].
  rewrite Hd, Hl, Hu, Hx, Hi, Hc. repeat split; reflexivity.
Defined.

Lemma discretize_controls_without_bounds_witness :
  ∃ count a indices,
    discretize_controls Examples.seeded_control
      (bounds Examples.seeded_control) = Ok (count, a, indices) ∧
    ∃ o, ∀ j, j < 3 →
      a_discrete a !! (o + j) = Some false ∧
      a_lbx a !! (o + j) = Some NInf ∧
      a_ubx a !! (o + j) = Some PInf ∧
      a_x0 a !! (o + j) = Some (Fin 0).
Proof.
  destruct (discretize_controls Examples.seeded_control
              (bounds Examples.seeded_control))
    as [e | [[count a] indices]] eqn:H; [vm_compute in H; discriminate |].
  destruct (discretize_controls_without_bounds
              Examples.seeded_control (bounds Examples.seeded_control)
              count a indices "u") as (o & _ & Ho).
  - apply (bool_decide_unpack _). vm_compute. exact I.
  - exact H.
  - apply (bool_decide_unpack _). vm_compute. exact I.
  - reflexivity.
  - exists count, a, indices. split; [reflexivity |].
    exists o. exact Ho.
Defined.

Lemma discretize_controls_with_bounds_witness :
  ∃ count a indices,
    discretize_controls Examples.single_state (bounds Examples.single_state)
    = Ok (count, a, indices) ∧
    ∃ o, a_lbx a !! (o + 1) = Some (fdiv (Fin (qz (-2))) 1%Qc) ∧
         a_ubx a !! (o + 1) = Some (fdiv (Fin (qz 2)) 1%Qc) ∧
         a_x0 a !! (o + 1) = Some (Fin 0).
Proof.
  destruct (discretize_controls Examples.single_state
              (bounds Examples.single_state))
    as [e | [[count a] indices]] eqn:H; [vm_compute in H; discriminate |].
  destruct (discretize_controls_with_bounds
              Examples.single_state (bounds Examples.single_state)
              count a indices "u"
              (Some (BScalar (Fin (qz (-2))))) (Some (BScalar (Fin (qz 2))))
              1 (qz 1))
    as (o & _ & _ & Hl & _ & _ & Hu & _ & Hx & _).
  - apply (bool_decide_unpack _). vm_compute. exact I.
  - exact H.
  - apply (bool_decide_unpack _). vm_compute. exact I.
  - reflexivity.
  - reflexivity.
  - exists count, a, indices. split; [reflexivity |].
    exists o. split; [apply Hl; reflexivity |].
    split; [apply Hu; reflexivity | apply Hx; reflexivity].
Defined.

(** ** What extract_states returns *)

(** The stages of [extract_states] once the layout is built. *)
Lemma extract_states_stages (p : Problem) (inp : ExtractInputs)
    (tr : Transcription) (ms m : nat) (indices : gmap string slot)
    (X : list Qc) :
  reaches_layout p → decodable p inp → m < ensemble_size p →
  merged_layout p tr m ms indices →
  ei_transcription inp = tr → length X = t_n_x tr →
  let sizes := variable_sizes p in
  let states := differentiated_states p ++ algebraic_states p in
  let base := control_count p + m * ms in
  let w1 := total_width (state_width p sizes) states in
  let w2 := total_width (state_width p sizes) (path_variable_names p) in
  let w3 := total_width (extra_width sizes) (extra_variable_names p) in
  ∃ r2 r3 r4 results,
    foldM (extract_path_variable p sizes X) (base + w1, r2)
          (path_variable_names p) = Ok (base + w1 + w2, r3) ∧
    foldM (extract_extra_variable p sizes X) (base + w1 + w2, r3)
          (extra_variable_names p) = Ok (base + w1 + w2 + w3, r4) ∧
    foldM (extract_initial_derivative p (t_initial_dt tr) X
             (base + w1 + w2 + w3)) r4
          (enumerate (zip (differentiated_states p) (derivative_names p)))
    = Ok results ∧
    extract_states p inp X m = Ok results ∧
    ms = w1 + w2 + w3 + length (derivative_names p) ∧
    control_count p + (m + 1) * ms ≤ length X ∧
    (∀ v, v ∈ state_chain p ++ extra_variable_names p →
          results !! v = r4 !! v).
Proof.
  intros Hreach Hdec Hm Hl Hinp HX sizes states base w1 w2 w3.
  pose proof (rl_names p Hreach) as Hnames.
  destruct (reaches_layout_sizes p Hreach) as (Hsz_s & Hsz_p & Hsz_e).
  destruct Hdec as [Hpath Hint Hextra Hkeys].
  set (cc := control_count p) in *.
  assert (Hchain : state_chain p = states ++ path_variable_names p).
  { unfold state_chain, states. rewrite app_assoc. reflexivity. }
  rewrite Hchain in Hnames. rewrite <- !app_assoc in Hnames.
  apply NoDup_app in Hnames as (Hnd_s & Hdisj_s & Hnames).
  apply NoDup_app in Hnames as (Hnd_p & Hdisj_p & Hnames).
  apply NoDup_app in Hnames as (Hnd_e & Hdisj_e & Hnd_c).
  assert (Hms : ms = w1 + w2 + w3 + length (derivative_names p)).
  { rewrite (mg_total _ _ _ _ _ Hl), Hchain, total_width_app. reflexivity. }
  assert (Hblock : cc + (m + 1) * ms ≤ length X).
  { rewrite HX, (mg_n_x _ _ _ _ _ Hl).
    assert ((m + 1) * ms ≤ ensemble_size p * ms)
      by (apply Nat.mul_le_mono_r; lia). fold cc. lia. }
  assert (H0 : ∃ st0,
             (if decide (0 < length (integrated_states p))
              then foldM (extract_integrated p (ei_integrators_output inp))
                         (0, ∅) (integrated_states p)
              else Ok (0, ∅)) = Ok st0).
  { destruct (decide (0 < length (integrated_states p))).
    - destruct (extract_integrated_fold p (ei_integrators_output inp)
                  (integrated_states p) 0 ∅ Hint) as (st0 & H & _).
      exists st0. exact H.
    - exists (0, ∅). reflexivity. }
  destruct H0 as (st0 & H0).
  destruct (extract_collocated_fold p X sizes states base st0.2 Hnd_s Hsz_s)
    as (Hoff1 & _ & _).
  set (st1 := foldl (extract_collocated p X) (base, st0.2) states) in *.
  set (r2 := foldl (λ acc kv, <[kv.1 := RVector kv.2]> acc) st1.2
               (ei_constant_inputs inp)).
  destruct (extract_path_fold p sizes X (path_variable_names p)
              (base + w1) r2 Hnd_p) as (r3 & Hfold3 & _ & _).
  { intros v Hv. destruct (Hpath v Hv) as [Hi Ht].
    split; [| split; assumption].
    apply list_elem_of_fmap in Hv as ([v' s] & -> & Hin). simpl.
    unfold sizes. rewrite (Hsz_p _ _ Hin). eauto. }
  { fold w2. unfold base. lia. }
  fold w2 in Hfold3.
  destruct (extract_extra_fold p sizes X (extra_variable_names p)
              (base + w1 + w2) r3 Hnd_e) as (r4 & Hfold4 & _ & _).
  { intros v Hv.
    apply list_elem_of_fmap in Hv as ([v' s] & -> & Hin). simpl.
    exists s. split; [exact (Hsz_e _ _ Hin) | exact (Hextra _ _ Hin)]. }
  { fold w3. unfold base. lia. }
  fold w3 in Hfold4.
  destruct (extract_initial_derivatives_fold p X (t_initial_dt tr)
              (base + w1 + w2 + w3)
              (enumerate (zip (differentiated_states p) (derivative_names p)))
              r4) as (r5 & Hfold5 & Hother5).
  { intros k names Hin. apply enumerate_elem in Hin as [Hk _].
    rewrite length_zip in Hk. unfold base. lia. }
  exists r2, r3, r4, r5.
  split; [exact Hfold3 |]. split; [exact Hfold4 |]. split; [exact Hfold5 |].
  split.
  { unfold extract_states. rewrite Hinp.
    destruct (decide (ensemble_size p = 0)) as [? | _]; [lia |].
    rewrite bind_Ok, H0, bind_Ok.
    rewrite (mg_state_size _ _ _ _ _ Hl), (mg_control_size _ _ _ _ _ Hl),
            (mg_sizes _ _ _ _ _ Hl).
    replace (ensemble_size p * ms / ensemble_size p) with ms
      by (rewrite Nat.mul_comm, Nat.div_mul; lia).
    fold cc base states sizes. fold st1. rewrite Hoff1. fold w1.
    change (foldl (λ acc kv, <[kv.1 := RVector kv.2]> acc) st1.2
              (ei_constant_inputs inp)) with r2.
    rewrite Hfold3, bind_Ok, Hfold4, bind_Ok. exact Hfold5. }
  split; [exact Hms |]. split; [exact Hblock |].
  intros v Hv. apply Hother5. intros k names Hin.
  apply enumerate_elem in Hin as [_ Hin].
  destruct names as [state der]. apply elem_of_zip_r in Hin. simpl.
  apply (Hkeys v Hv). exact Hin.
Qed.

(** The loop over the initial derivatives stores, under the name of every
    derivative, the slot behind the running offset times nominal over step
    size. *)
Lemma extract_initial_derivatives_values (p : Problem) (X : list Qc)
    (dts : gmap string Qc) (offset : nat)
    (l : list (nat * (string * string))) (r r' : gmap string result_value) :
  NoDup ((λ kn : nat * (string * string), kn.2.2) <$> l) →
  foldM (extract_initial_derivative p dts X offset) r l = Ok r' →
  ∀ k state der dt,
    (k, (state, der)) ∈ l → dts !! state = Some dt →
    ∃ x, X !! (offset + k) = Some x ∧
         r' !! ("initial_" +:+ der)
         = Some (RVector [(variable_nominal p state / dt * x)%Qc]).
Proof.
  revert r. induction l as [| [k0 [state0 der0]] l IH]; intros r Hnd Hfold;
    intros k state der dt Hin Hdt; [inversion Hin |].
  simpl in Hnd. apply NoDup_cons in Hnd as [Hfresh Hnd].
  cbn [foldM] in Hfold. apply bind_inv_Ok in Hfold as (r1 & Hstep & Hfold).
  apply elem_of_cons in Hin as [Heq | Hin].
  - injection Heq as <- <- <-.
    unfold extract_initial_derivative in Hstep. rewrite Hdt in Hstep.
    apply bind_inv_Ok in Hstep as (x & Hx & Hstep). injection Hstep as <-.
    unfold index in Hx. destruct (X !! (offset + k)) as [x' |] eqn:E;
      [| discriminate].
    injection Hx as ->. exists x. split; [reflexivity |].
    assert (Hkeep : ∀ l0 r0 r0',
               der ∉ (λ kn : nat * (string * string), kn.2.2) <$> l0 →
               foldM (extract_initial_derivative p dts X offset) r0 l0
               = Ok r0' →
               r0' !! ("initial_" +:+ der) = r0 !! ("initial_" +:+ der)).
    { clear. induction l0 as [| [k1 [s1 d1]] l0 IH0]; intros r0 r0' Hn Hf.
      - injection Hf as <-. reflexivity.
      - simpl in Hn. apply not_elem_of_cons in Hn as [Hne Hn].
        cbn [foldM] in Hf. apply bind_inv_Ok in Hf as (r1 & Hs & Hf).
        rewrite (IH0 _ _ Hn Hf).
        unfold extract_initial_derivative in Hs.
        destruct (dts !! s1); [| injection Hs as <-; reflexivity].
        apply bind_inv_Ok in Hs as (x1 & _ & Hs). injection Hs as <-.
        apply lookup_insert_ne. intros Hc.
        apply (inj (String.app "initial_")) in Hc. congruence. }
    rewrite (Hkeep l _ r' Hfresh Hfold). apply lookup_insert_eq.
  - apply (IH r1 Hnd Hfold k state der dt Hin Hdt).
Qed.

Lemma enumerate_lookup {A} (l : list A) (k : nat) (x : A) :
  l !! k = Some x → (k, x) ∈ enumerate l.
Proof.
  intros H. unfold enumerate. apply list_elem_of_lookup. exists k.
  apply lookup_zip_with_Some. exists k, x.
  split; [reflexivity |]. split; [| exact H].
  apply lookup_seq. split; [reflexivity | apply lookup_lt_Some in H; exact H].
Qed.

Lemma enumerate_snd {A} (l : list A) : (enumerate l).*2 = l.
Proof.
  unfold enumerate. apply snd_zip. rewrite length_seq. reflexivity.
Qed.

Lemma NoDup_zip_snd {A B} (l : list A) (k : list B) :
  NoDup k → NoDup (zip l k).*2.
Proof.
  revert k. induction l as [| a l IH]; intros [| b k] Hnd; simpl;
    try constructor.
  - apply NoDup_cons in Hnd as [Hb Hnd]. intros Hc. apply Hb.
    apply list_elem_of_fmap in Hc as ([a' b'] & -> & Hin).
    apply elem_of_zip_r in Hin. exact Hin.
  - apply NoDup_cons in Hnd as [_ Hnd]. apply IH. exact Hnd.
Qed.

(** The cache of initial step sizes has the step of every differentiated
    state and nothing else. *)
Lemma initial_dt_fold_lookup (p : Problem) (h : gmap string Timeseries)
    (l : list string) (acc acc' : gmap string Qc) :
  foldM (λ acc variable,
           dt ← initial_dt_of p h variable;
           Ok (<[variable := dt]> acc)) acc l = Ok acc' →
  (∀ v, v ∈ l →
        ∃ dt, initial_dt_of p h v = Ok dt ∧ acc' !! v = Some dt) ∧
  (∀ v, v ∉ l → acc' !! v = acc !! v).
Proof.
  revert acc. induction l as [| a l IH]; intros acc Hf.
  - injection Hf as <-. split; [intros v Hv; inversion Hv | reflexivity].
  - cbn [foldM] in Hf. apply bind_inv_Ok in Hf as (acc1 & Hs & Hf).
    apply bind_inv_Ok in Hs as (dt & Hdt & Hs). injection Hs as <-.
    destruct (IH _ Hf) as [Hin Hout].
    split.
    + intros v Hv. destruct (decide (v ∈ l)) as [Hl | Hnl];
        [apply Hin; exact Hl |].
      apply elem_of_cons in Hv as [-> | ?]; [| contradiction].
      exists dt. split; [exact Hdt |].
      rewrite (Hout a Hnl). apply lookup_insert_eq.
    + intros v Hv. apply not_elem_of_cons in Hv as [Hne Hv].
      rewrite (Hout v Hv). apply lookup_insert_ne. congruence.
Qed.

(** The entry of [extract_states] for an initial derivative, and the slot
    it is read from. *)
Lemma initial_derivative_entry (p : Problem) (inp : ExtractInputs)
    (tr : Transcription) (log : list event) (m : nat) (X : list Qc) (k : nat)
    (state der : string) :
  reaches_layout p → decodable p inp → NoDup (derivative_names p) →
  run (transcribe_layout p) = (log, Ok tr) →
  ei_transcription inp = tr → length X = t_n_x tr →
  m < ensemble_size p →
  differentiated_states p !! k = Some state →
  derivative_names p !! k = Some der →
  ∃ member_size results dt x,
    t_state_size tr = ensemble_size p * member_size ∧
    length (derivative_names p) ≤ member_size ∧
    extract_states p inp X m = Ok results ∧
    t_initial_dt tr !! state = Some dt ∧
    X !! (t_control_size tr + (m + 1) * member_size
          - length (derivative_names p) + k) = Some x ∧
    results !! ("initial_" +:+ der)
    = Some (RVector [(variable_nominal p state / dt * x)%Qc]).
Proof.
  intros Hreach Hdec Hnd Hrun Hinp HX Hm Hstate Hder.
  destruct (reaches_layout_merged p Hreach) as (tr' & ms & Hrun' & Hmerged).
  rewrite Hrun in Hrun'. injection Hrun' as _ <-.
  destruct (Hmerged m Hm) as [indices Hl].
  destruct (extract_states_stages p inp tr ms m indices X
              Hreach Hdec Hm Hl Hinp HX)
    as (r2 & r3 & r4 & results & _ & _ & Hfold & Hres & Hms & Hblock & _).
  destruct (initial_dt_fold_lookup p (history p 0) _ _ _
              (mg_initial_dt _ _ _ _ _ Hl)) as [Hdts _].
  destruct (Hdts state) as (dt & _ & Hdt);
    [apply list_elem_of_lookup; eauto |].
  assert (Hnd' : NoDup ((λ kn : nat * (string * string), kn.2.2) <$>
                        enumerate (zip (differentiated_states p)
                                       (derivative_names p)))).
  { change (λ kn : nat * (string * string), kn.2.2)
      with (@snd string string ∘ @snd nat (string * string)).
    rewrite list_fmap_compose, enumerate_snd.
    apply NoDup_zip_snd. exact Hnd. }
  destruct (extract_initial_derivatives_values p X (t_initial_dt tr) _ _ _ _
              Hnd' Hfold k state der dt) as (x & Hx & Hv).
  { apply enumerate_lookup. apply lookup_zip_with_Some.
    exists state, der. auto. }
  { exact Hdt. }
  exists ms, results, dt, x.
  split; [exact (mg_state_size _ _ _ _ _ Hl) |].
  split; [pose proof (mg_total _ _ _ _ _ Hl); lia |].
  split; [exact Hres |]. split; [exact Hdt |].
  split; [| exact Hv].
  rewrite <- Hx. f_equal. rewrite (mg_control_size _ _ _ _ _ Hl). lia.
Qed.

(** ** Vector-valued path and extra variables *)

Lemma length_chunks {A} (rows cols : nat) (l : list A) :
  length (chunks rows cols l) = rows.
Proof.
  revert l. induction rows as [| r IH]; intros l; simpl;
    [reflexivity | rewrite IH; reflexivity].
Qed.

Lemma chunks_lookup {A} (rows cols : nat) (l : list A) (k : nat) :
  k < rows → chunks rows cols l !! k = Some (take cols (drop (k * cols) l)).
Proof.
  revert l k. induction rows as [| r IH]; intros l k Hk; [lia |].
  destruct k as [| k]; simpl; [reflexivity |].
  rewrite IH by lia. rewrite drop_drop. reflexivity.
Qed.

Lemma omap_lookup_total {A B} (f : A → option B) (l : list A) (k : nat) :
  (∀ x, x ∈ l → is_Some (f x)) → omap f l !! k = l !! k ≫= f.
Proof.
  revert k. induction l as [| a l IH]; intros k H; [reflexivity |].
  destruct (H a) as [b Hb]; [left |]. simpl. rewrite Hb.
  destruct k as [| k]; simpl; [symmetry; exact Hb |].
  apply IH. intros x Hx. apply H. right. exact Hx.
Qed.

Lemma omap_length_total {A B} (f : A → option B) (l : list A) :
  (∀ x, x ∈ l → is_Some (f x)) → length (omap f l) = length l.
Proof.
  induction l as [| a l IH]; intros H; [reflexivity |].
  destruct (H a) as [b Hb]; [left |].
  change (omap f (a :: l))
    with (match f a with Some y => y :: omap f l | None => omap f l end).
  rewrite Hb. cbn [length].
  rewrite IH; [reflexivity |]. intros x Hx. apply H. right. exact Hx.
Qed.

(** The rows of [a.reshape((rows, cols)).transpose()]: row [t] holds the
    entries [k * cols + t] of [a]. *)
Lemma transpose_chunks_lookup {A} (rows cols : nat) (l : list A)
    (t : nat) :
  length l = rows * cols → t < cols →
  ∃ row, transpose cols (chunks rows cols l) !! t = Some row ∧
         length row = rows ∧
         ∀ k, k < rows → row !! k = l !! (k * cols + t).
Proof.
  intros Hlen Ht.
  assert (Hrows : ∀ x, x ∈ chunks rows cols l → is_Some (x !! t)).
  { intros x Hx. apply list_elem_of_lookup in Hx as [k Hk].
    assert (Hkr : k < rows).
    { apply lookup_lt_Some in Hk. rewrite length_chunks in Hk. exact Hk. }
    rewrite chunks_lookup in Hk by exact Hkr. injection Hk as <-.
    apply lookup_lt_is_Some_2. rewrite length_take, length_drop.
    assert (k * cols + cols ≤ rows * cols) by nia. lia. }
  exists (omap (λ row : list A, row !! t) (chunks rows cols l)).
  split.
  { unfold transpose. rewrite list_lookup_fmap, lookup_seq_lt by exact Ht.
    reflexivity. }
  split; [rewrite omap_length_total by exact Hrows; apply length_chunks |].
  intros k Hk. rewrite omap_lookup_total by exact Hrows.
  rewrite chunks_lookup by exact Hk. simpl.
  rewrite lookup_take_lt by exact Ht. rewrite lookup_drop. reflexivity.
Qed.

Lemma length_transpose {A} (cols : nat) (m : list (list A)) :
  length (transpose cols m) = cols.
Proof. unfold transpose. rewrite length_fmap, length_seq. reflexivity. Qed.

Section vector_variables.
Context (p : Problem) (sizes : gmap string nat) (X : list Qc).

Lemma extract_path_fold_values (l : list string) (off : nat)
    (r : gmap string result_value) (st' : nat * gmap string result_value) :
  NoDup l →
  (∀ v, v ∈ l → (v ∉ integrated_states p) ∧
                length (times p (Some v)) = length (times p None)) →
  foldM (extract_path_variable p sizes X) (off, r) l = Ok st' →
  (∀ v, v ∉ l → st'.2 !! v = r !! v) ∧
  ∀ v s, v ∈ l → sizes !! v = Some s →
    let o := offset_in (state_width p sizes) l off v in
    st'.2 !! v = Some (path_value p X v s o) ∧
    (1 < s → length (slice_of X o (o + length (times p None) * s))
             = s * length (times p None)).
Proof.
  revert off r. induction l as [| a l IH]; intros off r Hnd Hok Hfold.
  - injection Hfold as <-. split; [reflexivity | intros v s Hv; inversion Hv].
  - apply NoDup_cons in Hnd as [Ha Hnd].
    cbn [foldM] in Hfold. apply bind_inv_Ok in Hfold as (st1 & Hstep & Hfold).
    unfold extract_path_variable in Hstep.
    apply bind_inv_Ok in Hstep as (sa & Hsa & Hstep).
    apply bind_inv_Ok in Hstep as (value & Hvalue & Hstep).
    injection Hstep as <-.
    unfold size_lookup in Hsa.
    destruct (sizes !! a) as [sa' |] eqn:Esa; [| discriminate].
    injection Hsa as ->.
    destruct (Hok a) as [Hai Hat]; [left |].
    assert (Hw : state_width p sizes a = length (times p None) * sa).
    { unfold state_width. rewrite Esa, Hat.
      destruct (decide (a ∈ integrated_states p)); [contradiction |].
      reflexivity. }
    destruct (IH _ _ Hnd (λ v Hv, Hok v (list_elem_of_further _ _ _ Hv)) Hfold)
      as [Hother Hvals].
    split.
    + intros v Hv. apply not_elem_of_cons in Hv as [Hne Hv].
      rewrite (Hother v Hv). apply lookup_insert_ne. congruence.
    + intros v s Hv Hs. simpl.
      destruct (decide (a = v)) as [-> | Hne].
      * rewrite (Hother v Ha), lookup_insert_eq.
        rewrite Esa in Hs. injection Hs as ->.
        unfold path_value.
        destruct (decide (1 < s)) as [Hgt | Hle].
        -- apply bind_inv_Ok in Hvalue as (mat & Hmat & Hvalue).
           injection Hvalue as <-. unfold reshape in Hmat.
           case_decide as Hlen; [| discriminate]. injection Hmat as <-.
           split; [reflexivity | intros _; exact Hlen].
        -- injection Hvalue as <-. split; [reflexivity | intros; lia].
      * apply elem_of_cons in Hv as [? | Hv]; [congruence |].
        rewrite Hw. apply (Hvals v s Hv Hs).
Qed.

Lemma extract_extra_fold_values (l : list string) (off : nat)
    (r : gmap string result_value) (st' : nat * gmap string result_value) :
  NoDup l →
  foldM (extract_extra_variable p sizes X) (off, r) l = Ok st' →
  (∀ v, v ∉ l → st'.2 !! v = r !! v) ∧
  ∀ v s, v ∈ l → sizes !! v = Some s →
    let o := offset_in (extra_width sizes) l off v in
    st'.2 !! v = Some (extra_value p X v s o) ∧ (s ≤ 1 → o < length X).
Proof.
  revert off r. induction l as [| a l IH]; intros off r Hnd Hfold.
  - injection Hfold as <-. split; [reflexivity | intros v s Hv; inversion Hv].
  - apply NoDup_cons in Hnd as [Ha Hnd].
    cbn [foldM] in Hfold. apply bind_inv_Ok in Hfold as (st1 & Hstep & Hfold).
    unfold extract_extra_variable in Hstep.
    apply bind_inv_Ok in Hstep as (sa & Hsa & Hstep).
    apply bind_inv_Ok in Hstep as (value & Hvalue & Hstep).
    injection Hstep as <-.
    unfold size_lookup in Hsa.
    destruct (sizes !! a) as [sa' |] eqn:Esa; [| discriminate].
    injection Hsa as ->.
    assert (Hw : extra_width sizes a = sa)
      by (unfold extra_width; rewrite Esa; reflexivity).
    destruct (IH _ _ Hnd Hfold) as [Hother Hvals].
    split.
    + intros v Hv. apply not_elem_of_cons in Hv as [Hne Hv].
      rewrite (Hother v Hv). apply lookup_insert_ne. congruence.
    + intros v s Hv Hs. simpl.
      destruct (decide (a = v)) as [-> | Hne].
      * rewrite (Hother v Ha), lookup_insert_eq.
        rewrite Esa in Hs. injection Hs as ->.
        unfold extra_value.
        destruct (decide (1 < s)) as [Hgt | Hle].
        -- injection Hvalue as <-. split; [reflexivity | intros; lia].
        -- apply bind_inv_Ok in Hvalue as (x & Hx & Hvalue).
           injection Hvalue as <-. unfold index in Hx.
           destruct (X !! off) as [x' |] eqn:E; [| discriminate].
           injection Hx as ->.
           rewrite (slice_of_one X off x E).
           split; [reflexivity |].
           intros _. apply lookup_lt_Some in E. exact E.
      * apply elem_of_cons in Hv as [? | Hv]; [congruence |].
        rewrite Hw. apply (Hvals v s Hv Hs).
Qed.

End vector_variables.

(** X9.  A path variable with more than one component is stored component
    after component, each over the whole grid; [extract_states] returns it
    as a matrix with one row per time, whose entry [k] at time [t] is the
    slot [k * n + t] of the variable's slice times the nominal. *)
Theorem extract_states_vector_path_variable (p : Problem)
    (inp : ExtractInputs) (tr : Transcription) (log : list event) (m : nat)
    (X : list Qc) (v : string) (s : nat) :
  reaches_layout p → decodable p inp →
  run (transcribe_layout p) = (log, Ok tr) →
  ei_transcription inp = tr → length X = t_n_x tr →
  m < ensemble_size p →
  (v, s) ∈ path_variables p → 1 < s →
  let n := length (times p None) in
  ∃ indices results o rows,
    t_indices tr !! m = Some indices ∧
    indices !! v = Some (Slice o (o + n * s)) ∧
    extract_states p inp X m = Ok results ∧
    results !! v = Some (RMatrix rows) ∧
    length rows = n ∧
    ∀ t k, t < n → k < s →
      ∃ row x, rows !! t = Some row ∧ length row = s ∧
               X !! (o + k * n + t) = Some x ∧
               row !! k = Some (variable_nominal p v * x)%Qc.
Proof.
  intros Hreach Hdec Hrun Hinp HX Hm Hin Hs n.
  destruct (reaches_layout_merged p Hreach) as (tr' & ms & Hrun' & Hmerged).
  rewrite Hrun in Hrun'. injection Hrun' as _ <-.
  destruct (Hmerged m Hm) as [indices Hl].
  destruct (extract_states_stages p inp tr ms m indices X
              Hreach Hdec Hm Hl Hinp HX)
    as (r2 & r3 & r4 & results & Hf3 & Hf4 & _ & Hres & Hms & Hblock & Hrest).
  pose proof (rl_names p Hreach) as Hnames.
  destruct (reaches_layout_sizes p Hreach) as (_ & Hsz_p & _).
  set (sizes := variable_sizes p) in *.
  set (states := differentiated_states p ++ algebraic_states p) in *.
  assert (Hchain : state_chain p = states ++ path_variable_names p).
  { unfold state_chain, states. rewrite app_assoc. reflexivity. }
  rewrite Hchain in Hnames. rewrite <- !app_assoc in Hnames.
  apply NoDup_app in Hnames as (Hnd_s & Hdisj_s & Hnames).
  apply NoDup_app in Hnames as (Hnd_p & Hdisj_p & Hnames).
  apply NoDup_app in Hnames as (Hnd_e & _ & _).
  assert (Hpn : v ∈ path_variable_names p).
  { apply list_elem_of_fmap. exists (v, s). auto. }
  assert (Hns : v ∉ states).
  { intros Hc. apply (Hdisj_s v Hc). rewrite elem_of_app. auto. }
  assert (Hne : v ∉ extra_variable_names p).
  { intros Hc. apply (Hdisj_p v Hpn). rewrite elem_of_app. auto. }
  destruct (dc_path p inp Hdec v Hpn) as [Hni Ht].
  destruct (extract_path_fold_values p sizes X _ _ _ _ Hnd_p
              (dc_path p inp Hdec) Hf3) as [_ Hvals].
  destruct (Hvals v s Hpn (Hsz_p _ _ Hin)) as [Hv3 Hlen].
  specialize (Hlen Hs). fold n in Hlen.
  destruct (extract_extra_fold_values p sizes X _ _ _ _ Hnd_e Hf4)
    as [Hother4 _].
  cbn [snd] in Hv3, Hother4.
  set (o := offset_in (state_width p sizes) (path_variable_names p)
              (control_count p + m * ms
               + total_width (state_width p sizes) states) v) in *.
  unfold path_value in Hv3.
  destruct (decide (1 < s)) as [_ | []]; [| exact Hs].
  exists indices, results, o,
    (scale (variable_nominal p v) <$>
     transpose n (chunks s n (slice_of X o (o + n * s)))).
  split; [exact (mg_lookup _ _ _ _ _ Hl) |].
  split.
  { rewrite (mg_state _ _ _ _ _ Hl v)
      by (rewrite Hchain; apply elem_of_app; auto).
    assert (Hsw : state_width p sizes v = n * s).
    { unfold state_width. rewrite (Hsz_p _ _ Hin), Ht.
      destruct (decide (v ∈ integrated_states p)); [contradiction |].
      reflexivity. }
    unfold state_slot. fold sizes.
    destruct (decide (v ∈ integrated_states p)); [contradiction |].
    rewrite Hsw. simpl.
    rewrite Hchain, (offset_in_app_r _ _ _ _ _ Hns).
    unfold o. offsets_from_zero. f_equal. f_equal; lia. }
  split; [exact Hres |].
  split.
  { rewrite Hrest by (rewrite Hchain, !elem_of_app; auto).
    rewrite (Hother4 v Hne). exact Hv3. }
  split; [rewrite length_fmap; apply length_transpose |].
  intros t k Htn Hks.
  destruct (transpose_chunks_lookup s n (slice_of X o (o + n * s)) t Hlen Htn)
    as (row & Hrow & Hrl & Hentries).
  assert (Hx : is_Some (X !! (o + k * n + t))).
  { apply lookup_lt_is_Some_2.
    assert (Hsl : length (slice_of X o (o + n * s)) ≤ length X - o).
    { unfold slice_of. rewrite length_take, length_drop. lia. }
    pose proof (Nat.mul_le_mono_r (S k) s n ltac:(lia)) as Hkn.
    simpl in Hkn. lia. }
  destruct Hx as [x Hx].
  exists (scale (variable_nominal p v) row), x.
  split; [rewrite list_lookup_fmap, Hrow; reflexivity |].
  split; [unfold scale; rewrite length_fmap; exact Hrl |].
  split; [exact Hx |].
  unfold scale. rewrite list_lookup_fmap, (Hentries k Hks).
  pose proof (Nat.mul_le_mono_r (S k) s n ltac:(lia)) as Hkn.
  simpl in Hkn.
  unfold slice_of. rewrite lookup_take_lt by lia.
  rewrite lookup_drop.
  replace (o + (k * n + t)) with (o + k * n + t) by lia.
  rewrite Hx. reflexivity.
Qed.

(** X10.  [extra_variable] reads the values that [extract_states] returns
    for an extra variable: as a flat vector for a scalar one, as the one
    row of a matrix otherwise. *)
Theorem extra_variable_agrees_with_extract_states (p : Problem)
    (inp : ExtractInputs) (tr : Transcription) (log : list event) (m : nat)
    (X : list Qc) (v : string) (s : nat) :
  reaches_layout p → decodable p inp →
  run (transcribe_layout p) = (log, Ok tr) →
  ei_transcription inp = tr → length X = t_n_x tr →
  m < ensemble_size p →
  (v, s) ∈ extra_variables p →
  ∃ results values,
    extract_states p inp X m = Ok results ∧
    extra_variable p tr X v m = Ok values ∧
    length values = s ∧
    results !! v
    = Some (if decide (1 < s) then RMatrix [values] else RVector values).
Proof.
  intros Hreach Hdec Hrun Hinp HX Hm Hin.
  destruct (reaches_layout_merged p Hreach) as (tr' & ms & Hrun' & Hmerged).
  rewrite Hrun in Hrun'. injection Hrun' as _ <-.
  destruct (Hmerged m Hm) as [indices Hl].
  destruct (extract_states_stages p inp tr ms m indices X
              Hreach Hdec Hm Hl Hinp HX)
    as (r2 & r3 & r4 & results & _ & Hf4 & _ & Hres & Hms & Hblock & Hrest).
  pose proof (rl_names p Hreach) as Hnames.
  destruct (reaches_layout_sizes p Hreach) as (_ & _ & Hsz_e).
  set (sizes := variable_sizes p) in *.
  set (states := differentiated_states p ++ algebraic_states p) in *.
  assert (Hchain : state_chain p = states ++ path_variable_names p).
  { unfold state_chain, states. rewrite app_assoc. reflexivity. }
  apply NoDup_app in Hnames as (_ & _ & Hnames).
  apply NoDup_app in Hnames as (Hnd_e & _ & _).
  assert (Hen : v ∈ extra_variable_names p).
  { apply list_elem_of_fmap. exists (v, s). auto. }
  pose proof (dc_extra p inp Hdec v s Hin) as Hs1.
  destruct (extract_extra_fold_values p sizes X _ _ _ _ Hnd_e Hf4)
    as [_ Hvals].
  destruct (Hvals v s Hen (Hsz_e _ _ Hin)) as [Hv4 _].
  cbn [snd] in Hv4.
  pose proof (offset_in_bounds (extra_width sizes) (extra_variable_names p)
                (control_count p + m * ms
                 + total_width (state_width p sizes) states
                 + total_width (state_width p sizes) (path_variable_names p))
                v Hen) as [Hlo Hhi].
  set (o := offset_in (extra_width sizes) (extra_variable_names p)
              (control_count p + m * ms
               + total_width (state_width p sizes) states
               + total_width (state_width p sizes) (path_variable_names p))
              v) in *.
  assert (Hw : extra_width sizes v = s)
    by (unfold extra_width; rewrite (Hsz_e _ _ Hin); reflexivity).
  rewrite Hw in Hhi.
  set (values := scale (variable_nominal p v) (slice_of X o (o + s))).
  exists results, values.
  split; [exact Hres |].
  split.
  { unfold extra_variable, lookup_slot, index.
    rewrite (mg_lookup _ _ _ _ _ Hl). simpl.
    rewrite (mg_extra _ _ _ _ _ Hl v Hen). fold sizes. simpl.
    rewrite Hw, Hchain, total_width_app.
    set (oo := offset_in (extra_width sizes) (extra_variable_names p)
                 (m * ms
                  + (total_width (state_width p sizes) states
                     + total_width (state_width p sizes)
                         (path_variable_names p))) v).
    assert (Ho : o = oo + control_count p)
      by (unfold o, oo; offsets_from_zero; lia).
    replace (oo + s + control_count p) with (o + s) by lia.
    rewrite <- Ho. unfold Ok. do 2 f_equal.
    unfold values, scale.
    apply list_fmap_ext. intros i x _. apply Qcmult_comm. }
  split.
  { unfold values, scale. rewrite length_fmap.
    rewrite slice_of_length by lia. lia. }
  rewrite Hrest by (rewrite !elem_of_app; auto).
  rewrite Hv4. unfold extra_value. f_equal.
  destruct (decide (1 < s)); [reflexivity |].
  assert (s = 1) as -> by lia. reflexivity.
Qed.

(** ** The frame of the history loop, and the parameters *)

(** X4.  Besides the first slot of every variable with a usable history
    value, the loop over the history leaves both bound arrays as they were,
    and it keeps their lengths. *)
Theorem pin_initial_values_frame (format_value : pyfloat → string)
    (p : Problem) (m : nat) (lbx ubx : list pyfloat) :
  reaches_layout p → m < ensemble_size p →
  (∀ v val, v ∈ history_chain p →
            history_value p (history p m) v = Some val →
            times p (Some v) ≠ []) →
  ∃ tr log0,
    run (transcribe_layout p) = (log0, Ok tr) ∧
    (length lbx = t_n_x tr → length ubx = t_n_x tr →
     ∃ lbx' ubx' log indices,
       run (pin_initial_values format_value p tr m (lbx, ubx))
       = (log, Ok (lbx', ubx')) ∧
       t_indices tr !! m = Some indices ∧
       length lbx' = length lbx ∧ length ubx' = length ubx ∧
       ∀ i, (∀ v val s, v ∈ history_chain p →
                        history_value p (history p m) v = Some val →
                        indices !! v = Some s → first_of_slot s ≠ i) →
            lbx' !! i = lbx !! i ∧ ubx' !! i = ubx !! i).
Proof.
  intros Hreach Hm Hgrid.
  destruct (reaches_layout_merged p Hreach) as (tr & ms & Hrun & Hmerged).
  destruct (Hmerged m Hm) as [indices Hl].
  exists tr, [DiscretizeControlsCalled; DiscretizeStatesCalled].
  split; [exact Hrun |].
  intros Hlbx Hubx.
  destruct (pin_initial_values_after_layout format_value p tr m ms indices
              lbx ubx Hreach Hl Hgrid Hlbx Hubx)
    as (lbx' & ubx' & Hpin & Hl1 & Hl2 & _ & Hframe).
  eexists lbx', ubx', _, indices.
  split; [exact Hpin |].
  split; [exact (mg_lookup _ _ _ _ _ Hl) |].
  split; [exact Hl1 |]. split; [exact Hl2 |].
  exact Hframe.
Qed.

Lemma pin_initial_values_frame_witness :
  ∃ lbx' ubx' log,
    run (pin_initial_values Examples.float_text Examples.single_state
           Examples.single_state_transcription 0
           (replicate 7 NInf, replicate 7 PInf))
    = (log, Ok (lbx', ubx')) ∧
    lbx' !! 4 = Some NInf ∧ ubx' !! 4 = Some PInf.
Proof.
  destruct (pin_initial_values_frame Examples.float_text
              Examples.single_state 0
              (replicate 7 NInf) (replicate 7 PInf))
    as (tr & log0 & Hrun & H).
  - constructor.
    + apply (bool_decide_unpack _). vm_compute. reflexivity.
    + apply (bool_decide_unpack _). vm_compute. reflexivity.
    + intros v s Hin. inversion Hin.
    + vm_compute. exact I.
    + vm_compute. exact I.
  - simpl. lia.
  - intros v val _ _. discriminate.
  - vm_compute in Hrun. injection Hrun as <- <-.
    destruct H as (lbx' & ubx' & log & indices & Hpin & Hidx & _ & _ & Hf);
      [reflexivity | reflexivity |].
    vm_compute in Hidx. injection Hidx as <-.
    destruct (Hf 4) as [H1 H2].
    + intros v val s Hv Hval Hs.
      apply elem_of_cons in Hv as [-> | Hv].
      { vm_compute in Hs. injection Hs as <-. simpl. lia. }
      apply elem_of_cons in Hv as [-> | Hv]; [| inversion Hv].
      vm_compute in Hval. discriminate.
    + exists lbx', ubx', log. split; [exact Hpin |].
      rewrite H1, H2. split; reflexivity.
Defined.

(** ** Constant and ensemble parameters, in general *)

Lemma mapM_index_length (store : list (list Qc)) (i : nat)
    (values : list Qc) :
  mapM (λ member_parameters : list Qc, index member_parameters i) store
  = Ok values → length values = length store.
Proof. apply mapM_length. Qed.

(** One pass of the loop puts the parameter at the end of exactly one of
    the two lists; a dynamic parameter never goes to the constant ones. *)
Lemma classify_parameter_step (store : list (list Qc)) (dyn : list string)
    (st st' : parameter_split) (i : nat) (name : string) :
  classify_parameter store dyn st (i, name) = Ok st' →
  length (ensemble_parameter_values st) = length store →
  (constant_parameters st' = constant_parameters st ++ [name] ∧
   ensemble_parameters st' = ensemble_parameters st ∧
   (name ∉ dyn) ∧
   (∃ v0, (∀ row0, store !! 0 = Some row0 → row0 !! i = Some v0) ∧
          constant_parameter_values st'
          = constant_parameter_values st ++ [v0]) ∧
   ensemble_parameter_values st' = ensemble_parameter_values st) ∨
  (constant_parameters st' = constant_parameters st ∧
   ensemble_parameters st' = ensemble_parameters st ++ [name] ∧
   constant_parameter_values st' = constant_parameter_values st ∧
   length (ensemble_parameter_values st') = length store ∧
   (∀ k row, ensemble_parameter_values st' !! k = Some row →
             ∃ row0 member v,
               ensemble_parameter_values st !! k = Some row0 ∧
               store !! k = Some member ∧ member !! i = Some v ∧
               row = row0 ++ [v]) ∧
   (length store = 1 → name ∈ dyn)).
Proof.
  unfold classify_parameter. intros H Hrows.
  apply bind_inv_Ok in H as (values & Hvalues & H).
  apply bind_inv_Ok in H as (same & Hsame & H).
  pose proof (mapM_length _ _ _ Hvalues) as Hlen.
  destruct (same && negb (bool_decide (name ∈ dyn))) eqn:E.
  - apply bind_inv_Ok in H as (v0 & Hv0 & H). injection H as <-. simpl.
    left. apply andb_true_iff in E as [_ E].
    apply negb_true_iff, bool_decide_eq_false in E.
    split; [reflexivity |]. split; [reflexivity |]. split; [exact E |].
    split; [| reflexivity].
    exists v0. split; [| reflexivity].
    intros row0 Hrow0.
    destruct (mapM_lookup _ _ _ 0 row0 Hvalues Hrow0) as (y & Hy & Hy').
    unfold index in Hv0, Hy. rewrite Hy' in Hv0. injection Hv0 as ->.
    destruct (row0 !! i); [injection Hy as ->; reflexivity | discriminate].
  - injection H as <-. simpl. right.
    split; [reflexivity |]. split; [reflexivity |]. split; [reflexivity |].
    split; [rewrite length_zip_with; lia |].
    split.
    + intros k row Hk.
      apply lookup_zip_with_Some in Hk as (row0 & v & -> & Hr0 & Hv).
      assert (Hk : k < length store)
        by (apply lookup_lt_Some in Hv; lia).
      destruct (lookup_lt_is_Some_2 store k Hk) as [member Hmember].
      destruct (mapM_lookup _ _ _ k member Hvalues Hmember)
        as (y & Hy & Hy').
      rewrite Hv in Hy'. injection Hy' as <-.
      exists row0, member, v. split; [exact Hr0 |]. split; [exact Hmember |].
      split; [| reflexivity].
      unfold index in Hy. destruct (member !! i);
        [injection Hy as ->; reflexivity | discriminate].
    + intros H1. unfold same_everywhere in Hsame.
      destruct (decide (length values = 1)) as [_ | []]; [| lia].
      injection Hsame as <-. simpl in E.
      apply negb_false_iff, bool_decide_eq_true in E. exact E.
Qed.

Lemma classify_parameters_fold (store : list (list Qc)) (dyn : list string)
    (l : list (nat * string)) (st s : parameter_split) :
  foldM (classify_parameter store dyn) st l = Ok s →
  length (ensemble_parameter_values st) = length store →
  ∃ c e,
    constant_parameters s = constant_parameters st ++ c ∧
    ensemble_parameters s = ensemble_parameters st ++ e ∧
    c `sublist_of` l.*2 ∧ e `sublist_of` l.*2 ∧
    l.*2 ≡ₚ c ++ e ∧
    (∀ name, name ∈ c → name ∉ dyn) ∧
    (length store = 1 →
     c = filter (λ name, name ∉ dyn) l.*2 ∧
     e = filter (λ name, name ∈ dyn) l.*2) ∧
    length (constant_parameter_values s)
    = length (constant_parameter_values st) + length c ∧
    length (ensemble_parameter_values s) = length store ∧
    (∀ k row, ensemble_parameter_values s !! k = Some row →
              ∃ row0, ensemble_parameter_values st !! k = Some row0 ∧
                      length row = length row0 + length e).
Proof.
  revert st. induction l as [| [i name] l IH]; intros st H Hrows.
  - injection H as <-. exists [], []. rewrite !app_nil_r. simpl.
    split; [reflexivity |]. split; [reflexivity |].
    split; [constructor |]. split; [constructor |]. split; [reflexivity |].
    split; [intros n Hn; inversion Hn |].
    split; [intros _; split; reflexivity |].
    split; [lia |]. split; [exact Hrows |].
    intros k row Hk. exists row. split; [exact Hk | simpl; lia].
  - cbn [foldM] in H. apply bind_inv_Ok in H as (st1 & Hstep & H).
    apply classify_parameter_step in Hstep; [| exact Hrows].
    destruct Hstep as [(Hc & He & Hdyn & (v0 & _ & Hcv) & Hev)
                      | (Hc & He & Hcv & Hlen & Hrowsk & Hsingle)].
    + destruct (IH st1 H) as (c & e & Hc' & He' & Hsc & Hse & Hperm & Hd
                              & H1 & Hlcv & Hlev & Hrk);
        [rewrite Hev; exact Hrows |].
      exists (name :: c), e. simpl.
      rewrite Hc', Hc, <- app_assoc. split; [reflexivity |].
      rewrite He', He. split; [reflexivity |].
      split; [apply sublist_skip; exact Hsc |].
      split; [apply sublist_cons; exact Hse |].
      split; [rewrite Hperm; reflexivity |].
      split.
      { intros n Hn. apply elem_of_cons in Hn as [-> | Hn];
          [exact Hdyn | apply Hd; exact Hn]. }
      split.
      { intros Hs. destruct (H1 Hs) as [-> ->].
        rewrite filter_cons_True by exact Hdyn.
        rewrite filter_cons_False by exact Hdyn.
        split; reflexivity. }
      split; [rewrite Hlcv, Hcv, length_app; simpl; lia |].
      split; [exact Hlev |].
      intros k row Hk. rewrite <- Hev. apply Hrk. exact Hk.
    + destruct (IH st1 H) as (c & e & Hc' & He' & Hsc & Hse & Hperm & Hd
                              & H1 & Hlcv & Hlev & Hrk);
        [exact Hlen |].
      exists c, (name :: e). simpl.
      rewrite Hc', Hc. split; [reflexivity |].
      rewrite He', He, <- app_assoc. split; [reflexivity |].
      split; [apply sublist_cons; exact Hsc |].
      split; [apply sublist_skip; exact Hse |].
      split.
      { rewrite Hperm. apply Permutation_middle. }
      split; [exact Hd |].
      split.
      { intros Hs. destruct (H1 Hs) as [-> ->].
        rewrite filter_cons_False
          by (intros Hn; apply Hn; apply Hsingle; exact Hs).
        rewrite filter_cons_True by (apply Hsingle; exact Hs).
        split; reflexivity. }
      split; [rewrite Hlcv, Hcv; lia |].
      split; [exact Hlev |].
      intros k row Hk. destruct (Hrk k row Hk) as (row1 & Hr1 & Hl1).
      destruct (Hrowsk k row1 Hr1) as (row0 & member & v & Hr0 & _ & _ & ->).
      exists row0. split; [exact Hr0 |].
      rewrite Hl1, length_app. simpl. lia.
Qed.

(** X6.  The loop over the parameters splits them, in their order, into
    the constant and the ensemble parameters: every parameter lands in
    exactly one of the two lists, a dynamic parameter is never made
    constant, and there is one value per constant parameter and, for every
    member, one value per ensemble parameter. *)
Theorem classify_parameters_partition (store : list (list Qc))
    (dyn parameters : list string) (s : parameter_split) :
  classify_parameters store dyn parameters = Ok s →
  constant_parameters s `sublist_of` parameters ∧
  ensemble_parameters s `sublist_of` parameters ∧
  parameters ≡ₚ constant_parameters s ++ ensemble_parameters s ∧
  (∀ name, name ∈ constant_parameters s → name ∉ dyn) ∧
  length (constant_parameter_values s) = length (constant_parameters s) ∧
  length (ensemble_parameter_values s) = length store ∧
  Forall (λ row, length row = length (ensemble_parameters s))
         (ensemble_parameter_values s).
Proof.
  unfold classify_parameters. intros H.
  apply classify_parameters_fold in H
    as (c & e & Hc & He & Hsc & Hse & Hperm & Hd & _ & Hlcv & Hlev & Hrk);
    [| simpl; apply length_replicate].
  simpl in *. rewrite enumerate_snd in *. subst c e.
  split; [exact Hsc |]. split; [exact Hse |]. split; [exact Hperm |].
  split; [exact Hd |]. split; [exact Hlcv |]. split; [exact Hlev |].
  apply Forall_forall. intros row Hrow.
  apply list_elem_of_lookup in Hrow as [k Hk].
  destruct (Hrk k row Hk) as (row0 & Hr0 & Hl).
  apply lookup_replicate in Hr0 as [-> _]. exact Hl.
Qed.

(** X7.  With a single ensemble member the constant parameters are exactly
    the parameters that are not dynamic, and the ensemble parameters the
    dynamic ones. *)
Theorem classify_parameters_single_member (member : list Qc)
    (dyn parameters : list string) (s : parameter_split) :
  classify_parameters [member] dyn parameters = Ok s →
  constant_parameters s = filter (λ name, name ∉ dyn) parameters ∧
  ensemble_parameters s = filter (λ name, name ∈ dyn) parameters.
Proof.
  unfold classify_parameters. intros H.
  apply classify_parameters_fold in H
    as (c & e & Hc & He & _ & _ & _ & _ & H1 & _);
    [| reflexivity].
  simpl in *. rewrite enumerate_snd in *. subst c e.
  apply H1. reflexivity.
Qed.

(** ** The accessors *)

Lemma enumerate_snoc {A} (l : list A) (a : A) :
  enumerate (l ++ [a]) = enumerate l ++ [(length l, a)].
Proof.
  unfold enumerate. rewrite length_app. simpl.
  rewrite seq_app. simpl.
  rewrite zip_with_app by (rewrite length_seq; reflexivity).
  reflexivity.
Qed.

Lemma index_map_of_snoc (names : list string) (a : string) :
  index_map_of (names ++ [a]) = <[a := length names]> (index_map_of names).
Proof.
  unfold index_map_of. rewrite enumerate_snoc, foldl_app. reflexivity.
Qed.

(** The map from names to positions: a name that occurs is mapped to a
    position where it stands, and to its position when it occurs once. *)
Lemma index_map_of_lookup (names : list string) (v : string) :
  (v ∉ names → index_map_of names !! v = None) ∧
  (v ∈ names → ∃ i, index_map_of names !! v = Some i ∧ names !! i = Some v) ∧
  (NoDup names → ∀ i, names !! i = Some v →
                      index_map_of names !! v = Some i).
Proof.
  induction names as [| a names IH] using rev_ind.
  - split; [intros _; apply lookup_empty |].
    split; [intros H; inversion H | intros _ i H; discriminate].
  - destruct IH as (IHn & IHs & IHd).
    rewrite index_map_of_snoc.
    split; [| split].
    + intros Hv. apply not_elem_of_app in Hv as [Hv Ha].
      rewrite lookup_insert_ne by (intros ->; apply Ha; left).
      apply IHn. exact Hv.
    + intros Hv. destruct (decide (a = v)) as [-> | Hne].
      * exists (length names). rewrite lookup_insert_eq.
        split; [reflexivity |].
        rewrite lookup_app_r by lia.
        replace (length names - length names) with 0 by lia. reflexivity.
      * rewrite lookup_insert_ne by exact Hne.
        apply elem_of_app in Hv as [Hv | Hv].
        -- destruct (IHs Hv) as (i & Hi & Hn). exists i.
           split; [exact Hi |].
           rewrite lookup_app_l by (apply lookup_lt_Some in Hn; exact Hn).
           exact Hn.
        -- apply list_elem_of_singleton in Hv. congruence.
    + intros Hnd i Hi. apply NoDup_app in Hnd as (Hnd & Hdisj & _).
      destruct (decide (i < length names)) as [Hlt | Hge].
      * rewrite lookup_app_l in Hi by exact Hlt.
        rewrite lookup_insert_ne.
        -- apply IHd; assumption.
        -- intros ->. apply (Hdisj v); [| left].
           apply list_elem_of_lookup. eauto.
      * rewrite lookup_app_r in Hi by lia.
        destruct (i - length names) as [| k] eqn:E; [| discriminate].
        injection Hi as ->. rewrite lookup_insert_eq. f_equal. lia.
Qed.

(** X11.  [der] resolves a differentiated state to the derivative at its
    position, an algebraic state or a control to the symbol made for it, and
    refuses every other name with a key error; the sign of the alias is
    passed on. *)
Theorem der_resolves (p : Problem) (acc : Accessors) (variable : string) :
  let canonical := (canonical_signed acc variable).1 in
  let sign := (canonical_signed acc variable).2 in
  (NoDup (differentiated_states p) →
   ∀ i d, differentiated_states p !! i = Some canonical →
          derivative_names p !! i = Some d →
          der p acc variable = Ok (sign, d)) ∧
  ((canonical ∉ differentiated_states p) →
   canonical ∈ algebraic_states p ++ controls p →
   der p acc variable = Ok (sign, "der(" +:+ canonical +:+ ")")) ∧
  ((canonical ∉ differentiated_states p ++ algebraic_states p ++ controls p) →
   der p acc variable = Raise (KeyError canonical)).
Proof.
  unfold der. destruct (canonical_signed acc variable) as [canonical sign].
  simpl.
  destruct (index_map_of_lookup (differentiated_states p) canonical)
    as (Hdn & Hds & Hdd).
  destruct (index_map_of_lookup (algebraic_states p) canonical)
    as (Han & Has & _).
  destruct (index_map_of_lookup (controls p) canonical)
    as (Hcn & Hcs & _).
  split; [| split].
  - intros Hnd i d Hi Hd. rewrite (Hdd Hnd i Hi).
    unfold index. rewrite Hd. reflexivity.
  - intros Hnot Hin. rewrite (Hdn Hnot).
    assert (Hsym : ∀ i, (algebraic_states p ++ controls p) !! i
                        = Some canonical →
               index (algebraic_and_control_derivatives p) i
               = Ok ("der(" +:+ canonical +:+ ")")).
    { intros i Hi. unfold index, algebraic_and_control_derivatives.
      rewrite list_lookup_fmap, Hi. reflexivity. }
    destruct (decide (canonical ∈ algebraic_states p)) as [Ha | Ha].
    + destruct (Has Ha) as (i & -> & Hi). rewrite bind_Ok.
      rewrite (Hsym i); [reflexivity |].
      rewrite lookup_app_l by (apply lookup_lt_Some in Hi; exact Hi).
      exact Hi.
    + rewrite (Han Ha).
      apply elem_of_app in Hin as [? | Hc]; [contradiction |].
      destruct (Hcs Hc) as (j & -> & Hj). rewrite bind_Ok.
      rewrite (Hsym (length (algebraic_states p) + j)); [reflexivity |].
      rewrite lookup_app_r by lia.
      replace (length (algebraic_states p) + j - length (algebraic_states p))
        with j by lia. exact Hj.
  - intros Hnot. rewrite !not_elem_of_app in Hnot.
    destruct Hnot as (Hd & Ha & Hc).
    rewrite (Hdn Hd), (Han Ha), (Hcn Hc). reflexivity.
Qed.

Lemma control_at_from_missing (p : Problem) (acc : Accessors) (X : list Qc)
    (variable canonical : string) (sign : Z) (t : Qc) (m : nat)
    (scaled extrapolate : bool) (l : list string) (offset : nat) :
  canonical ∉ l →
  control_at_from p acc X variable canonical sign t m scaled extrapolate
    offset l = Raise (KeyError variable).
Proof.
  revert offset. induction l as [| a l IH]; intros offset Hn; [reflexivity |].
  apply not_elem_of_cons in Hn as [Hne Hn]. simpl.
  destruct (decide (a = canonical)); [congruence |]. apply IH. exact Hn.
Qed.

Lemma control_at_from_found (p : Problem) (acc : Accessors) (X : list Qc)
    (variable canonical : string) (sign : Z) (t : Qc) (m : nat)
    (scaled extrapolate : bool) (l : list string) (offset : nat) :
  canonical ∈ l →
  control_at_from p acc X variable canonical sign t m scaled extrapolate
    offset l
  = control_branch p acc X canonical sign t m scaled extrapolate
      (offset_in (control_width p) l offset canonical).
Proof.
  revert offset. induction l as [| a l IH]; intros offset Hin;
    [inversion Hin |].
  simpl. destruct (decide (a = canonical)) as [-> | Hne]; [reflexivity |].
  apply elem_of_cons in Hin as [? | Hin]; [congruence |].
  apply IH. exact Hin.
Qed.

Lemma fill_values_no_key_error (extrapolate : bool) (values : list pyfloat)
    (k : string) :
  fill_values extrapolate values ≠ Raise (KeyError k).
Proof.
  unfold fill_values, index, index_back.
  destruct extrapolate; [| discriminate].
  destruct (values !! 0); simpl; [| discriminate].
  case_decide; simpl; [| discriminate].
  unfold index. destruct (values !! (length values - 1)); simpl; discriminate.
Qed.

Lemma before_initial_time_no_key_error (p : Problem) (m : nat)
    (extrapolate : bool) (v : string) (values : list pyfloat) (t : Qc)
    (k : string) :
  before_initial_time p m extrapolate v values t ≠ Raise (KeyError k).
Proof.
  unfold before_initial_time, mx_index.
  destruct (history p m !! v) as [h |].
  - pose proof (fill_values_no_key_error extrapolate (ts_values h) k) as H.
    destruct (fill_values extrapolate (ts_values h)) as [e | fills]; simpl;
      [intros Hk; apply H; injection Hk as ->; reflexivity | discriminate].
  - destruct extrapolate; [| discriminate].
    destruct (values !! 0); discriminate.
Qed.

Lemma index_raises {A} (a : list A) (k : nat) (e : exn) :
  index a k = Raise e → e = IndexError.
Proof.
  unfold index. destruct (a !! k); [discriminate |].
  intros He. injection He as <-. reflexivity.
Qed.

Lemma index_back_raises {A} (a : list A) (k : nat) (e : exn) :
  index_back a k = Raise e → e = IndexError.
Proof.
  unfold index_back. case_decide.
  - apply index_raises.
  - intros He. injection He as <-. reflexivity.
Qed.

Lemma range_error_no_key_error (acc : Accessors) (v : string) (t : Qc)
    (ts : list Qc) (k : string) :
  (first ← index ts 0;
   last ← index_back ts 1;
   Raise (PyException (range_message acc v t first last)))
  ≠ (Raise (KeyError k) : result pyfloat).
Proof.
  destruct (index ts 0) as [e | first] eqn:E0; simpl.
  - rewrite (index_raises _ _ _ E0). discriminate.
  - destruct (index_back ts 1) as [e | last] eqn:Eb; simpl.
    + rewrite (index_back_raises _ _ _ Eb). discriminate.
    + discriminate.
Qed.

Lemma from_initial_time_no_key_error (p : Problem) (acc : Accessors)
    (extrapolate : bool) (v : string) (values : list pyfloat) (t : Qc)
    (k : string) :
  from_initial_time p acc extrapolate v values t ≠ Raise (KeyError k).
Proof.
  unfold from_initial_time.
  pose proof (range_error_no_key_error acc v t (times p (Some v)) k)
    as Hraise.
  destruct extrapolate; simpl; [discriminate |].
  destruct (index (times p (Some v)) 0) as [e | first] eqn:E0.
  - simpl. rewrite (index_raises _ _ _ E0). discriminate.
  - rewrite bind_Ok in Hraise. rewrite !bind_Ok.
    case_decide.
    + rewrite bind_Ok. exact Hraise.
    + destruct (index_back (times p (Some v)) 1) as [e | last] eqn:Eb.
      * simpl. rewrite (index_back_raises _ _ _ Eb). discriminate.
      * rewrite !bind_Ok.
        destruct (bool_decide (last < t)%Qc); [| discriminate].
        rewrite bind_Ok in Hraise. exact Hraise.
Qed.

Lemma control_branch_no_key_error (p : Problem) (acc : Accessors)
    (X : list Qc) (canonical : string) (sign : Z) (t : Qc) (m : nat)
    (scaled extrapolate : bool) (offset : nat) (k : string) :
  control_branch p acc X canonical sign t m scaled extrapolate offset
  ≠ Raise (KeyError k).
Proof.
  unfold control_branch, mx_slice.
  destruct (decide (offset + length (times p (Some canonical)) ≤ length X));
    [rewrite bind_Ok | intros Hk; discriminate Hk].
  destruct (decide (t < initial_time p)%Qc).
  - pose proof (before_initial_time_no_key_error p m extrapolate canonical
                  (Fin <$> slice_of X offset
                             (offset + length (times p (Some canonical))))
                  t k) as H.
    destruct (before_initial_time _ _ _ _ _ _) as [e | sym]; simpl;
      [intros Hk; apply H; injection Hk as ->; reflexivity | discriminate].
  - pose proof (from_initial_time_no_key_error p acc extrapolate canonical
                  (Fin <$> slice_of X offset
                             (offset + length (times p (Some canonical))))
                  t k) as H.
    destruct (from_initial_time _ _ _ _ _ _) as [e | sym]; simpl;
      [intros Hk; apply H; injection Hk as ->; reflexivity | discriminate].
Qed.

(** X12.  [control_at] raises a key error exactly for the names whose
    canonical name is not a control, and the key is the name it was asked
    for; no other failure of [control_at] is a key error. *)
Theorem control_at_key_error (p : Problem) (acc : Accessors) (X : list Qc)
    (variable : string) (t : Qc) (m : nat) (scaled extrapolate : bool)
    (k : string) :
  control_at p acc X variable t m scaled extrapolate = Raise (KeyError k)
  ↔ ((canonical_signed acc variable).1 ∉ controls p) ∧ k = variable.
Proof.
  unfold control_at.
  destruct (canonical_signed acc variable) as [canonical sign]. simpl.
  destruct (decide (canonical ∈ controls p)) as [Hin | Hnin].
  - rewrite control_at_from_found by exact Hin.
    split.
    + intros H. exfalso.
      exact (control_branch_no_key_error _ _ _ _ _ _ _ _ _ _ _ H).
    + intros [Hc _]. contradiction.
  - rewrite control_at_from_missing by exact Hnin.
    split.
    + intros H. injection H as <-. auto.
    + intros [_ ->]. reflexivity.
Qed.

(** ** control_at *)

Lemma index_back_last {A} (a : list A) (x : A) :
  last a = Some x → index_back a 1 = Ok x.
Proof.
  intros H. rewrite last_lookup in H.
  assert (Hlen : 1 ≤ length a).
  { apply lookup_lt_Some in H. lia. }
  unfold index_back, index.
  destruct (decide (1 ≤ 1 ≤ length a)) as [_ | Hn]; [| lia].
  replace (length a - 1) with (pred (length a)) by lia.
  rewrite H. reflexivity.
Qed.

Lemma from_initial_time_outside (p : Problem) (acc : Accessors)
    (v : string) (values : list pyfloat) (t first final : Qc) :
  times p (Some v) !! 0 = Some first →
  last (times p (Some v)) = Some final →
  (t < first ∨ final < t)%Qc →
  from_initial_time p acc false v values t
  = Raise (PyException (range_message acc v t first final)).
Proof.
  intros H0 Hl Hout. unfold from_initial_time.
  assert (E0 : index (times p (Some v)) 0 = Ok first).
  { unfold index. rewrite H0. reflexivity. }
  pose proof (index_back_last _ _ Hl) as Eb.
  cbv zeta. rewrite E0, Eb. rewrite !bind_Ok.
  destruct (decide (t < first)%Qc) as [Hlt | Hge].
  - rewrite !bind_Ok. reflexivity.
  - rewrite !bind_Ok. destruct Hout as [? | Hout]; [contradiction |].
    rewrite bool_decide_eq_true_2 by exact Hout. reflexivity.
Qed.

Lemma control_slot_inside (p : Problem) (X : list Qc) (canonical : string) :
  canonical ∈ controls p → control_count p ≤ length X →
  offset_in (control_width p) (controls p) 0 canonical
  + length (times p (Some canonical)) ≤ length X.
Proof.
  intros Hin Hlen.
  destruct (offset_in_bounds (control_width p) (controls p) 0 canonical Hin)
    as [_ Hb].
  rewrite <- control_count_total in Hb. unfold control_width in Hb at 2. lia.
Qed.

Lemma control_branch_from_initial_time (p : Problem) (acc : Accessors)
    (X : list Qc) (canonical : string) (sign : Z) (t : Qc) (m : nat)
    (scaled extrapolate : bool) (offset : nat) :
  offset + length (times p (Some canonical)) ≤ length X →
  (initial_time p ≤ t)%Qc →
  control_branch p acc X canonical sign t m scaled extrapolate offset
  = (sym ← from_initial_time p acc extrapolate canonical
             (Fin <$> slice_of X offset
                        (offset + length (times p (Some canonical)))) t;
     Ok (signed sign
           (times_nominal (negb scaled) (variable_nominal p canonical) sym))).
Proof.
  intros Hin Ht. unfold control_branch, mx_slice. cbv zeta.
  destruct (decide (offset + length (times p (Some canonical)) ≤ length X));
    [| lia].
  rewrite bind_Ok.
  destruct (decide (t < initial_time p)%Qc) as [Hlt | _].
  - exfalso. exact (Qclt_not_le _ _ Hlt Ht).
  - destruct (from_initial_time _ _ _ _ _ _); reflexivity.
Qed.

(** X13.  From the initial time on, [control_at] interpolates the values of
    the slots that [discretize_controls] recorded for the control, times the
    nominal unless the scaled value is asked for, and with the sign of the
    alias. *)
Theorem control_at_reads_recorded_slot (p : Problem) (acc : Accessors)
    (b : gmap string (option bound_value * option bound_value))
    (X : list Qc) (variable canonical : string) (sign : Z) (t : Qc) (m : nat)
    (scaled : bool) (count : nat) (a : arrays) (indices : index_maps) :
  NoDup (controls p) →
  discretize_controls p b = Ok (count, a, indices) →
  count ≤ length X →
  m < ensemble_size p →
  canonical_signed acc variable = (canonical, sign) →
  canonical ∈ controls p →
  (initial_time p ≤ t)%Qc →
  ∃ values,
    (s ← lookup_slot indices m canonical; read_slot X s) = Ok values ∧
    length values = length (times p (Some canonical)) ∧
    control_at p acc X variable t m scaled true
    = Ok (signed sign
            (times_nominal (negb scaled) (variable_nominal p canonical)
               (ca_interpolate_at acc (times p (Some canonical))
                  (Fin <$> values) t (interpolation_method p canonical)))).
Proof.
  intros Hnd Hdc Hlen Hm Hcs Hin Ht.
  apply discretize_controls_indices in Hdc as [-> ->].
  destruct (control_index_map_layout p Hnd) as (_ & _ & Hslots).
  pose proof (control_slot_inside p X canonical Hin Hlen) as Hinside.
  set (o := offset_in (control_width p) (controls p) 0 canonical) in *.
  exists (slice_of X o (o + length (times p (Some canonical)))).
  split; [| split].
  - unfold lookup_slot, index. rewrite lookup_replicate_2 by exact Hm.
    rewrite bind_Ok. rewrite (Hslots canonical Hin). reflexivity.
  - rewrite slice_of_length by exact Hinside. lia.
  - unfold control_at. rewrite Hcs.
    rewrite control_at_from_found by exact Hin. fold o.
    rewrite control_branch_from_initial_time by assumption.
    reflexivity.
Qed.

(** X14.  Without extrapolation, [control_at] refuses a time from the initial
    time on that lies outside the grid of the control, with the message
    made from the name of the control, the time and the ends of the grid. *)
Theorem control_at_outside_grid (p : Problem) (acc : Accessors)
    (X : list Qc) (variable canonical : string) (sign : Z)
    (t first final : Qc) (m : nat) (scaled : bool) :
  canonical_signed acc variable = (canonical, sign) →
  canonical ∈ controls p →
  control_count p ≤ length X →
  (initial_time p ≤ t)%Qc →
  times p (Some canonical) !! 0 = Some first →
  last (times p (Some canonical)) = Some final →
  (t < first ∨ final < t)%Qc →
  control_at p acc X variable t m scaled false
  = Raise (PyException (range_message acc canonical t first final)).
Proof.
  intros Hcs Hin Hlen Ht H0 Hl Hout.
  unfold control_at. rewrite Hcs.
  rewrite control_at_from_found by exact Hin.
  rewrite control_branch_from_initial_time
    by (try assumption; apply control_slot_inside; assumption).
  rewrite (from_initial_time_outside p acc canonical _ t first final)
    by assumption.
  reflexivity.
Qed.

(** ** state_at *)

Lemma free_variable_at_from_missing (p : Problem) (acc : Accessors)
    (X : list Qc) (canonical : string) (sign : Z) (t : Qc) (m : nat)
    (scaled extrapolate : bool) (l : list string) (offset : nat) :
  canonical ∉ l →
  free_variable_at_from p acc X canonical sign t m scaled extrapolate
    offset l = Ok None.
Proof.
  revert offset. induction l as [| a l IH]; intros offset Hn; [reflexivity |].
  apply not_elem_of_cons in Hn as [Hne Hn]. simpl.
  destruct (decide (a = canonical)); [congruence |]. apply IH. exact Hn.
Qed.

Lemma free_variable_at_from_found (p : Problem) (acc : Accessors)
    (X : list Qc) (canonical : string) (sign : Z) (t : Qc) (m : nat)
    (scaled extrapolate : bool) (l : list string) (offset : nat) :
  canonical ∈ l →
  free_variable_at_from p acc X canonical sign t m scaled extrapolate
    offset l
  = (sym ← free_variable_branch p acc X canonical sign t m scaled
             extrapolate
             (offset_in (free_variable_width p) l offset canonical);
     Ok (Some sym)).
Proof.
  revert offset. induction l as [| a l IH]; intros offset Hin;
    [inversion Hin |].
  simpl. destruct (decide (a = canonical)) as [-> | Hne]; [reflexivity |].
  apply elem_of_cons in Hin as [? | Hin]; [congruence |].
  apply IH. exact Hin.
Qed.

Lemma member_size_division (p : Problem) (tr : Transcription)
    (member_size : nat) :
  ensemble_size p ≠ 0 →
  t_state_size tr = ensemble_size p * member_size →
  t_state_size tr / ensemble_size p = member_size.
Proof.
  intros Hne ->. rewrite Nat.mul_comm. apply Nat.div_mul. exact Hne.
Qed.

Lemma state_at_uncached_unfound (p : Problem) (acc : Accessors)
    (tr : Transcription) (X : list Qc) (variable : string) (t : Qc)
    (m : nat) (scaled extrapolate : bool) :
  ensemble_size p ≠ 0 →
  (canonical_signed acc variable).1 ∉ state_chain p →
  state_at_uncached p acc tr X variable t m scaled extrapolate
  = match control_at p acc X variable t m false extrapolate with
    | inr sym => Ok sym
    | inl (KeyError _) =>
        match constant_inputs acc m !! variable with
        | Some constant_input =>
            fills ← fill_values extrapolate (ts_values constant_input);
            Ok (interpolate p t (ts_times constant_input)
                  (ts_values constant_input) fills.1 fills.2
                  (interpolation_method p variable))
        | None =>
            match parameters acc m !! variable with
            | Some sym => Ok sym
            | None => Raise (KeyError variable)
            end
        end
    | inl e => Raise e
    end.
Proof.
  intros Hne Hn. unfold state_at_uncached.
  destruct (decide (ensemble_size p = 0)); [contradiction |].
  rewrite bind_Ok.
  destruct (canonical_signed acc variable) as [canonical sign]. simpl in Hn.
  rewrite free_variable_at_from_missing by exact Hn.
  rewrite bind_Ok. reflexivity.
Qed.

(** X15.  For a control, [state_at] gives what [control_at] gives for the
    unscaled value, whether the scaled value is asked for or not, and
    stores it in the symbol cache. *)
Theorem state_at_control_ignores_scaled (p : Problem) (acc : Accessors)
    (tr : Transcription) (X : list Qc) (variable : string) (t : Qc)
    (m : nat) (scaled extrapolate : bool) (cache : gmap string pyfloat) :
  size_get (t_sizes tr) variable ≤ 1 →
  ensemble_size p ≠ 0 →
  (canonical_signed acc variable).1 ∉ state_chain p →
  (canonical_signed acc variable).1 ∈ controls p →
  cache !! symbol_name acc variable m (t - initial_time p)%Qc scaled
             extrapolate = None →
  state_at p acc tr X variable t m scaled extrapolate cache
  = (sym ← control_at p acc X variable t m false extrapolate;
     Ok (sym,
         <[symbol_name acc variable m (t - initial_time p)%Qc scaled
             extrapolate := sym]> cache)).
Proof.
  intros Hsize Hne Hn Hin Hmiss. unfold state_at.
  destruct (decide (1 < size_get (t_sizes tr) variable)); [lia |].
  rewrite Hmiss.
  rewrite state_at_uncached_unfound by assumption.
  destruct (control_at p acc X variable t m false extrapolate)
    as [e | sym] eqn:Hc; [| reflexivity].
  destruct e; try reflexivity.
  exfalso. revert Hc. unfold control_at.
  destruct (canonical_signed acc variable) as [canonical sign].
  simpl in Hin. rewrite control_at_from_found by exact Hin.
  apply control_branch_no_key_error.
Qed.

(** X16.  For a name that is neither a state, a path variable nor a control,
    [state_at] gives the constant input of that name interpolated at the
    time, else the parameter of that name, else a key error with the
    name. *)
Theorem state_at_falls_back (p : Problem) (acc : Accessors)
    (tr : Transcription) (X : list Qc) (variable : string) (t : Qc)
    (m : nat) (scaled extrapolate : bool) (cache : gmap string pyfloat) :
  size_get (t_sizes tr) variable ≤ 1 →
  ensemble_size p ≠ 0 →
  (canonical_signed acc variable).1 ∉ state_chain p →
  (canonical_signed acc variable).1 ∉ controls p →
  cache !! symbol_name acc variable m (t - initial_time p)%Qc scaled
             extrapolate = None →
  state_at p acc tr X variable t m scaled extrapolate cache
  = match constant_inputs acc m !! variable with
    | Some constant_input =>
        fills ← fill_values extrapolate (ts_values constant_input);
        let sym :=
          interpolate p t (ts_times constant_input)
            (ts_values constant_input) fills.1 fills.2
            (interpolation_method p variable) in
        Ok (sym,
            <[symbol_name acc variable m (t - initial_time p)%Qc scaled
                extrapolate := sym]> cache)
    | None =>
        match parameters acc m !! variable with
        | Some sym =>
            Ok (sym,
                <[symbol_name acc variable m (t - initial_time p)%Qc scaled
                    extrapolate := sym]> cache)
        | None => Raise (KeyError variable)
        end
    end.
Proof.
  intros Hsize Hne Hn Hnc Hmiss. unfold state_at.
  destruct (decide (1 < size_get (t_sizes tr) variable)); [lia |].
  rewrite Hmiss.
  rewrite state_at_uncached_unfound by assumption.
  assert (Hc : control_at p acc X variable t m false extrapolate
               = Raise (KeyError variable)).
  { unfold control_at.
    destruct (canonical_signed acc variable) as [canonical sign].
    simpl in Hnc. apply control_at_from_missing. exact Hnc. }
  rewrite Hc. unfold Raise.
  destruct (constant_inputs acc m !! variable) as [ci |].
  - destruct (fill_values extrapolate (ts_values ci)) as [e | fills];
      reflexivity.
  - destruct (parameters acc m !! variable); reflexivity.
Qed.

Lemma free_variable_branch_collocated (p : Problem) (acc : Accessors)
    (X : list Qc) (v : string) (sign : Z) (t : Qc) (m : nat)
    (scaled : bool) (offset : nat) :
  v ∉ integrated_states p →
  offset + length (times p (Some v)) ≤ length X →
  (initial_time p ≤ t)%Qc →
  free_variable_branch p acc X v sign t m scaled true offset
  = Ok (signed sign
          (times_nominal (negb scaled) (variable_nominal p v)
             (ca_interpolate_at acc (times p (Some v))
                (Fin <$> slice_of X offset
                           (offset + length (times p (Some v))))
                t (interpolation_method p v)))).
Proof.
  intros Hni Hin Ht. unfold free_variable_branch, mx_slice. cbv zeta.
  destruct (decide (v ∈ integrated_states p)); [contradiction |].
  destruct (decide (offset + length (times p (Some v)) ≤ length X));
    [| lia].
  rewrite bind_Ok.
  destruct (decide (t < initial_time p)%Qc) as [Hlt | _].
  - exfalso. exact (Qclt_not_le _ _ Hlt Ht).
  - reflexivity.
Qed.

Lemma scalar_chain_widths (p : Problem) :
  reaches_layout p →
  (∀ v s, (v, s) ∈ path_variables p → s = 1) →
  ∀ v, v ∈ state_chain p →
       state_width p (variable_sizes p) v = free_variable_width p v.
Proof.
  intros Hreach Hscalar v Hv.
  destruct (reaches_layout_sizes p Hreach) as (Hst & Hpath & _).
  unfold state_width, free_variable_width.
  destruct (decide (v ∈ integrated_states p)); [reflexivity |].
  assert (Hs : variable_sizes p !! v = Some 1).
  { unfold state_chain in Hv. rewrite !elem_of_app in Hv.
    assert (Hcases : v ∈ differentiated_states p ++ algebraic_states p
                     ∨ v ∈ path_variable_names p).
    { rewrite elem_of_app. tauto. }
    destruct Hcases as [Hv' | Hv'].
    - apply Hst. exact Hv'.
    - clear Hv. rename Hv' into Hv. unfold path_variable_names in Hv.
      apply list_elem_of_fmap in Hv as ([v' s] & -> & Hvs). simpl.
      rewrite (Hpath v' s Hvs). rewrite (Hscalar v' s Hvs). reflexivity. }
  rewrite Hs. simpl. lia.
Qed.

(** X17.  When every path variable is scalar, [state_at] interpolates, from
    the initial time on, the values of the slots recorded in the index map
    for the state or path variable (what [state_vector] reads), times the
    nominal unless the scaled value is asked for, and with the sign of the
    alias. *)
Theorem state_at_reads_recorded_slot (p : Problem) (acc : Accessors)
    (tr : Transcription) (log : list event) (X : list Qc)
    (variable canonical : string) (sign : Z) (t : Qc) (m : nat)
    (scaled : bool) (cache : gmap string pyfloat) :
  reaches_layout p →
  run (transcribe_layout p) = (log, Ok tr) →
  length X = t_n_x tr →
  m < ensemble_size p →
  (∀ v s, (v, s) ∈ path_variables p → s = 1) →
  size_get (t_sizes tr) variable ≤ 1 →
  canonical_signed acc variable = (canonical, sign) →
  canonical ∈ state_chain p →
  canonical ∉ integrated_states p →
  (initial_time p ≤ t)%Qc →
  cache !! symbol_name acc variable m (t - initial_time p)%Qc scaled true
  = None →
  ∃ values,
    state_vector tr X canonical m = Ok values ∧
    length values = length (times p (Some canonical)) ∧
    let sym :=
      signed sign
        (times_nominal (negb scaled) (variable_nominal p canonical)
           (ca_interpolate_at acc (times p (Some canonical))
              (Fin <$> values) t (interpolation_method p canonical))) in
    state_at p acc tr X variable t m scaled true cache
    = Ok (sym,
          <[symbol_name acc variable m (t - initial_time p)%Qc scaled true
              := sym]> cache).
Proof.
  intros Hreach Hrun HX Hm Hscalar Hsize Hcs Hin Hni Ht Hmiss.
  destruct (reaches_layout_merged p Hreach) as (tr' & ms & Hrun' & Hmerged).
  rewrite Hrun in Hrun'. injection Hrun' as _ <-.
  destruct (Hmerged m Hm) as [indices Hl].
  pose proof (scalar_chain_widths p Hreach Hscalar) as Hw.
  set (o := offset_in (state_width p (variable_sizes p)) (state_chain p)
              (m * ms) canonical).
  set (n := length (times p (Some canonical))).
  assert (Hsw : state_width p (variable_sizes p) canonical = n).
  { rewrite (Hw canonical Hin). unfold free_variable_width.
    destruct (decide (canonical ∈ integrated_states p));
      [contradiction | reflexivity]. }
  assert (Hinside : o + control_count p + n ≤ length X).
  { destruct (offset_in_bounds (state_width p (variable_sizes p))
                (state_chain p) (m * ms) canonical Hin) as [_ Hb].
    fold o in Hb. rewrite Hsw in Hb.
    pose proof (mg_total _ _ _ _ _ Hl) as Htot.
    rewrite HX, (mg_n_x _ _ _ _ _ Hl).
    pose proof (Nat.mul_le_mono_r (S m) (ensemble_size p) ms ltac:(lia))
      as Hk. simpl in Hk. lia. }
  exists (slice_of X (o + control_count p) (o + control_count p + n)).
  split; [| split].
  - unfold state_vector, lookup_slot, index.
    rewrite (mg_lookup _ _ _ _ _ Hl). rewrite bind_Ok.
    rewrite (mg_state _ _ _ _ _ Hl canonical Hin). rewrite bind_Ok.
    unfold state_slot.
    destruct (decide (canonical ∈ integrated_states p)); [contradiction |].
    fold o. rewrite Hsw. simpl.
    replace (o + n + control_count p) with (o + control_count p + n) by lia.
    reflexivity.
  - rewrite slice_of_length by exact Hinside. lia.
  - cbv zeta. unfold state_at.
    destruct (decide (1 < size_get (t_sizes tr) variable)); [lia |].
    rewrite Hmiss. unfold state_at_uncached.
    destruct (decide (ensemble_size p = 0)); [lia |].
    rewrite bind_Ok. rewrite Hcs.
    rewrite (member_size_division p tr ms)
      by (try lia; exact (mg_state_size _ _ _ _ _ Hl)).
    rewrite free_variable_at_from_found by exact Hin.
    rewrite (mg_control_size _ _ _ _ _ Hl).
    rewrite <- (offset_in_ext _ _ _ _ _ Hw).
    rewrite offset_in_base.
    assert (Ho : o = m * ms + offset_in (state_width p (variable_sizes p))
                                 (state_chain p) 0 canonical).
    { unfold o. apply offset_in_base. }
    replace (control_count p + m * ms
             + offset_in (state_width p (variable_sizes p)) (state_chain p) 0
                 canonical)
      with (o + control_count p) by lia.
    rewrite free_variable_branch_collocated by (try assumption; fold n; lia).
    fold n. rewrite !bind_Ok. reflexivity.
Qed.

(** ** The initial derivative *)

(** X8.  [extract_states] returns, under the name [initial_] followed by the
    name of the k-th derivative, the slot k of the member's derivative
    slots (the last slots of its block) times the nominal of the state over
    its initial step size, when that step size is not zero. *)
Theorem extract_states_initial_derivative (p : Problem) (inp : ExtractInputs)
    (tr : Transcription) (log : list event) (m : nat) (X : list Qc) (k : nat)
    (state der : string) :
  reaches_layout p → decodable p inp → NoDup (derivative_names p) →
  run (transcribe_layout p) = (log, Ok tr) →
  ei_transcription inp = tr → length X = t_n_x tr →
  m < ensemble_size p →
  differentiated_states p !! k = Some state →
  derivative_names p !! k = Some der →
  (∀ dt, t_initial_dt tr !! state = Some dt → dt ≠ 0%Qc) →
  ∃ member_size results dt x,
    t_state_size tr = ensemble_size p * member_size ∧
    extract_states p inp X m = Ok results ∧
    t_initial_dt tr !! state = Some dt ∧
    X !! (t_control_size tr + (m + 1) * member_size
          - length (derivative_names p) + k) = Some x ∧
    results !! ("initial_" +:+ der)
    = Some (RVector [(variable_nominal p state / dt * x)%Qc]).
Proof.
  intros Hreach Hdec Hnd Hrun Hinp HX Hm Hstate Hder _.
  destruct (initial_derivative_entry p inp tr log m X k state der)
    as (ms & results & dt & x & Hsize & _ & Hres & Hdt & Hx & Hv);
    try assumption.
  exists ms, results, dt, x. auto.
Qed.

Lemma mx_index_z_nat {A} (a : list A) (i : nat) (z : Z) (x : A) :
  z = Z.of_nat i → a !! i = Some x → mx_index_z a z = Ok x.
Proof.
  intros -> H. unfold mx_index_z, mx_index.
  destruct (decide (0 ≤ Z.of_nat i)%Z); [| lia].
  rewrite Nat2Z.id, H. reflexivity.
Qed.

(** X18.  At the initial time, [der_at] of a differentiated state is the
    value that [extract_states] reports as its initial derivative, with the
    sign of the alias, when the initial step size is not zero; the symbol
    cache is left as it is. *)
Theorem der_at_initial_time (p : Problem) (acc : Accessors)
    (inp : ExtractInputs) (tr : Transcription) (log : list event) (m : nat)
    (X : list Qc) (k : nat) (variable state der : string) (sign : Z)
    (cache : gmap string pyfloat) :
  reaches_layout p → decodable p inp → NoDup (derivative_names p) →
  run (transcribe_layout p) = (log, Ok tr) →
  ei_transcription inp = tr → length X = t_n_x tr →
  m < ensemble_size p →
  canonical_signed acc variable = (state, sign) →
  differentiated_states p !! k = Some state →
  derivative_names p !! k = Some der →
  (∀ dt, t_initial_dt tr !! state = Some dt → dt ≠ 0%Qc) →
  ∃ results value,
    extract_states p inp X m = Ok results ∧
    results !! ("initial_" +:+ der) = Some (RVector [value]) ∧
    der_at p acc tr X variable (initial_time p) m cache
    = Ok (Fin (qz sign * value)%Qc, cache).
Proof.
  intros Hreach Hdec Hnd Hrun Hinp HX Hm Hcs Hstate Hder Hdt0.
  destruct (initial_derivative_entry p inp tr log m X k state der)
    as (ms & results & dt & x & Hsize & Hders & Hres & Hdt & Hx & Hv);
    try assumption.
  exists results, (variable_nominal p state / dt * x)%Qc.
  split; [exact Hres |]. split; [exact Hv |].
  assert (Hndd : NoDup (differentiated_states p)).
  { pose proof (rl_names p Hreach) as Hn. unfold state_chain in Hn.
    rewrite <- !app_assoc in Hn. apply NoDup_app in Hn as [Hn _]. exact Hn. }
  destruct (index_map_of_lookup (differentiated_states p) state)
    as (_ & _ & Hidx).
  unfold der_at.
  destruct (decide (initial_time p = initial_time p)); [| congruence].
  destruct (decide (ensemble_size p = 0)); [lia |].
  rewrite bind_Ok. rewrite Hcs. rewrite (Hidx Hndd k Hstate).
  rewrite Hdt. rewrite bind_Ok.
  rewrite (member_size_division p tr ms) by (try lia; exact Hsize).
  rewrite (mx_index_z_nat X
             (t_control_size tr + (m + 1) * ms
              - length (derivative_names p) + k) _ x);
    [| | exact Hx].
  - rewrite !bind_Ok. unfold fdiv.
    destruct (decide (dt = 0%Qc)) as [Hz | _];
      [exfalso; exact (Hdt0 dt Hdt Hz) |].
    simpl. do 2 f_equal. f_equal. ring.
  - assert (Hle : length (derivative_names p) ≤ (m + 1) * ms).
    { pose proof (Nat.mul_le_mono_r 1 (m + 1) ms ltac:(lia)). lia. }
    lia.
Qed.

(** ** The initial derivative from the history *)

Lemma set_item_z_nat {A} (a a' : list A) (i : nat) (v : A) :
  set_item_z a (Z.of_nat i) v = Ok a' →
  i < length a ∧ a' = <[i := v]> a.
Proof.
  unfold set_item_z, set_item.
  destruct (decide (0 ≤ Z.of_nat i)%Z); [| lia].
  rewrite Nat2Z.id. destruct (decide (i < length a)); [| discriminate].
  intros H. injection H as <-. auto.
Qed.

(** A pass of the loop keeps the lengths of the bounds and every slot but
    the one of its own derivative. *)
Lemma pin_initial_derivative_frame (p : Problem) (tr : Transcription)
    (X : list Qc) (m off : nat) (history_m : gmap string Timeseries)
    (ids : list pyfloat) (lbx ubx cons lbx' ubx' cons' : list pyfloat)
    (i : nat) (variable : string) :
  pin_initial_derivative p tr X m (Z.of_nat off) history_m ids
    (lbx, ubx, cons) (i, variable) = Ok (lbx', ubx', cons') →
  length lbx' = length lbx ∧ length ubx' = length ubx ∧
  ∀ j, j ≠ off + i → lbx' !! j = lbx !! j ∧ ubx' !! j = ubx !! j.
Proof.
  unfold pin_initial_derivative. intros H.
  assert (Hsame : Ok (lbx, ubx, cons)
                  = (Ok (lbx', ubx', cons')
                     : result (list pyfloat * list pyfloat * list pyfloat)) →
          length lbx' = length lbx ∧ length ubx' = length ubx ∧
          ∀ j, j ≠ off + i → lbx' !! j = lbx !! j ∧ ubx' !! j = ubx !! j).
  { intros Heq. injection Heq as <- <- <-. auto. }
  destruct (history_m !! variable) as [h |]; [| exact (Hsame H)].
  destruct (decide (length (ts_times h) ≤ 1)); [exact (Hsame H) |].
  apply bind_inv_Ok in H as (v2 & _ & H).
  destruct (isnan v2); [exact (Hsame H) |].
  apply bind_inv_Ok in H as (t_last & _ & H).
  destruct (decide (t_last = initial_time p)); [| discriminate].
  apply bind_inv_Ok in H as (v_last & _ & H).
  destruct (isnan v_last).
  - apply bind_inv_Ok in H as (values & _ & H).
    apply bind_inv_Ok in H as (x0 & _ & H).
    apply bind_inv_Ok in H as (val & _ & H).
    apply bind_inv_Ok in H as (sym & _ & H).
    injection H as <- <- <-. auto.
  - apply bind_inv_Ok in H as (val & _ & H).
    apply bind_inv_Ok in H as (dt & _ & H).
    replace (Z.of_nat off + Z.of_nat i)%Z with (Z.of_nat (off + i)) in H
      by lia.
    apply bind_inv_Ok in H as (l1 & Hl & H).
    apply bind_inv_Ok in H as (u1 & Hu & H).
    injection H as <- <- <-.
    apply set_item_z_nat in Hl as [_ ->].
    apply set_item_z_nat in Hu as [_ ->].
    rewrite !length_insert.
    split; [reflexivity |]. split; [reflexivity |].
    intros j Hj. rewrite !list_lookup_insert_ne by lia. auto.
Qed.

Lemma pin_initial_derivatives_frame (p : Problem) (tr : Transcription)
    (X : list Qc) (m off : nat) (history_m : gmap string Timeseries)
    (ids : list pyfloat) (l : list (nat * string))
    (st st' : list pyfloat * list pyfloat * list pyfloat) :
  foldM (pin_initial_derivative p tr X m (Z.of_nat off) history_m ids) st l
  = Ok st' →
  length st'.1.1 = length st.1.1 ∧ length st'.1.2 = length st.1.2 ∧
  ∀ j, (∀ i, i ∈ l.*1 → j ≠ off + i) →
       st'.1.1 !! j = st.1.1 !! j ∧ st'.1.2 !! j = st.1.2 !! j.
Proof.
  revert st. induction l as [| [i v] l IH]; intros st H.
  - injection H as <-. auto.
  - cbn [foldM] in H. apply bind_inv_Ok in H as (st1 & Hstep & H).
    destruct st as [[lbx ubx] cons]. destruct st1 as [[lbx1 ubx1] cons1].
    destruct (pin_initial_derivative_frame _ _ _ _ _ _ _ _ _ _ _ _ _ _ _
                Hstep) as (Hl1 & Hu1 & Hf1).
    destruct (IH _ H) as (Hl & Hu & Hf). simpl in *.
    split; [lia |]. split; [lia |].
    intros j Hj.
    destruct (Hf j) as [Ha Hb].
    { intros i' Hi'. apply Hj. right. exact Hi'. }
    destruct (Hf1 j) as [Hc Hd].
    { apply Hj. left. }
    rewrite Ha, Hb. auto.
Qed.

Lemma pin_initial_derivative_target (p : Problem) (tr : Transcription)
    (X : list Qc) (m off : nat) (history_m : gmap string Timeseries)
    (ids : list pyfloat) (lbx ubx cons lbx' ubx' cons' : list pyfloat)
    (k : nat) (state : string) (h : Timeseries) (v2 v_last : pyfloat)
    (t2 dt : Qc) :
  history_m !! state = Some h →
  1 < length (ts_times h) →
  index_back (ts_values h) 2 = Ok v2 → isnan v2 = false →
  index_back (ts_values h) 1 = Ok v_last → isnan v_last = false →
  index_back (ts_times h) 2 = Ok t2 →
  t_initial_dt tr !! state = Some dt →
  pin_initial_derivative p tr X m (Z.of_nat off) history_m ids
    (lbx, ubx, cons) (k, state) = Ok (lbx', ubx', cons') →
  lbx' !! (off + k) = Some (pinned_derivative p h state v2 t2 dt) ∧
  ubx' !! (off + k) = Some (pinned_derivative p h state v2 t2 dt).
Proof.
  intros Hh Hlen Hv2 Hn2 Hvl Hnl Ht2 Hdt H.
  unfold pin_initial_derivative in H. rewrite Hh in H.
  destruct (decide (length (ts_times h) ≤ 1)); [lia |].
  rewrite Hv2, bind_Ok, Hn2 in H.
  apply bind_inv_Ok in H as (t_last & _ & H).
  destruct (decide (t_last = initial_time p)); [| discriminate].
  rewrite Hvl, bind_Ok, Hnl in H.
  unfold backward_difference in H. rewrite Hv2, Ht2, !bind_Ok, Hdt in H.
  rewrite bind_Ok in H.
  replace (Z.of_nat off + Z.of_nat k)%Z with (Z.of_nat (off + k)) in H
    by lia.
  apply bind_inv_Ok in H as (l1 & Hl & H).
  apply bind_inv_Ok in H as (u1 & Hu & H).
  injection H as <- <- <-.
  apply set_item_z_nat in Hl as [Hll ->].
  apply set_item_z_nat in Hu as [Hlu ->].
  split; apply list_lookup_insert_eq; assumption.
Qed.

Lemma enumerate_split {A} (l : list A) (k : nat) (x : A) :
  l !! k = Some x →
  ∃ l1 l2, enumerate l = l1 ++ (k, x) :: l2 ∧ ∀ i, i ∈ l2.*1 → i ≠ k.
Proof.
  intros H.
  pose proof (enumerate_lookup l k x H) as Hin.
  apply list_elem_of_split in Hin as (l1 & l2 & Heq).
  exists l1, l2. split; [exact Heq |].
  intros i Hi ->.
  assert (Hnd : NoDup (enumerate l).*1).
  { unfold enumerate. rewrite fst_zip by (rewrite length_seq; lia).
    apply NoDup_seq. }
  rewrite Heq, fmap_app, fmap_cons in Hnd.
  apply NoDup_app in Hnd as (_ & _ & Hnd).
  apply NoDup_cons in Hnd as [Hnot _]. exact (Hnot Hi).
Qed.

Lemma enumerate_fst_lt {A} (l : list A) (i : nat) :
  i ∈ (enumerate l).*1 → i < length l.
Proof.
  unfold enumerate. rewrite fst_zip by (rewrite length_seq; lia).
  intros H. apply elem_of_seq in H. lia.
Qed.

(** X5.  For a differentiated state whose history holds at least two points
    and has numbers at its last two points, the loop over the
    differentiated states sets both bounds of the slot of the state's
    initial derivative to the backward difference of the history, times
    the initial step size, over the nominal; it keeps the lengths of both
    arrays and leaves every slot outside the member's initial-derivative
    slots as it was. *)
Theorem initial_derivative_pinned_from_history (p : Problem)
    (tr : Transcription) (m : nat) (X : list Qc)
    (ids lbx ubx lbx' ubx' cons : list pyfloat) (k : nat) (state : string)
    (h : Timeseries) (v2 v_last : pyfloat) (t2 dt : Qc) :
  ensemble_size p ≠ 0 →
  length (derivative_names p)
  ≤ (m + 1) * (t_state_size tr / ensemble_size p) →
  differentiated_states p !! k = Some state →
  history p m !! state = Some h →
  1 < length (ts_times h) →
  index_back (ts_values h) 2 = Ok v2 → isnan v2 = false →
  index_back (ts_values h) 1 = Ok v_last → isnan v_last = false →
  index_back (ts_times h) 2 = Ok t2 →
  t_initial_dt tr !! state = Some dt →
  variable_nominal p state ≠ 0%Qc →
  pin_initial_derivatives p tr X m ids lbx ubx = Ok (lbx', ubx', cons) →
  let der_offset :=
    t_control_size tr + (m + 1) * (t_state_size tr / ensemble_size p)
    - length (derivative_names p) in
  let val := pinned_derivative p h state v2 t2 dt in
  lbx' !! (der_offset + k) = Some val ∧
  ubx' !! (der_offset + k) = Some val ∧
  length lbx' = length lbx ∧ length ubx' = length ubx ∧
  ∀ j, j < der_offset ∨ der_offset + length (differentiated_states p) ≤ j →
       lbx' !! j = lbx !! j ∧ ubx' !! j = ubx !! j.
Proof.
  intros Hne Hle Hstate Hh Hlen Hv2 Hn2 Hvl Hnl Ht2 Hdt _ Hpin.
  cbv zeta.
  set (ms := t_state_size tr / ensemble_size p) in *.
  set (off := t_control_size tr + (m + 1) * ms
              - length (derivative_names p)).
  unfold pin_initial_derivatives in Hpin.
  destruct (decide (ensemble_size p = 0)); [contradiction |].
  rewrite bind_Ok in Hpin. fold ms in Hpin.
  replace (Z.of_nat (t_control_size tr)
           + (Z.of_nat m + 1) * Z.of_nat ms
           - Z.of_nat (length (derivative_names p)))%Z
    with (Z.of_nat off) in Hpin by (unfold off; lia).
  destruct (pin_initial_derivatives_frame _ _ _ _ _ _ _ _ _ _ Hpin)
    as (Hlen_l & Hlen_u & Hall).
  simpl in Hlen_l, Hlen_u, Hall.
  destruct (enumerate_split (differentiated_states p) k state Hstate)
    as (l1 & l2 & Hsplit & Hl2).
  rewrite Hsplit, foldM_app in Hpin.
  apply bind_inv_Ok in Hpin as ([[lbx1 ubx1] cons1] & _ & Hpin).
  cbn [foldM] in Hpin.
  apply bind_inv_Ok in Hpin as ([[lbx2 ubx2] cons2] & Hstep & Hpin).
  destruct (pin_initial_derivative_target p tr X m off (history p m) ids
              lbx1 ubx1 cons1 lbx2 ubx2 cons2 k state h v2 v_last t2 dt)
    as [Hlb Hub]; try assumption.
  destruct (pin_initial_derivatives_frame _ _ _ _ _ _ _ _ _ _ Hpin)
    as (_ & _ & Hframe).
  destruct (Hframe (off + k)) as [Hfl Hfu].
  { intros i Hi Heq. apply (Hl2 i Hi). lia. }
  simpl in Hfl, Hfu.
  split; [rewrite Hfl; exact Hlb |]. split; [rewrite Hfu; exact Hub |].
  split; [exact Hlen_l |]. split; [exact Hlen_u |].
  intros j Hj. apply Hall.
  intros i Hi. apply enumerate_fst_lt in Hi. lia.
Qed.

(** ** der_at *)

Lemma der_at_after_initial_time (p : Problem) (acc : Accessors)
    (tr : Transcription) (X : list Qc) (variable : string) (t : Qc)
    (m : nat) (cache : gmap string pyfloat) :
  (initial_time p < t)%Qc →
  der_at p acc tr X variable t m cache
  = (first ← index (times p (Some variable)) 0;
     if decide (t = first) then Ok (Fin 0, cache)
     else der_at_loop p acc tr X variable t m cache
            (times p (Some variable))).
Proof.
  intros Ht. unfold der_at.
  destruct (decide (t = initial_time p)) as [-> | _];
    [exfalso; exact (Qclt_not_le _ _ Ht (Qcle_refl _)) |].
  rewrite bind_Ok.
  destruct (decide (t ≤ initial_time p)%Qc) as [Hle | _];
    [exfalso; exact (Qclt_not_le _ _ Ht Hle) |].
  reflexivity.
Qed.

Lemma der_at_loop_beyond (p : Problem) (acc : Accessors)
    (tr : Transcription) (X : list Qc) (variable : string) (t : Qc)
    (m : nat) (cache : gmap string pyfloat) (l : list Qc) :
  Forall (λ a, (a < t)%Qc) l →
  der_at_loop p acc tr X variable t m cache l = Raise IndexError.
Proof.
  induction l as [| a l IH]; intros Hall; [reflexivity |].
  apply Forall_cons in Hall as [Ha Hall]. simpl.
  destruct (decide (a < t)%Qc); [| contradiction].
  destruct l as [| b l']; [reflexivity |].
  pose proof Hall as Hall'. apply Forall_cons in Hall' as [Hb _].
  destruct (decide (t ≤ b)%Qc) as [Hle | _];
    [exfalso; exact (Qclt_not_le _ _ Hb Hle) |].
  apply IH. exact Hall.
Qed.

(** X19.  [der_at] refuses, with an index error, a time after the initial
    time that lies behind every point of the grid of the variable. *)
Theorem der_at_beyond_grid (p : Problem) (acc : Accessors)
    (tr : Transcription) (X : list Qc) (variable : string) (t : Qc)
    (m : nat) (cache : gmap string pyfloat) :
  (initial_time p < t)%Qc →
  Forall (λ a, (a < t)%Qc) (times p (Some variable)) →
  der_at p acc tr X variable t m cache = Raise IndexError.
Proof.
  intros Ht Hall. rewrite der_at_after_initial_time by exact Ht.
  destruct (times p (Some variable)) as [| first l] eqn:Hts; [reflexivity |].
  unfold index. cbn [lookup list_lookup]. rewrite bind_Ok.
  pose proof Hall as Hall'. apply Forall_cons in Hall' as [Hf _].
  destruct (decide (t = first)) as [-> | _];
    [exfalso; exact (Qclt_not_le _ _ Hf (Qcle_refl _)) |].
  apply der_at_loop_beyond. exact Hall.
Qed.

Lemma der_at_loop_interval (p : Problem) (acc : Accessors)
    (tr : Transcription) (X : list Qc) (variable : string)
    (t t_i t_next : Qc) (m : nat) (cache : gmap string pyfloat)
    (before after : list Qc) :
  Forall (λ a, (a < t)%Qc) before → (t_i < t)%Qc → (t ≤ t_next)%Qc →
  der_at_loop p acc tr X variable t m cache
    (before ++ t_i :: t_next :: after)
  = ('(x_next, cache1) ←
       state_at p acc tr X variable t_next m false true cache;
     '(x_i, cache2) ←
       state_at p acc tr X variable t_i m false true cache1;
     Ok (fdiv (fsub x_next x_i) (t_next - t_i)%Qc, cache2)).
Proof.
  intros Hall Hi Hnext.
  induction before as [| a l IH].
  - simpl. destruct (decide (t_i < t)%Qc); [| contradiction].
    destruct (decide (t ≤ t_next)%Qc); [| contradiction]. reflexivity.
  - apply Forall_cons in Hall as [Ha Hall].
    change ((a :: l) ++ t_i :: t_next :: after)
      with (a :: (l ++ t_i :: t_next :: after)).
    cbn [der_at_loop].
    destruct (decide (a < t)%Qc); [| contradiction].
    assert (Hhead : ∃ b rest, l ++ t_i :: t_next :: after = b :: rest
                              ∧ (b < t)%Qc).
    { destruct l as [| b l']; simpl; [eauto |].
      apply Forall_cons in Hall as [Hb _]. eauto. }
    destruct Hhead as (b & rest & Heq & Hb).
    rewrite Heq. rewrite Heq in IH.
    destruct (decide (t ≤ b)%Qc) as [Hle | _];
      [exfalso; exact (Qclt_not_le _ _ Hb Hle) |].
    apply IH. exact Hall.
Qed.

(** X20.  For a time after the initial time, [der_at] is the difference
    quotient of [state_at] over the first interval of the grid that holds
    the time (open at its left end): the value at the right end is asked
    for first, and the symbol cache is passed from one call to the next. *)
Theorem der_at_finite_difference (p : Problem) (acc : Accessors)
    (tr : Transcription) (X : list Qc) (variable : string)
    (t t_i t_next : Qc) (m : nat) (cache : gmap string pyfloat)
    (before after : list Qc) :
  (initial_time p < t)%Qc →
  times p (Some variable) = before ++ t_i :: t_next :: after →
  Forall (λ a, (a < t)%Qc) before → (t_i < t)%Qc → (t ≤ t_next)%Qc →
  der_at p acc tr X variable t m cache
  = ('(x_next, cache1) ←
       state_at p acc tr X variable t_next m false true cache;
     '(x_i, cache2) ←
       state_at p acc tr X variable t_i m false true cache1;
     Ok (fdiv (fsub x_next x_i) (t_next - t_i)%Qc, cache2)).
Proof.
  intros Ht Hts Hall Hi Hnext.
  rewrite der_at_after_initial_time by exact Ht.
  rewrite Hts.
  assert (Hfirst : ∃ first,
             (before ++ t_i :: t_next :: after) !! 0 = Some first
             ∧ (first < t)%Qc).
  { destruct before as [| a l]; simpl; [eauto |].
    apply Forall_cons in Hall as [Ha _]. eauto. }
  destruct Hfirst as (first & Hf & Hlt).
  unfold index. rewrite Hf, bind_Ok.
  destruct (decide (t = first)) as [-> | _];
    [exfalso; exact (Qclt_not_le _ _ Hlt (Qcle_refl _)) |].
  apply der_at_loop_interval; assumption.
Qed.

(** ** The examples reach the layout *)

Lemma single_state_reaches : reaches_layout Examples.single_state.
Proof.
  constructor.
  - apply (bool_decide_unpack _). vm_compute. reflexivity.
  - apply (bool_decide_unpack _). vm_compute. reflexivity.
  - intros v s Hin. inversion Hin.
  - vm_compute. exact I.
  - vm_compute. exact I.
Qed.

Lemma single_state_decodable :
  decodable Examples.single_state Examples.single_state_inputs.
Proof.
  constructor.
  - intros v Hv. inversion Hv.
  - constructor.
  - intros v s Hin. inversion Hin.
  - intros v Hv. apply list_elem_of_singleton in Hv as ->.
    split; [intros Hc; inversion Hc |].
    intros d Hd. apply list_elem_of_singleton in Hd as ->. discriminate.
Qed.

Lemma single_state_run :
  run (transcribe_layout Examples.single_state)
  = ([DiscretizeControlsCalled; DiscretizeStatesCalled],
     Ok Examples.single_state_transcription).
Proof. vm_compute. reflexivity. Qed.

Lemma path_and_extra_reaches : reaches_layout Examples.path_and_extra.
Proof.
  constructor.
  - apply (bool_decide_unpack _). vm_compute. reflexivity.
  - apply (bool_decide_unpack _). vm_compute. reflexivity.
  - intros v s Hin Hc. inversion Hc.
  - vm_compute. exact I.
  - vm_compute. exact I.
Qed.

Lemma path_and_extra_decodable :
  decodable Examples.path_and_extra Examples.path_and_extra_inputs.
Proof.
  constructor.
  - intros v Hv. split; [intros Hc; inversion Hc | reflexivity].
  - constructor.
  - intros v s Hin. apply list_elem_of_singleton in Hin.
    injection Hin as -> ->. lia.
  - intros v Hv. split; [intros Hc; inversion Hc |].
    intros d Hd. apply list_elem_of_singleton in Hd as ->.
    intros ->. revert Hv. apply (bool_decide_unpack _). vm_compute.
    reflexivity.
Qed.

Lemma path_and_extra_run :
  run (transcribe_layout Examples.path_and_extra)
  = ([DiscretizeControlsCalled; DiscretizeStatesCalled],
     Ok Examples.path_and_extra_transcription).
Proof. vm_compute. reflexivity. Qed.

Lemma extract_states_initial_derivative_witness :
  ∃ results,
    extract_states Examples.path_and_extra Examples.path_and_extra_inputs (Examples.ramp 33) 1
    = Ok results ∧
    results !! "initial_der(x)" = Some (RVector [qz 64]).
Proof.
  destruct (extract_states_initial_derivative Examples.path_and_extra
              Examples.path_and_extra_inputs Examples.path_and_extra_transcription
              [DiscretizeControlsCalled; DiscretizeStatesCalled] 1
              (Examples.ramp 33) 0 "x" "der(x)")
    as (ms & results & dt & x & Hsize & Hres & Hdt & Hx & Hv).
  - exact path_and_extra_reaches.
  - exact path_and_extra_decodable.
  - apply (bool_decide_unpack _). vm_compute. reflexivity.
  - exact path_and_extra_run.
  - reflexivity.
  - reflexivity.
  - simpl. lia.
  - reflexivity.
  - reflexivity.
  - intros dt Hdt. vm_compute in Hdt. injection Hdt as <-. discriminate.
  - assert (ms = 15) as -> by (simpl in Hsize; lia).
    vm_compute in Hdt. injection Hdt as <-.
    vm_compute in Hx. injection Hx as <-.
    exists results. split; [exact Hres |].
    etransitivity; [exact Hv |].
    apply (bool_decide_unpack _). vm_compute. reflexivity.
Defined.

Lemma extract_states_vector_path_variable_witness :
  ∃ results rows row,
    extract_states Examples.path_and_extra Examples.path_and_extra_inputs (Examples.ramp 33) 1
    = Ok results ∧
    results !! "w" = Some (RMatrix rows) ∧
    rows !! 2 = Some row ∧ row !! 1 = Some (qz 58).
Proof.
  destruct (extract_states_vector_path_variable Examples.path_and_extra
              Examples.path_and_extra_inputs Examples.path_and_extra_transcription
              [DiscretizeControlsCalled; DiscretizeStatesCalled] 1
              (Examples.ramp 33) "w" 2)
    as (indices & results & o & rows & Hi & Ho & Hres & Hw & _ & Hrows).
  - exact path_and_extra_reaches.
  - exact path_and_extra_decodable.
  - exact path_and_extra_run.
  - reflexivity.
  - reflexivity.
  - simpl. lia.
  - apply list_elem_of_singleton. reflexivity.
  - lia.
  - simpl in Hi. injection Hi as <-.
    vm_compute in Ho. injection Ho as <-.
    destruct (Hrows 2 1) as (row & x & Hrow & _ & Hx & Hk);
      [simpl; lia | lia |].
    vm_compute in Hx. injection Hx as <-.
    exists results, rows, row. split; [exact Hres |]. split; [exact Hw |].
    split; [exact Hrow |].
    rewrite Hk. apply (bool_decide_unpack _). vm_compute. reflexivity.
Defined.

Lemma extra_variable_agrees_with_extract_states_witness :
  ∃ results values,
    extract_states Examples.path_and_extra Examples.path_and_extra_inputs (Examples.ramp 33) 1
    = Ok results ∧
    extra_variable Examples.path_and_extra Examples.path_and_extra_transcription (Examples.ramp 33)
      "e" 1 = Ok values ∧
    values = [qz 60; qz 62] ∧
    results !! "e" = Some (RMatrix [values]).
Proof.
  destruct (extra_variable_agrees_with_extract_states Examples.path_and_extra
              Examples.path_and_extra_inputs Examples.path_and_extra_transcription
              [DiscretizeControlsCalled; DiscretizeStatesCalled] 1
              (Examples.ramp 33) "e" 2)
    as (results & values & Hres & Hvalues & _ & He).
  - exact path_and_extra_reaches.
  - exact path_and_extra_decodable.
  - exact path_and_extra_run.
  - reflexivity.
  - reflexivity.
  - simpl. lia.
  - apply list_elem_of_singleton. reflexivity.
  - exists results, values. split; [exact Hres |]. split; [exact Hvalues |].
    split; [| exact He].
    vm_compute in Hvalues. injection Hvalues as <-.
    apply (bool_decide_unpack _). vm_compute. reflexivity.
Defined.

Lemma classify_parameters_partition_witness :
  ∃ s,
    classify_parameters [[qz 1; qz 2]; [qz 1; qz 3]] [] ["a"; "b"] = Ok s ∧
    ["a"; "b"] ≡ₚ constant_parameters s ++ ensemble_parameters s ∧
    length (constant_parameter_values s) = length (constant_parameters s) ∧
    length (ensemble_parameter_values s) = 2.
Proof.
  destruct (classify_parameters [[qz 1; qz 2]; [qz 1; qz 3]] [] ["a"; "b"])
    as [e | s] eqn:H; [vm_compute in H; discriminate |].
  destruct (classify_parameters_partition _ _ _ _ H)
    as (_ & _ & Hperm & _ & Hc & He & _).
  exists s. auto.
Defined.

Lemma classify_parameters_single_member_witness :
  ∃ s,
    classify_parameters [[qz 1; qz 2]] ["b"] ["a"; "b"] = Ok s ∧
    constant_parameters s = ["a"] ∧ ensemble_parameters s = ["b"].
Proof.
  destruct (classify_parameters [[qz 1; qz 2]] ["b"] ["a"; "b"])
    as [e | s] eqn:H; [vm_compute in H; discriminate |].
  destruct (classify_parameters_single_member _ _ _ _ H) as [Hc He].
  exists s. split; [reflexivity |].
  rewrite Hc, He.
  split; apply (bool_decide_unpack _); vm_compute; reflexivity.
Defined.

Lemma der_resolves_witness :
  der Examples.single_state Examples.plain_accessors "minus_x"
  = Ok ((-1)%Z, "der(x)") ∧
  der Examples.single_state Examples.plain_accessors "u" = Ok (1%Z, "der(u)") ∧
  der Examples.single_state Examples.plain_accessors "v" = Raise (KeyError "v").
Proof.
  destruct (der_resolves Examples.single_state Examples.plain_accessors "minus_x")
    as (Hx & _ & _).
  destruct (der_resolves Examples.single_state Examples.plain_accessors "u")
    as (_ & Hu & _).
  destruct (der_resolves Examples.single_state Examples.plain_accessors "v")
    as (_ & _ & Hv).
  split; [| split].
  - apply (Hx ltac:(apply NoDup_singleton) 0); reflexivity.
  - apply Hu.
    + intros Hc. apply list_elem_of_singleton in Hc. discriminate.
    + apply list_elem_of_singleton. reflexivity.
  - apply Hv. intros Hc.
    revert Hc. apply (bool_decide_unpack _). vm_compute. reflexivity.
Defined.

Lemma control_at_reads_recorded_slot_witness :
  control_at Examples.path_and_extra Examples.plain_accessors (Examples.ramp 33) "u" (Q2Qc (1 # 2)) 0
    false true = Ok (Fin (qz 1)) ∧
  control_at Examples.path_and_extra Examples.plain_accessors (Examples.ramp 33) "u" (Q2Qc (1 # 2)) 0
    true true = Ok (Fin (Q2Qc (1 # 2))).
Proof.
  destruct (discretize_controls Examples.path_and_extra (bounds Examples.path_and_extra))
    as [e | [[count a] indices]] eqn:H; [vm_compute in H; discriminate |].
  assert (Hnd : NoDup (controls Examples.path_and_extra)) by apply NoDup_singleton.
  assert (Hin : "u" ∈ controls Examples.path_and_extra)
    by (apply list_elem_of_singleton; reflexivity).
  assert (Hcount : count ≤ length (Examples.ramp 33)).
  { apply discretize_controls_indices in H as [-> _]. vm_compute. lia. }
  assert (Ht : (initial_time Examples.path_and_extra ≤ Q2Qc (1 # 2))%Qc)
    by (apply (bool_decide_unpack _); vm_compute; reflexivity).
  destruct (control_at_reads_recorded_slot Examples.path_and_extra Examples.plain_accessors
              (bounds Examples.path_and_extra) (Examples.ramp 33) "u" "u" 1 (Q2Qc (1 # 2)) 0
              false count a indices Hnd H Hcount ltac:(simpl; lia)
              eq_refl Hin Ht) as (values & Hvalues & _ & Hfalse).
  destruct (control_at_reads_recorded_slot Examples.path_and_extra Examples.plain_accessors
              (bounds Examples.path_and_extra) (Examples.ramp 33) "u" "u" 1 (Q2Qc (1 # 2)) 0
              true count a indices Hnd H Hcount ltac:(simpl; lia)
              eq_refl Hin Ht) as (values' & Hvalues' & _ & Htrue).
  vm_compute in H. injection H as <- <- <-.
  vm_compute in Hvalues. injection Hvalues as <-.
  vm_compute in Hvalues'. injection Hvalues' as <-.
  rewrite Hfalse, Htrue.
  split; apply (bool_decide_unpack _); vm_compute; reflexivity.
Defined.

Lemma control_at_outside_grid_witness :
  control_at Examples.single_state Examples.plain_accessors (Examples.ramp 7) "u" (qz 5) 0
    false false
  = Raise (PyException "Cannot interpolate for u").
Proof.
  apply (control_at_outside_grid Examples.single_state Examples.plain_accessors
           (Examples.ramp 7) "u" "u" 1 (qz 5) (qz 0) (qz 2) 0 false).
  - reflexivity.
  - apply list_elem_of_singleton. reflexivity.
  - vm_compute. lia.
  - apply (bool_decide_unpack _). vm_compute. reflexivity.
  - reflexivity.
  - reflexivity.
  - right. apply (bool_decide_unpack _). vm_compute. reflexivity.
Defined.

Lemma state_at_control_ignores_scaled_witness :
  state_at Examples.path_and_extra Examples.plain_accessors Examples.path_and_extra_transcription
    (Examples.ramp 33) "u" (Q2Qc (1 # 2)) 1 true true ∅
  = Ok (Fin (qz 1), {["u[1,1/2]SE" := Fin (qz 1)]}).
Proof.
  rewrite state_at_control_ignores_scaled.
  - apply (bool_decide_unpack _). vm_compute. reflexivity.
  - vm_compute. lia.
  - discriminate.
  - apply (bool_decide_unpack _). vm_compute. reflexivity.
  - apply list_elem_of_singleton. reflexivity.
  - reflexivity.
Defined.

Lemma state_at_falls_back_witness :
  state_at Examples.path_and_extra Examples.plain_accessors Examples.path_and_extra_transcription
    (Examples.ramp 33) "c" (Q2Qc (1 # 2)) 1 false true ∅
  = Ok (Fin (qz 5), {["c[1,1/2]E" := Fin (qz 5)]}) ∧
  state_at Examples.path_and_extra Examples.plain_accessors Examples.path_and_extra_transcription
    (Examples.ramp 33) "k" (Q2Qc (1 # 2)) 1 false true ∅
  = Ok (Fin (qz 5), {["k[1,1/2]E" := Fin (qz 5)]}) ∧
  state_at Examples.path_and_extra Examples.plain_accessors Examples.path_and_extra_transcription
    (Examples.ramp 33) "v" (Q2Qc (1 # 2)) 1 false true ∅
  = Raise (KeyError "v").
Proof.
  assert (Hfall : ∀ v, v ∈ ["c"; "k"; "v"] →
            state_at Examples.path_and_extra Examples.plain_accessors
              Examples.path_and_extra_transcription (Examples.ramp 33) v (Q2Qc (1 # 2)) 1
              false true ∅
            = match constant_inputs Examples.plain_accessors 1 !! v with
              | Some constant_input =>
                  fills ← fill_values true (ts_values constant_input);
                  let sym :=
                    interpolate Examples.path_and_extra (Q2Qc (1 # 2))
                      (ts_times constant_input) (ts_values constant_input)
                      fills.1 fills.2
                      (interpolation_method Examples.path_and_extra v) in
                  Ok (sym,
                      <[symbol_name Examples.plain_accessors v 1
                          (Q2Qc (1 # 2) - initial_time Examples.path_and_extra)%Qc
                          false true := sym]> ∅)
              | None =>
                  match parameters Examples.plain_accessors 1 !! v with
                  | Some sym =>
                      Ok (sym,
                          <[symbol_name Examples.plain_accessors v 1
                              (Q2Qc (1 # 2) - initial_time Examples.path_and_extra)%Qc
                              false true := sym]> ∅)
                  | None => Raise (KeyError v)
                  end
              end).
  { intros v Hv. apply state_at_falls_back.
    - revert v Hv. apply Forall_forall.
      repeat constructor; vm_compute; lia.
    - discriminate.
    - revert v Hv. apply Forall_forall.
      repeat constructor; apply (bool_decide_unpack _); vm_compute;
        reflexivity.
    - revert v Hv. apply Forall_forall.
      repeat constructor; apply (bool_decide_unpack _); vm_compute;
        reflexivity.
    - reflexivity. }
  split; [| split].
  - rewrite Hfall by (apply (bool_decide_unpack _); vm_compute; reflexivity).
    apply (bool_decide_unpack _). vm_compute. reflexivity.
  - rewrite Hfall by (apply (bool_decide_unpack _); vm_compute; reflexivity).
    apply (bool_decide_unpack _). vm_compute. reflexivity.
  - rewrite Hfall by (apply (bool_decide_unpack _); vm_compute; reflexivity).
    reflexivity.
Defined.

Lemma state_at_reads_recorded_slot_witness :
  state_at Examples.single_state Examples.plain_accessors
    Examples.single_state_transcription (Examples.ramp 7) "minus_x" (Q2Qc (1 # 2)) 0
    false true ∅
  = Ok (Fin (Q2Qc (-7 # 2)), {["minus_x[0,1/2]E" := Fin (Q2Qc (-7 # 2))]}).
Proof.
  destruct (state_at_reads_recorded_slot Examples.single_state
              Examples.plain_accessors Examples.single_state_transcription
              [DiscretizeControlsCalled; DiscretizeStatesCalled] (Examples.ramp 7)
              "minus_x" "x" (-1) (Q2Qc (1 # 2)) 0 false ∅)
    as (values & Hvalues & _ & Hat).
  - exact single_state_reaches.
  - exact single_state_run.
  - reflexivity.
  - simpl. lia.
  - intros v s Hin. inversion Hin.
  - vm_compute. lia.
  - reflexivity.
  - apply list_elem_of_singleton. reflexivity.
  - intros Hc. inversion Hc.
  - apply (bool_decide_unpack _). vm_compute. reflexivity.
  - reflexivity.
  - vm_compute in Hvalues. injection Hvalues as <-.
    cbv zeta in Hat. rewrite Hat.
    apply (bool_decide_unpack _). vm_compute. reflexivity.
Defined.

Lemma der_at_initial_time_witness :
  der_at Examples.path_and_extra Examples.plain_accessors Examples.path_and_extra_transcription
    (Examples.ramp 33) "minus_x" (qz 0) 1 ∅
  = Ok (Fin (qz (-64)), ∅).
Proof.
  destruct (der_at_initial_time Examples.path_and_extra Examples.plain_accessors
              Examples.path_and_extra_inputs Examples.path_and_extra_transcription
              [DiscretizeControlsCalled; DiscretizeStatesCalled] 1
              (Examples.ramp 33) 0 "minus_x" "x" "der(x)" (-1) ∅)
    as (results & value & Hres & Hv & Hat).
  - exact path_and_extra_reaches.
  - exact path_and_extra_decodable.
  - apply NoDup_singleton.
  - exact path_and_extra_run.
  - reflexivity.
  - reflexivity.
  - simpl. lia.
  - reflexivity.
  - reflexivity.
  - reflexivity.
  - intros dt Hdt. vm_compute in Hdt. injection Hdt as <-. discriminate.
  - vm_compute in Hres. injection Hres as <-.
    vm_compute in Hv. injection Hv as <-.
    etransitivity; [exact Hat |].
    apply (bool_decide_unpack _). vm_compute. reflexivity.
Defined.

Lemma der_at_beyond_grid_witness :
  der_at Examples.single_state Examples.plain_accessors
    Examples.single_state_transcription (Examples.ramp 7) "x" (qz 5) 0 ∅
  = Raise IndexError.
Proof.
  apply der_at_beyond_grid.
  - apply (bool_decide_unpack _). vm_compute. reflexivity.
  - repeat constructor; apply (bool_decide_unpack _); vm_compute;
      reflexivity.
Defined.

Lemma der_at_finite_difference_witness :
  der_at Examples.single_state Examples.plain_accessors
    Examples.single_state_transcription (Examples.ramp 7) "x" (Q2Qc (3 # 2)) 0 ∅
  = Ok (Fin (qz 1),
        {["x[0,1/1]E" := Fin (qz 4); "x[0,2/1]E" := Fin (qz 5)]}).
Proof.
  rewrite (der_at_finite_difference Examples.single_state Examples.plain_accessors
             Examples.single_state_transcription (Examples.ramp 7) "x"
             (Q2Qc (3 # 2)) (qz 1) (qz 2) 0 ∅ [qz 0] []).
  - apply (bool_decide_unpack _). vm_compute. reflexivity.
  - apply (bool_decide_unpack _). vm_compute. reflexivity.
  - reflexivity.
  - apply Forall_singleton. apply (bool_decide_unpack _). vm_compute.
    reflexivity.
  - apply (bool_decide_unpack _). vm_compute. reflexivity.
  - apply (bool_decide_unpack _). vm_compute. reflexivity.
Defined.

Lemma initial_derivative_pinned_from_history_witness :
  ∃ lbx' ubx' cons,
    pin_initial_derivatives Examples.path_and_extra
      Examples.path_and_extra_transcription (replicate 33 (qz 1)) 1
      [Fin (qz 0)] (replicate 33 NInf) (replicate 33 PInf)
    = Ok (lbx', ubx', cons) ∧
    lbx' !! 32 = Some (Fin (qz 1)) ∧ ubx' !! 32 = Some (Fin (qz 1)) ∧
    lbx' !! 31 = Some NInf ∧ ubx' !! 31 = Some PInf.
Proof.
  destruct (pin_initial_derivatives Examples.path_and_extra
              Examples.path_and_extra_transcription (replicate 33 (qz 1)) 1
              [Fin (qz 0)] (replicate 33 NInf) (replicate 33 PInf))
    as [e | [[lbx' ubx'] cons]] eqn:Hpin; [vm_compute in Hpin; discriminate |].
  destruct (initial_derivative_pinned_from_history Examples.path_and_extra
              Examples.path_and_extra_transcription 1
              (replicate 33 (qz 1)) [Fin (qz 0)]
              (replicate 33 NInf) (replicate 33 PInf) lbx' ubx' cons
              0 "x"
              (mkTimeseries [qz (-1); qz 0] [Fin (qz 1); Fin (qz 3)])
              (Fin (qz 1)) (Fin (qz 3)) (qz (-1)) (qz 1))
    as (Hl & Hu & _ & _ & Hframe).
  - discriminate.
  - vm_compute. lia.
  - reflexivity.
  - reflexivity.
  - simpl. lia.
  - reflexivity.
  - reflexivity.
  - reflexivity.
  - reflexivity.
  - reflexivity.
  - reflexivity.
  - discriminate.
  - exact Hpin.
  - destruct (Hframe 31) as [Hfl Hfu]; [left; vm_compute; lia |].
    exists lbx', ubx', cons. split; [reflexivity |].
    split; [etransitivity; [exact Hl |];
            apply (bool_decide_unpack _); vm_compute; reflexivity |].
    split; [etransitivity; [exact Hu |];
            apply (bool_decide_unpack _); vm_compute; reflexivity |].
    split; [rewrite Hfl | rewrite Hfu]; reflexivity.
Defined.
